(** * backup-vm: the location grammar and the argument state machine

    A shallow embedding of [backup_vm/parse.py]: the regular expressions of
    [Location] with a backtracking matcher in the style of Python's [re],
    [posixpath]'s path functions, the [Location] methods and the
    [ArgumentParser] family, followed by the properties proved about them. *)

From Stdlib Require Import String Ascii List Bool Arith Lia ZArith ListSet.
From Stdlib Require Import DecimalString.
Import ListNotations.

Set Implicit Arguments.

(** ** Python strings *)

(** A Python [str] is modelled as the list of its characters, a character
    as one of the 256 of [ascii]. *)
Definition str := list ascii.

(** [py "abc"] is the literal ["abc"]. *)
Definition py (x : string) : str := list_ascii_of_string x.

Definition str_dec : forall a b : str, {a = b} + {a <> b} :=
  list_eq_dec ascii_dec.

Definition opt_str_dec : forall a b : option str, {a = b} + {a <> b}.
Proof. decide equality; apply str_dec. Defined.

Fixpoint eqb_str (a b : str) : bool :=
  match a, b with
  | [], [] => true
  | x :: a', y :: b' => Ascii.eqb x y && eqb_str a' b'
  | _, _ => false
  end.

(** [s.startswith(prefix)] *)
Fixpoint startswith (s prefix : str) {struct prefix} : bool :=
  match prefix, s with
  | [], _ => true
  | p :: prefix', c :: s' => Ascii.eqb c p && startswith s' prefix'
  | _ :: _, [] => false
  end.

(** [c in s] for a one-character [c] *)
Definition contains (c : ascii) (s : str) : bool := existsb (Ascii.eqb c) s.

(** [s.split(sep)] for a one-character separator: never empty, one more
    component than there are separators. *)
Fixpoint split (sep : ascii) (s : str) : list str :=
  match s with
  | [] => [[]]
  | c :: s' =>
      if Ascii.eqb c sep then [] :: split sep s'
      else match split sep s' with
           | comp :: rest => (c :: comp) :: rest
           | [] => [[c]]
           end
  end.

(** [sep.join(comps)] *)
Fixpoint str_join (sep : str) (comps : list str) : str :=
  match comps with
  | [] => []
  | [x] => x
  | x :: rest => x ++ sep ++ str_join sep rest
  end.

(** [int(s)] on a string of decimal digits (the only strings the port group
    can hold). *)
Definition digit_val (c : ascii) : Z := Z.of_nat (nat_of_ascii c) - 48.

Definition int (s : str) : Z :=
  fold_left (fun acc c => 10 * acc + digit_val c)%Z s 0%Z.

(** [str(n)] / ["{}".format(n)] on an integer. *)
Definition str_of_int (n : Z) : str := py (NilZero.string_of_int (Z.to_int n)).

(** ["{}".format(x)] on a value that is a string or [None]. *)
Definition format_opt (x : option str) : str :=
  match x with
  | Some v => v
  | None => py "None"
  end.

(** ** Regular expressions

    The fragment of Python's [re] syntax the module uses.  Unnamed
    parenthesised groups only group (nothing reads them); named groups
    record the text they matched. *)

Inductive gname := g_proto | g_user | g_host | g_port | g_path | g_archive.

(** The groups of a match object: [m.group(name)] is [None] for a group
    that took no part in the match. *)
Record groups := {
  m_proto : option str;
  m_user : option str;
  m_host : option str;
  m_port : option str;
  m_path : option str;
  m_archive : option str
}.

Definition no_groups : groups :=
  {| m_proto := None; m_user := None; m_host := None;
     m_port := None; m_path := None; m_archive := None |}.

Definition group (m : groups) (g : gname) : option str :=
  match g with
  | g_proto => m_proto m
  | g_user => m_user m
  | g_host => m_host m
  | g_port => m_port m
  | g_path => m_path m
  | g_archive => m_archive m
  end.

Definition set_group (g : gname) (v : str) (m : groups) : groups :=
  match g with
  | g_proto => {| m_proto := Some v; m_user := m_user m; m_host := m_host m;
                  m_port := m_port m; m_path := m_path m; m_archive := m_archive m |}
  | g_user => {| m_proto := m_proto m; m_user := Some v; m_host := m_host m;
                 m_port := m_port m; m_path := m_path m; m_archive := m_archive m |}
  | g_host => {| m_proto := m_proto m; m_user := m_user m; m_host := Some v;
                 m_port := m_port m; m_path := m_path m; m_archive := m_archive m |}
  | g_port => {| m_proto := m_proto m; m_user := m_user m; m_host := m_host m;
                 m_port := Some v; m_path := m_path m; m_archive := m_archive m |}
  | g_path => {| m_proto := m_proto m; m_user := m_user m; m_host := m_host m;
                 m_port := m_port m; m_path := Some v; m_archive := m_archive m |}
  | g_archive => {| m_proto := m_proto m; m_user := m_user m; m_host := m_host m;
                    m_port := m_port m; m_path := m_path m; m_archive := Some v |}
  end.

Inductive regex :=
| Chr (p : ascii -> bool)          (* one character of a class *)
| Eps                              (* the empty pattern *)
| Seq (r1 r2 : regex)              (* r1 r2 *)
| Alt (r1 r2 : regex)              (* r1|r2 *)
| Star (r : regex)                 (* r*, greedy *)
| Group (g : gname) (r : regex)    (* (?P<g>r) *)
| NegLook (r : regex)              (* (?!r) *)
| Eos.                             (* $ *)

(** [r?], greedy: try [r] first. *)
Definition Opt (r : regex) : regex := Alt r Eps.

(** [r+], greedy. *)
Definition Plus (r : regex) : regex := Seq r (Star r).

(** A literal string. *)
Fixpoint Lit (s : str) : regex :=
  match s with
  | [] => Eps
  | c :: s' => Seq (Chr (Ascii.eqb c)) (Lit s')
  end.

(** The text between the position [s] and the later position [s1]. *)
Definition consumed (s s1 : str) : str := firstn (length s - length s1) s.

(** The matcher is a backtracking one, as [re] is: a pattern is run on the
    rest of the input with a continuation for what follows it; the first
    alternative that lets the continuation succeed wins. *)
Definition cont := str -> groups -> option groups.

Definition newline : ascii := "010"%char.

Fixpoint star_loop (body : str -> groups -> cont -> option groups) (k : cont)
    (n : nat) (s : str) (m : groups) : option groups :=
  match n with
  | O => k s m
  | S n' =>
      match body s m (fun s1 m1 =>
                        if length s1 <? length s
                        then star_loop body k n' s1 m1 else None) with
      | Some x => Some x
      | None => k s m
      end
  end.

Fixpoint exec (r : regex) (s : str) (m : groups) (k : cont) : option groups :=
  match r with
  | Chr p =>
      match s with
      | c :: s' => if p c then k s' m else None
      | [] => None
      end
  | Eps => k s m
  | Seq r1 r2 => exec r1 s m (fun s1 m1 => exec r2 s1 m1 k)
  | Alt r1 r2 =>
      match exec r1 s m k with
      | Some x => Some x
      | None => exec r2 s m k
      end
  | Star r1 => star_loop (exec r1) k (length s) s m
  | Group g r1 => exec r1 s m (fun s1 m1 => k s1 (set_group g (consumed s s1) m1))
  | NegLook r1 =>
      match exec r1 s m (fun _ m1 => Some m1) with
      | Some _ => None
      | None => k s m
      end
  | Eos =>
      match s with
      | [] => k s m
      | [c] => if Ascii.eqb c newline then k s m else None
      | _ => None
      end
  end.

(** [pattern.match(text)]: anchored at the start only. *)
Definition re_match (r : regex) (text : str) : option groups :=
  exec r text no_groups (fun _ m => Some m).

(** Character classes. *)
Definition none_of (cs : string) (c : ascii) : bool := negb (contains c (py cs)).

Definition between (lo hi c : ascii) : bool :=
  (nat_of_ascii lo <=? nat_of_ascii c) && (nat_of_ascii c <=? nat_of_ascii hi).

(** [\d] *)
Definition digit (c : ascii) : bool := between "0" "9" c.

(** [[0-9a-fA-F:.]] *)
Definition hex_colon_dot (c : ascii) : bool :=
  between "0" "9" c || between "a" "f" c || between "A" "F" c
  || Ascii.eqb c ":" || Ascii.eqb c ".".

Definition lit (x : string) : regex := Lit (py x).

(** ** [posixpath]

    The three functions of Python's [os.path] (POSIX flavour) the module
    calls, after the library's pure-Python definitions. *)

Module os_path.

Definition sep : ascii := "/"%char.
Definition dot : str := py ".".
Definition dotdot : str := py "..".

(** [isabs(s)]: [s.startswith('/')] *)
Definition isabs (s : str) : bool := startswith s (py "/").

(** [join(a, b)] with one tail component. *)
Definition join (a b : str) : str :=
  if startswith b (py "/") then b
  else match rev a with
       | [] => b
       | c :: _ => if Ascii.eqb c sep then a ++ b else a ++ [sep] ++ b
       end.

(** [initial_slashes]: 0, 1, or 2 when the path starts with exactly two. *)
Definition initial_slashes (path : str) : nat :=
  if startswith path (py "/") then
    if startswith path (py "//") && negb (startswith path (py "///"))
    then 2 else 1
  else 0.

(** One turn of [for comp in comps].  [new_comps] is kept newest first, so
    its head is [new_comps[-1]]. *)
Definition step (slashes : nat) (new_comps : list str) (comp : str) : list str :=
  if eqb_str comp [] || eqb_str comp dot then new_comps
  else if negb (eqb_str comp dotdot)
          || ((slashes =? 0) && match new_comps with [] => true | _ => false end)
          || match new_comps with top :: _ => eqb_str top dotdot | [] => false end
  then comp :: new_comps
  else match new_comps with
       | _ :: older => older
       | [] => []
       end.

(** [normpath(path)] *)
Definition normpath (path : str) : str :=
  match path with
  | [] => dot
  | _ =>
      let slashes := initial_slashes path in
      let comps := rev (fold_left (step slashes) (split sep path) []) in
      let path' := repeat sep slashes ++ str_join [sep] comps in
      match path' with
      | [] => dot
      | _ => path'
      end
  end.

End os_path.

(** ** The location grammars *)

(** [[^:]|(:(?!:))]: a character of a path, a colon only when no second
    colon follows it. *)
Definition path_char : regex :=
  Alt (Chr (none_of ":")) (Seq (lit ":") (NegLook (lit ":"))).

Definition optional_user_re : regex :=
  Opt (Seq (Group g_user (Plus (Chr (none_of "@:/")))) (lit "@")).

Definition scp_path_re : regex :=
  Seq (NegLook (Alt (lit ":") (Alt (lit "//") (lit "ssh://"))))
      (Group g_path (Plus path_char)).

Definition file_path_re : regex :=
  Group g_path (Seq (Star (Chr (none_of "/"))) (Seq (lit "/") (Plus path_char))).

Definition abs_path_re : regex :=
  Group g_path (Seq (lit "/") (Plus path_char)).

Definition optional_archive_re : regex :=
  Seq (Opt (Seq (lit "::") (Group g_archive (Plus (Chr (none_of "/")))))) Eos.

(** [(?P<host>([^:/]+|\[[0-9a-fA-F:.]+\]))] *)
Definition host_re : regex :=
  Group g_host (Alt (Plus (Chr (none_of ":/")))
                    (Seq (lit "[") (Seq (Plus (Chr hex_colon_dot)) (lit "]")))).

Definition ssh_re : regex :=
  Seq (Group g_proto (lit "ssh"))
  (Seq (lit "://")
  (Seq optional_user_re
  (Seq host_re
  (Seq (Opt (Seq (lit ":") (Group g_port (Plus (Chr digit)))))
  (Seq abs_path_re optional_archive_re))))).

Definition file_re : regex :=
  Seq (Group g_proto (lit "file"))
  (Seq (lit "://")
  (Seq file_path_re optional_archive_re)).

Definition scp_re : regex :=
  Seq (Opt (Seq optional_user_re (Seq host_re (lit ":"))))
  (Seq scp_path_re optional_archive_re).

Definition env_re : regex :=
  Alt (Seq (lit "::") Eos) optional_archive_re.

(** ** Location *)

Record Location := {
  orig : str;
  extra_args : list str;
  proto : option str;
  user : option str;
  _host : option str;
  port : option Z;
  path : option str;
  archive : option str
}.

(** A fresh object before [__init__] ran: every field is the class
    attribute [None]. *)
Definition new_Location : Location :=
  {| orig := []; extra_args := []; proto := None; user := None; _host := None;
     port := None; path := None; archive := None |}.

Definition set_orig (v : str) (l : Location) : Location :=
  {| orig := v; extra_args := extra_args l; proto := proto l; user := user l;
     _host := _host l; port := port l; path := path l; archive := archive l |}.

Definition set_extra_args (v : list str) (l : Location) : Location :=
  {| orig := orig l; extra_args := v; proto := proto l; user := user l;
     _host := _host l; port := port l; path := path l; archive := archive l |}.

Definition set_proto (v : option str) (l : Location) : Location :=
  {| orig := orig l; extra_args := extra_args l; proto := v; user := user l;
     _host := _host l; port := port l; path := path l; archive := archive l |}.

Definition set_user (v : option str) (l : Location) : Location :=
  {| orig := orig l; extra_args := extra_args l; proto := proto l; user := v;
     _host := _host l; port := port l; path := path l; archive := archive l |}.

Definition set_host (v : option str) (l : Location) : Location :=
  {| orig := orig l; extra_args := extra_args l; proto := proto l; user := user l;
     _host := v; port := port l; path := path l; archive := archive l |}.

Definition set_port (v : option Z) (l : Location) : Location :=
  {| orig := orig l; extra_args := extra_args l; proto := proto l; user := user l;
     _host := _host l; port := v; path := path l; archive := archive l |}.

Definition set_path (v : option str) (l : Location) : Location :=
  {| orig := orig l; extra_args := extra_args l; proto := proto l; user := user l;
     _host := _host l; port := port l; path := v; archive := archive l |}.

Definition set_archive (v : option str) (l : Location) : Location :=
  {| orig := orig l; extra_args := extra_args l; proto := proto l; user := user l;
     _host := _host l; port := port l; path := path l; archive := v |}.

(** [normpath_special(p)], the helper inside [_parse]. *)
Definition normpath_special (p : str) : str :=
  let relative := startswith p (py "/./") in
  let p' := os_path.normpath p in
  if relative then py "/." ++ p' else p'.

(** [m.group("port") and int(m.group("port")) or None] *)
Definition port_of (g : option str) : option Z :=
  match g with
  | None => None
  | Some [] => None
  | Some d => if (int d =? 0)%Z then None else Some (int d)
  end.

(** [self._host and "ssh" or "file"] *)
Definition proto_of_host (h : option str) : str :=
  match h with
  | Some (_ :: _) => py "ssh"
  | _ => py "file"
  end.

(** [m.group("path")] is a string in every match of the three grammars;
    [normpath_special] is applied to it. *)
Definition norm_path_group (m : groups) : option str :=
  option_map normpath_special (m_path m).

(** [Location._parse]: the returned flag and the object after the call. *)
Definition _parse (text : str) (self : Location) : bool * Location :=
  match re_match ssh_re text with
  | Some m =>
      (true,
       set_archive (m_archive m)
         (set_path (norm_path_group m)
            (set_port (port_of (m_port m))
               (set_host (m_host m)
                  (set_user (m_user m)
                     (set_proto (m_proto m) self))))))
  | None =>
      match re_match file_re text with
      | Some m =>
          (true,
           set_archive (m_archive m)
             (set_path (norm_path_group m)
                (set_proto (m_proto m) self)))
      | None =>
          match re_match scp_re text with
          | Some m =>
              (true,
               set_proto (Some (proto_of_host (m_host m)))
                 (set_archive (m_archive m)
                    (set_path (norm_path_group m)
                       (set_host (m_host m)
                          (set_user (m_user m) self)))))
          | None => (false, self)
          end
      end
  end.

(** [Location.parse]; [BORG_REPO] is [os.environ.get("BORG_REPO")]. *)
Definition parse (BORG_REPO : option str) (text : str) (self : Location)
  : bool * Location :=
  let (valid, self1) := _parse text self in
  if valid then (true, self1)
  else
    match re_match env_re text with
    | None => (false, self1)
    | Some m =>
        match BORG_REPO with
        | None => (false, self1)
        | Some repo =>
            let (valid2, self2) := _parse repo self1 in
            if negb valid2 then (false, self2)
            else (true, set_archive (m_archive m) self2)
        end
    end.

(** Exceptions. *)
Inductive exn :=
| ValueError (msg : str)
| TypeError
| IndexError
| UnboundLocalError.

Inductive result (A : Type) :=
| Ok (a : A)
| Raise (e : exn).
Arguments Ok {A} a.
Arguments Raise {A} e.

(** [Location.__init__], as the constructor call [Location(text)]. *)
Definition __init__ (BORG_REPO : option str) (text : str) : result Location :=
  let self := set_extra_args [] (set_orig text new_Location) in
  let (ok, self1) := parse BORG_REPO (orig self) self in
  if negb ok
  then Raise (ValueError (py "Location: parse failed: " ++ orig self1))
  else Ok self1.

(** [Location.try_location]; the constructor raises nothing but
    [ValueError]. *)
Definition try_location (BORG_REPO : option str) (text : str) : option Location :=
  match __init__ BORG_REPO text with
  | Ok l => Some l
  | Raise _ => None
  end.

(** [Location.canonicalize_path]; [getcwd] is what [os.getcwd()] returns.
    A [path] of [None] makes [os.path.isabs] raise; no parsed location has
    one. *)
Definition canonicalize_path (getcwd : str) (cwd : option str) (self : Location)
  : result Location :=
  if match proto self with Some p => eqb_str p (py "file") | None => false end
  then match path self with
       | None => Raise TypeError
       | Some p =>
           if negb (os_path.isabs p)
           then let cwd' := match cwd with None => getcwd | Some c => c end in
                Ok (set_path (Some (os_path.normpath (os_path.join cwd' p))) self)
           else Ok self
       end
  else Ok self.

(** [Location.__str__] *)
Definition __str__ (self : Location) : result str :=
  let finish (repo : str) :=
    match archive self with
    | Some a => repo ++ py "::" ++ a
    | None => repo
    end in
  match proto self with
  | None => Raise UnboundLocalError
  | Some p =>
      if eqb_str p (py "file") then
        match path self with
        | Some repo => Ok (finish repo)
        | None => Raise TypeError
        end
      else if eqb_str p (py "ssh") then
        let _user := match user self with Some u => u ++ py "@" | None => [] end in
        match port self with
        | Some n =>
            match path self with
            | None => Raise TypeError
            | Some p =>
                let _path := if os_path.isabs p then p else os_path.join (py ".") p in
                Ok (finish (py "ssh://" ++ _user ++ format_opt (_host self) ++ py ":"
                              ++ str_of_int n ++ py "/" ++ _path))
            end
        | None =>
            Ok (finish (_user ++ format_opt (_host self) ++ py ":"
                          ++ format_opt (path self)))
        end
      else Raise UnboundLocalError
  end.

(** ** The argument parsers *)

(** What the parsers read from the process: [os.environ.get("BORG_REPO")],
    [os.getcwd()] and [sys.stdout.isatty()]. *)
Record OS := {
  BORG_REPO : option str;
  getcwd : str;
  isatty : bool
}.

(** What [help()] or [version()] printed before [sys.exit]. *)
Inductive shown := shown_help | shown_version.

(** How a call ends: it returns, it leaves through [sys.exit] after help or
    version, it leaves through [self.error(msg)] (usage synopsis, message,
    exit code 2), or an exception escapes. *)
Inductive outcome (A : Type) :=
| Return (a : A)
| SystemExit (code : Z) (what : shown)
| UsageError (msg : str)
| Uncaught (e : exn).
Arguments Return {A} a.
Arguments SystemExit {A} code what.
Arguments UsageError {A} msg.
Arguments Uncaught {A} e.

Definition bind {A B} (x : outcome A) (f : A -> outcome B) : outcome B :=
  match x with
  | Return a => f a
  | SystemExit code what => SystemExit code what
  | UsageError msg => UsageError msg
  | Uncaught e => Uncaught e
  end.

Notation "x <- c ;; k" := (bind c (fun x => k))
  (at level 61, c at next level, right associativity).

Module ArgumentParser.

(** The instance: the fields of the base class and, in [sub], those a
    subclass adds. *)
Record obj (X : Type) := {
  prog : str;
  progress : bool;
  disks : set str;
  exclude_source_devs : set (option str);
  exclude_target_devs : set (option str);
  archives : list Location;
  parsing_borg_args : bool;
  sub : X
}.

Section Base.
Variable X : Type.
Variable os : OS.

Definition set_progress (v : bool) (self : obj X) : obj X :=
  {| prog := prog self; progress := v; disks := disks self;
     exclude_source_devs := exclude_source_devs self;
     exclude_target_devs := exclude_target_devs self;
     archives := archives self;
     parsing_borg_args := parsing_borg_args self; sub := sub self |}.

Definition set_disks (v : set str) (self : obj X) : obj X :=
  {| prog := prog self; progress := progress self; disks := v;
     exclude_source_devs := exclude_source_devs self;
     exclude_target_devs := exclude_target_devs self;
     archives := archives self;
     parsing_borg_args := parsing_borg_args self; sub := sub self |}.

Definition set_exclude_source_devs (v : set (option str)) (self : obj X) : obj X :=
  {| prog := prog self; progress := progress self; disks := disks self;
     exclude_source_devs := v;
     exclude_target_devs := exclude_target_devs self;
     archives := archives self;
     parsing_borg_args := parsing_borg_args self; sub := sub self |}.

Definition set_exclude_target_devs (v : set (option str)) (self : obj X) : obj X :=
  {| prog := prog self; progress := progress self; disks := disks self;
     exclude_source_devs := exclude_source_devs self;
     exclude_target_devs := v;
     archives := archives self;
     parsing_borg_args := parsing_borg_args self; sub := sub self |}.

Definition set_archives (v : list Location) (self : obj X) : obj X :=
  {| prog := prog self; progress := progress self; disks := disks self;
     exclude_source_devs := exclude_source_devs self;
     exclude_target_devs := exclude_target_devs self;
     archives := v;
     parsing_borg_args := parsing_borg_args self; sub := sub self |}.

Definition set_parsing_borg_args (v : bool) (self : obj X) : obj X :=
  {| prog := prog self; progress := progress self; disks := disks self;
     exclude_source_devs := exclude_source_devs self;
     exclude_target_devs := exclude_target_devs self;
     archives := archives self;
     parsing_borg_args := v; sub := sub self |}.

Definition set_sub (v : X) (self : obj X) : obj X :=
  {| prog := prog self; progress := progress self; disks := disks self;
     exclude_source_devs := exclude_source_devs self;
     exclude_target_devs := exclude_target_devs self;
     archives := archives self;
     parsing_borg_args := parsing_borg_args self; sub := v |}.

(** [arg in {a, b}] *)
Definition one_of (arg : str) (names : list string) : bool :=
  existsb (fun n => eqb_str arg (py n)) names.

(** [l is not None and l.path is not None and
    (l.proto == "file" or l._host is not None)] *)
Definition usable (l : option Location) : bool :=
  match l with
  | None => false
  | Some l =>
      match path l with None => false | Some _ => true end
      && (match proto l with Some p => eqb_str p (py "file") | None => false end
          || match _host l with None => false | Some _ => true end)
  end.

Definition has_archive (l : option Location) : bool :=
  match l with
  | Some l => match archive l with None => false | Some _ => true end
  | None => false
  end.

(** [self.parsing_borg_args = False; l.canonicalize_path();
    self.archives.append(l)] *)
Definition accept (l : option Location) (self : obj X) : outcome (bool * obj X) :=
  match l with
  | None => Uncaught TypeError
  | Some l =>
      match canonicalize_path (getcwd os) None l with
      | Raise e => Uncaught e
      | Ok l' =>
          Return (true, set_archives (archives self ++ [l'])
                          (set_parsing_borg_args false self))
      end
  end.

(** [self.archives[-1].extra_args.append(arg)]; [None] when the list is
    empty (an [IndexError]). *)
Definition append_extra_arg (arg : str) (ls : list Location) : option (list Location) :=
  match rev ls with
  | [] => None
  | l :: before =>
      Some (rev before ++ [set_extra_args (extra_args l ++ [arg]) l])
  end.

(** [ArgumentParser.parse_arg] *)
Definition parse_arg (self : obj X) (arg : str) (needs_archive : bool)
    (lookahead : option str) : outcome (bool * obj X) :=
  if one_of arg ["-h"; "--help"]%string then SystemExit 0 shown_help
  else if one_of arg ["-v"; "--version"]%string && negb (parsing_borg_args self)
  then SystemExit 0 shown_version
  else
    let l := try_location (BORG_REPO os) arg in
    if one_of arg ["--exclude-source-dev"]%string && negb (parsing_borg_args self)
    then Return (true, set_exclude_source_devs
                         (set_add opt_str_dec lookahead (exclude_source_devs self)) self)
    else if one_of arg ["--exclude-target-dev"]%string && negb (parsing_borg_args self)
    then Return (true, set_exclude_target_devs
                         (set_add opt_str_dec lookahead (exclude_target_devs self)) self)
    else if needs_archive && usable l && has_archive l
    then accept l self
    else if eqb_str arg (py "--borg-args")
    then match archives self with
         | [] => UsageError (py "--borg-args must come after an archive path")
         | _ => Return (true, set_parsing_borg_args true self)
         end
    else if negb needs_archive
            && match lookahead with
               | Some la => eqb_str la (py "--borg-args")
               | None => false
               end
            && usable l
    then accept l self
    else if parsing_borg_args self
    then match append_extra_arg arg (archives self) with
         | Some ls => Return (true, set_archives ls self)
         | None => Uncaught IndexError
         end
    else if one_of arg ["-p"; "--progress"]%string
    then Return (true, set_progress true self)
    else Return (false, self).

(** The method [self.parse_arg(arg, lookahead=lookahead)] of the actual
    class of [self], which a subclass overrides. *)
Variable self_parse_arg : obj X -> str -> option str -> outcome (bool * obj X).

(** [if not self.parse_arg(arg, lookahead=lookahead): self.error(...)] *)
Definition dispatch (self : obj X) (arg : str) (lookahead : option str)
  : outcome (obj X) :=
  r <- self_parse_arg self arg lookahead ;;
  if fst r then Return (snd r)
  else UsageError (py "unrecognized argument: '" ++ arg ++ py "'").

(** [for c in arg[1:]: ...] *)
Fixpoint short_flags (self : obj X) (cs : str) (lookahead : option str)
  : outcome (obj X) :=
  match cs with
  | [] => Return self
  | c :: cs' =>
      self' <- dispatch self (py "-" ++ [c]) lookahead ;;
      short_flags self' cs' lookahead
  end.

(** The body of [for arg, lookahead in itertools.zip_longest(args, args[1:])],
    from the token [arg] on, with the current value of [skip]. *)
Fixpoint loop (self : obj X) (skip : bool) (args : list str) : outcome (obj X) :=
  match args with
  | [] => Return self
  | arg :: rest =>
      let lookahead := hd_error rest in
      if skip then loop self false rest
      else if startswith arg (py "-") && negb (startswith arg (py "--"))
              && negb (contains "=" arg)
      then self' <- short_flags self (tl arg) lookahead ;; loop self' false rest
      else if startswith arg (py "--") && negb (contains "=" arg)
              && negb (eqb_str arg (py "--borg-args"))
              && negb (parsing_borg_args self)
      then self' <- dispatch self arg lookahead ;; loop self' true rest
      else self' <- dispatch self arg lookahead ;; loop self' false rest
  end.

(** [ArgumentParser.parse_args] *)
Definition parse_args (self : obj X) (args : list str) : outcome (obj X) :=
  match args with
  | [] => SystemExit 2 shown_help
  | _ =>
      self' <- loop (set_parsing_borg_args false self) false args ;;
      match archives self' with
      | [] => UsageError (py "at least one archive path is required")
      | _ => Return self'
      end
  end.

End Base.

End ArgumentParser.

(** [os.path.basename(p)]: what follows the last slash. *)
Definition basename (p : str) : str := last (split "/" p) [].

(** [ArgumentParser.__init__]: the fields before [parse_args] runs.  [args]
    is the whole [argv]; [x] holds what the subclass set before calling
    [super().__init__]. *)
Definition init_obj {X} (os : OS) (default_name : str) (args : list str) (x : X)
  : ArgumentParser.obj X :=
  {| ArgumentParser.prog := match args with a0 :: _ => basename a0 | [] => default_name end;
     ArgumentParser.progress := isatty os;
     ArgumentParser.disks := empty_set str;
     ArgumentParser.exclude_source_devs := empty_set (option str);
     ArgumentParser.exclude_target_devs := empty_set (option str);
     ArgumentParser.archives := [];
     ArgumentParser.parsing_borg_args := false;
     ArgumentParser.sub := x |}.

Module MultiArgumentParser.

(** The fields the class adds. *)
Record fields := {
  command : option str;
  dir : option str
}.

Definition obj := ArgumentParser.obj fields.

Definition set_command (v : option str) (self : obj) : obj :=
  ArgumentParser.set_sub
    {| command := v; dir := dir (ArgumentParser.sub self) |} self.

Definition set_dir (v : option str) (self : obj) : obj :=
  ArgumentParser.set_sub
    {| command := command (ArgumentParser.sub self); dir := v |} self.

(** [arg.split("=")[1]] *)
Definition after_equals (arg : str) : option str := nth_error (split "=" arg) 1.

(** [MultiArgumentParser.parse_arg] *)
Definition parse_arg (os : OS) (self : obj) (arg : str) (lookahead : option str)
  : outcome (bool * obj) :=
  match command (ArgumentParser.sub self), dir (ArgumentParser.sub self) with
  | None, _ => Return (true, set_command (Some arg) self)
  | Some _, None => Return (true, set_dir (Some arg) self)
  | Some _, Some _ =>
      if ArgumentParser.one_of arg ["-c"; "--borg-cmd"]%string
      then Return (true, set_command None self)
      else if startswith arg (py "-c")
      then Return (true, set_command (Some (skipn 2 arg)) self)
      else if startswith arg (py "--borg-cmd=")
      then Return (true, set_command (after_equals arg) self)
      else if ArgumentParser.one_of arg ["-l"; "--path"]%string
      then Return (true, set_dir None self)
      else if startswith arg (py "-l")
      then Return (true, set_dir (Some (skipn 2 arg)) self)
      else if startswith arg (py "--path=")
      then Return (true, set_dir (after_equals arg) self)
      else
        r <- ArgumentParser.parse_arg os self arg false lookahead ;;
        if fst r then Return (true, snd r) else Return (false, snd r)
  end.

(** [MultiArgumentParser.parse_args] *)
Definition parse_args (os : OS) (self : obj) (args : list str) : outcome obj :=
  self' <- ArgumentParser.parse_args (parse_arg os) self args ;;
  match command (ArgumentParser.sub self') with
  | None => UsageError (py "--borg-args must precede a borg subcommand")
  | Some _ =>
      match ArgumentParser.archives self' with
      | [] => UsageError (py "the following arguments are required: archive")
      | _ => Return self'
      end
  end.

(** [MultiArgumentParser(args=args)] *)
Definition __init__ (os : OS) (args : list str) : outcome obj :=
  parse_args os
    (init_obj os (py "borg-multi") args
       {| command := Some (py "create"); dir := Some (py ".") |})
    (tl args).

End MultiArgumentParser.

Module BVMArgumentParser.

(** The field the class adds. *)
Record fields := {
  domain : option str
}.

Definition obj := ArgumentParser.obj fields.

Definition set_domain (v : option str) (self : obj) : obj :=
  ArgumentParser.set_sub {| domain := v |} self.

(** [BVMArgumentParser.parse_arg] *)
Definition parse_arg (os : OS) (self : obj) (arg : str) (lookahead : option str)
  : outcome (bool * obj) :=
  r <- ArgumentParser.parse_arg os self arg true lookahead ;;
  let self' := snd r in
  if negb (fst r) then
    match domain (ArgumentParser.sub self') with
    | None => Return (true, set_domain (Some arg) self')
    | Some _ =>
        Return (true, ArgumentParser.set_disks
                        (set_add str_dec arg (ArgumentParser.disks self')) self')
    end
  else Return (true, self').

(** [BVMArgumentParser.parse_args] *)
Definition parse_args (os : OS) (self : obj) (args : list str) : outcome obj :=
  self' <- ArgumentParser.parse_args (parse_arg os) self args ;;
  match domain (ArgumentParser.sub self'), ArgumentParser.archives self' with
  | Some _, _ :: _ => Return self'
  | _, _ => UsageError (py "the following arguments are required: domain, archive")
  end.

(** [BVMArgumentParser(args=args)] *)
Definition __init__ (os : OS) (args : list str) : outcome obj :=
  parse_args os (init_obj os (py "backup-vm") args {| domain := None |}) (tl args).

End BVMArgumentParser.

(** The base machine on its own: the class of a subclass that overrides
    nothing but [help]. *)
Module BaseParser.

Definition obj := ArgumentParser.obj unit.

Definition parse_arg (os : OS) (self : obj) (arg : str) (lookahead : option str)
  : outcome (bool * obj) :=
  ArgumentParser.parse_arg os self arg true lookahead.

Definition parse_args (os : OS) (self : obj) (args : list str) : outcome obj :=
  ArgumentParser.parse_args (parse_arg os) self args.

Definition __init__ (os : OS) (args : list str) : outcome obj :=
  parse_args os (init_obj os (py "backup-vm") args tt) (tl args).

End BaseParser.

(** ** Objects

    A [Location] instance lives at an address; [id(obj)] tells two instances
    apart even when every field agrees. *)
Record object := {
  id : nat;
  value : Location
}.

(** The class defines no [__eq__], so [a == b] is [object.__eq__]:
    identity. *)
Definition __eq__ (a b : object) : bool := Nat.eqb (id a) (id b).

(** [Location.__hash__]: [hash(str(self))], for the built-in [hash] on
    strings. *)
Definition __hash__ (hash : str -> Z) (self : object) : result Z :=
  match __str__ (value self) with
  | Ok s => Ok (hash s)
  | Raise e => Raise e
  end.

(** ** The step at which a failing resolution stops

    [Location.parse] has three [return False] statements; the specification
    names the situations. *)
Inductive error_kind :=
| NoGrammarMatch
| InvalidLocation
| MissingDefaultRepo
| InvalidDefaultRepo.

Definition failing_step (BORG_REPO : option str) (text : str) : option error_kind :=
  if fst (_parse text new_Location) then None
  else match re_match env_re text with
       | None => Some InvalidLocation
       | Some _ =>
           match BORG_REPO with
           | None => Some MissingDefaultRepo
           | Some repo =>
               if fst (_parse repo new_Location) then None
               else Some InvalidDefaultRepo
           end
       end.

(** A process for the examples: no default repository, working directory
    [/home/x], output not a terminal. *)
Definition os_plain : OS :=
  {| BORG_REPO := None; getcwd := py "/home/x"; isatty := false |}.

(** ** Notions used in the statements and the proofs *)

(** The fields [_parse] stores from a match of each grammar. *)
Definition from_ssh (m : groups) (self : Location) : Location :=
  set_archive (m_archive m)
    (set_path (norm_path_group m)
       (set_port (port_of (m_port m))
          (set_host (m_host m) (set_user (m_user m) (set_proto (m_proto m) self))))).

Definition from_file (m : groups) (self : Location) : Location :=
  set_archive (m_archive m) (set_path (norm_path_group m) (set_proto (m_proto m) self)).

Definition from_scp (m : groups) (self : Location) : Location :=
  set_proto (Some (proto_of_host (m_host m)))
    (set_archive (m_archive m)
       (set_path (norm_path_group m) (set_host (m_host m) (set_user (m_user m) self)))).

(** A machine that has accepted ["/r::a"] and then read ["--borg-args"]. *)
Definition collecting_example : BaseParser.obj :=
  {| ArgumentParser.prog := py "backup-vm";
     ArgumentParser.progress := false;
     ArgumentParser.disks := [];
     ArgumentParser.exclude_source_devs := [];
     ArgumentParser.exclude_target_devs := [];
     ArgumentParser.archives :=
       [ {| orig := py "/r::a"; extra_args := []; proto := Some (py "file");
            user := None; _host := None; port := None;
            path := Some (py "/r"); archive := Some (py "a") |} ];
     ArgumentParser.parsing_borg_args := true;
     ArgumentParser.sub := tt |}.

(** [x == "--borg-args"] *)
Definition is_marker (x : str) : bool := eqb_str x (py "--borg-args").

(** [x in {"-h", "--help"}] *)
Definition is_help (x : str) : bool := ArgumentParser.one_of x ["-h"; "--help"]%string.

(** What the loop of [parse_args] hands to [parse_arg] for one token: when
    the token starts with one dash and holds no ["="], a flag ["-c"] for
    each character [c] behind the dash (none for the token ["-"]), and the
    token itself otherwise. *)
Definition pieces (arg : str) : list str :=
  if startswith arg (py "-") && negb (startswith arg (py "--"))
     && negb (contains "=" arg)
  then map (fun c => py "-" ++ [c]) (tl arg)
  else [arg].

(** The base [parse_arg] accepts [x] as a location: the test of lines
    241-242, or that of lines 251-252 on a token that is not the marker. *)
Definition new_location (os : OS) (needs_archive : bool) (lookahead : option str)
    (x : str) : bool :=
  let l := try_location (BORG_REPO os) x in
  (needs_archive && ArgumentParser.usable l && ArgumentParser.has_archive l)
  || (negb (is_marker x) && negb needs_archive
      && match lookahead with
         | Some la => eqb_str la (py "--borg-args")
         | None => false
         end
      && ArgumentParser.usable l).

(** The tokens [args] hand over no help flag and nothing that is accepted
    as a location; the lookahead of a token is the token behind it. *)
Fixpoint captured_only (os : OS) (needs_archive : bool) (args : list str) : bool :=
  match args with
  | [] => true
  | arg :: rest =>
      forallb (fun x => negb (is_help x)
                        && negb (new_location os needs_archive (hd_error rest) x))
        (pieces arg)
      && captured_only os needs_archive rest
  end.

(** What a collecting machine stores of what it is handed: everything but
    the marker. *)
Definition stored (xs : list str) : list str :=
  filter (fun x => negb (is_marker x)) xs.

Definition marker_message : str := py "--borg-args must come after an archive path".

(** An outcome whose only possible usage error is the misplaced marker. *)
Definition marker_error_only {A} (o : outcome A) : Prop :=
  match o with
  | UsageError msg => msg = marker_message
  | _ => True
  end.

(** [single body ok]: [body] consumes exactly one character [c], and does
    so when [ok c rest] holds of it and of the text after it. *)
Definition single (body : regex) (ok : ascii -> str -> bool) : Prop :=
  forall s m k,
    exec body s m k =
    match s with
    | [] => None
    | c :: s' => if ok c s' then k s' m else None
    end.

(** The greedy search of [body*]: go on while characters are accepted, then
    try what follows at the longest position first. *)
Fixpoint greedy (ok : ascii -> str -> bool) (k : cont) (s : str) (m : groups)
  : option groups :=
  match s with
  | [] => k [] m
  | c :: s' =>
      if ok c s'
      then match greedy ok k s' m with
           | Some x => Some x
           | None => k s m
           end
      else k s m
  end.

(** A character of a path: anything but a colon, or a colon that is not
    followed by another. *)
Definition path_ok (c : ascii) (rest : str) : bool :=
  none_of ":" c || negb (startswith rest (py ":")).

(** The characters of [s] up to the first one that [greedy] refuses. *)
Fixpoint run (ok : ascii -> str -> bool) (s : str) : nat :=
  match s with
  | [] => 0
  | c :: s' => if ok c s' then S (run ok s') else 0
  end.

(** A class as a one-character pattern that ignores what follows. *)
Definition cls (p : ascii -> bool) : ascii -> str -> bool := fun c _ => p c.

(** Every character of [s] is acceptable to [path_char] inside [s]. *)
Definition colons_ok (s : str) : Prop := run path_ok s = length s.

Definition noslash (c : str) : Prop := contains "/" c = false.

(** A component [normpath] keeps in an absolute path. *)
Definition clean (c : str) : Prop :=
  c <> [] /\ noslash c /\ c <> os_path.dot /\ c <> os_path.dotdot.

Definition final : cont := fun _ m => Some m.

(** The character classes of the user, host and archive groups. *)
Definition user_char : ascii -> bool := none_of "@:/".

Definition host_char : ascii -> bool := none_of ":/".

Definition archive_char : ascii -> bool := none_of "/".

(** What follows the host in [ssh_re] and in [scp_re]. *)
Definition after_archive : cont := fun s m => exec optional_archive_re s m final.

Definition after_abs_path : cont := fun s m => exec abs_path_re s m after_archive.

Definition after_ssh_host : cont :=
  fun s m =>
    exec (Opt (Seq (lit ":") (Group g_port (Plus (Chr digit))))) s m after_abs_path.

Definition after_scp_prefix : cont := fun s m => exec scp_path_re s m after_archive.

Definition after_scp_host : cont := fun s m => exec (lit ":") s m after_scp_prefix.

(** [user_at s]: [s] starts with a non-empty run of user characters that an
    ["@"] follows. *)
Definition user_at (s : str) : bool :=
  (0 <? run (cls user_char) s)
  && startswith (skipn (run (cls user_char) s) s) (py "@").

(** [\[[0-9a-fA-F:.]+\]] *)
Definition bracket_host : regex :=
  Seq (lit "[") (Seq (Plus (Chr hex_colon_dot)) (lit "]")).

Definition add_group (g : gname) (v : option str) (m : groups) : groups :=
  match v with
  | Some d => set_group g d m
  | None => m
  end.

(** [user_free h]: when [h] starts like a user name and an ["@"], nothing
    follows the ["@"]. *)
Definition user_free (h : str) : Prop :=
  user_at h = true -> skipn (S (run (cls user_char) h)) h = [].

(** [s.endswith(suffix)] *)
Definition endswith (s suffix : str) : bool := startswith (rev s) (rev suffix).

(** The text after the path: nothing or an archive suffix. *)
Definition archive_suffix (ao : option str) : str :=
  match ao with
  | Some a => py "::" ++ a
  | None => []
  end.

Definition archive_ok (p : str) (ao : option str) : Prop :=
  match ao with
  | Some a => a <> [] /\ forallb archive_char a = true /\ endswith p (py ":") = false
  | None => True
  end.

(** What [__str__] renders for an [ssh] location without a port. *)
Definition rendered (uo : option str) (h p : str) (ao : option str) : str :=
  match uo with Some u => u ++ py "@" | None => [] end
  ++ h ++ py ":" ++ p ++ archive_suffix ao.

Definition user_ok (uo : option str) (h : str) : Prop :=
  match uo with
  | Some u => u <> [] /\ forallb user_char u = true
  | None => user_free h
  end.

(** ["::" in s] *)
Fixpoint double_colon (s : str) : bool :=
  match s with
  | [] => false
  | c :: s' => (Ascii.eqb c ":" && startswith s' (py ":")) || double_colon s'
  end.

(** A host in brackets: [\[[0-9a-fA-F:.]+\]]. *)
Definition bracketed (h : str) : Prop :=
  exists y, h = "["%char :: y ++ ["]"%char]
            /\ y <> [] /\ forallb hex_colon_dot y = true.

(** The locations whose canonical string reads back: no port, a host
    that holds no colon or holds two colons in a row, a path that does not
    start with two slashes and, when an archive is named, does not end with
    a colon. *)
Definition reads_back (l : Location) : bool :=
  match port l with None => true | Some _ => false end
  && match _host l with
     | Some h => negb (contains ":" h) || double_colon h
     | None => false
     end
  && match path l with
     | Some p =>
         negb (startswith p (py "//"))
         && match archive l with
            | Some _ => negb (endswith p (py ":"))
            | None => true
            end
     | None => false
     end.

(** [pattern.match(text)] is not [None]. *)
Definition accepts (r : regex) (text : str) : bool :=
  match re_match r text with
  | Some _ => true
  | None => false
  end.

(** Resolve, render, resolve again. *)
Definition round_trip (repo : option str) (text : str)
  : option (Location * str * Location) :=
  match __init__ repo text with
  | Ok l1 =>
      match __str__ l1 with
      | Ok s =>
          match __init__ repo s with
          | Ok l2 => Some (l1, s, l2)
          | Raise _ => None
          end
      | Raise _ => None
      end
  | Raise _ => None
  end.

(** Equality of the six fields a grammar fills. *)
Definition same_location (a b : Location) : Prop :=
  proto a = proto b /\ user a = user b /\ _host a = _host b
  /\ port a = port b /\ path a = path b /\ archive a = archive b.

(** ** Notions used in the further properties *)

Definition gname_eqb (a b : gname) : bool :=
  match a, b with
  | g_proto, g_proto | g_user, g_user | g_host, g_host
  | g_port, g_port | g_path, g_path | g_archive, g_archive => true
  | _, _ => false
  end.

(** [sets r g]: the pattern [r] holds a group named [g]. *)
Fixpoint sets (r : regex) (g : gname) : bool :=
  match r with
  | Chr _ | Eps | Eos => false
  | Seq r1 r2 | Alt r1 r2 => sets r1 g || sets r2 g
  | Star r1 | NegLook r1 => sets r1 g
  | Group g' r1 => gname_eqb g' g || sets r1 g
  end.

(** What a name holds when it is present. *)
Definition when_some (P : str -> Prop) (o : option str) : Prop :=
  match o with
  | Some v => P v
  | None => True
  end.

(** An archive name: not empty, no slash. *)
Definition archive_name (a : str) : Prop := a <> [] /\ contains "/" a = false.

(** What every location the constructor returns satisfies. *)
Definition well_formed (l : Location) : Prop :=
  (exists p, path l = Some p /\ p <> [] /\ normpath_special p = p)
  /\ ((proto l = Some (py "ssh") /\ exists h, _host l = Some h /\ h <> [])
      \/ (proto l = Some (py "file") /\ _host l = None /\ user l = None
          /\ port l = None))
  /\ when_some (fun u => u <> []) (user l)
  /\ when_some archive_name (archive l)
  /\ match port l with Some n => (0 < n)%Z | None => True end.

(** The [file] locations whose canonical string reads back: an absolute
    path that does not start with two slashes and, when an archive is
    named, does not end with a colon. *)
Definition file_reads_back (l : Location) : bool :=
  match path l with
  | Some p =>
      os_path.isabs p && negb (startswith p (py "//"))
      && match archive l with
         | Some _ => negb (endswith p (py ":"))
         | None => true
         end
  | None => false
  end.

(** An outcome that is no escaping exception and whose returned value, when
    there is one, satisfies [I]. *)
Definition holds {A} (I : A -> Prop) (o : outcome A) : Prop :=
  match o with
  | Return a => I a
  | Uncaught _ => False
  | _ => True
  end.

(** What one call of the base [parse_arg] on the token [arg] may do to
    [archives]: nothing, append the canonicalised location of [arg], or add
    [arg] to the extra arguments of the last location. *)
Definition archives_step (os : OS) (arg : str) (needs_archive : bool)
    (lookahead : option str) (before after : list Location) : Prop :=
  after = before
  \/ (exists l l',
         try_location (BORG_REPO os) arg = Some l
         /\ canonicalize_path (getcwd os) None l = Ok l'
         /\ after = before ++ [l']
         /\ if needs_archive then archive l <> None
            else lookahead = Some (py "--borg-args"))
  \/ (exists init l,
         before = init ++ [l]
         /\ after = init ++ [set_extra_args (extra_args l ++ [arg]) l]).

(** [parsing_borg_args] is set only while a location has been accepted. *)
Definition collecting_has_location {X} (self : ArgumentParser.obj X) : Prop :=
  ArgumentParser.parsing_borg_args self = true -> ArgumentParser.archives self <> [].

(** ** Disks

    [xml.etree.ElementTree]: an element has a tag, attributes (a dict, in
    document order) and children.  A path of tag names separated by
    slashes, the only kind used here, selects step by step the children
    with that tag, in document order; [find] gives the first element
    [findall] gives. *)
Module ElementTree.

#[local] Unset Elimination Schemes.
Inductive Element := mkElement {
  tag : str;
  attrib : list (str * str);
  children : list Element
}.
#[local] Set Elimination Schemes.

(** [d.get(key)] *)
Definition get (d : list (str * str)) (key : str) : option str :=
  option_map snd (List.find (fun kv => eqb_str (fst kv) key) d).

Fixpoint select (steps : list str) (e : Element) : list Element :=
  match steps with
  | [] => [e]
  | t :: steps' =>
      flat_map (select steps') (filter (fun c => eqb_str (tag c) t) (children e))
  end.

(** [e.findall(path)] *)
Definition findall (path : str) (e : Element) : list Element :=
  select (split "/" path) e.

(** [e.find(path)] *)
Definition find (path : str) (e : Element) : option Element :=
  hd_error (findall path e).

End ElementTree.

Module Disk.
Import ElementTree.

(** What the constructor can raise: [None.get] when there is no
    [<target>], and [next] on the items of an empty [attrib]. *)
Inductive exn := AttributeError | StopIteration.

Inductive result (A : Type) :=
| Ok (a : A)
| Raise (e : exn).
Arguments Ok {A} a.
Arguments Raise {A} e.

Record t := {
  xml : Element;
  target : option str;
  type : option str;
  path : option str;
  format : str
}.

(** [Disk.__init__] *)
Definition __init__ (xml : Element) : result t :=
  match find (py "target") xml with
  | None => Raise AttributeError
  | Some tgt =>
      let target := get (attrib tgt) (py "dev") in
      match
        match find (py "source") xml with
        | Some src =>
            match attrib src with
            | (k, v) :: _ => Ok (Some k, Some v)
            | [] => Raise StopIteration
            end
        | None => Ok (None, None)
        end
      with
      | Raise e => Raise e
      | Ok (type, path) =>
          let format :=
            match find (py "driver") xml with
            | Some drv =>
                match get (attrib drv) (py "type") with
                | Some f => f
                | None => py "unknown"
                end
            | None => py "unknown"
            end in
          Ok {| xml := xml; target := target; type := type; path := path;
                format := format |}
      end
  end.

(** [{d for d in map(cls, elements) if d.type is not None}]: the loop of
    the comprehension asks [map] for one disk after the other.  A
    [StopIteration] that leaves [Disk.__init__] (a [<source>] without an
    attribute) leaves [map.__next__] with it, and the loop takes it for the
    end of the elements: the disks built so far are kept and the elements
    behind are never looked at.  An [AttributeError] escapes. *)
Fixpoint construct (es : list Element) : result (list t) :=
  match es with
  | [] => Ok []
  | e :: es' =>
      match __init__ e with
      | Raise StopIteration => Ok []
      | Raise AttributeError => Raise AttributeError
      | Ok d =>
          match construct es' with
          | Raise x => Raise x
          | Ok ds => Ok (d :: ds)
          end
      end
  end.

(** [Disk.get_disks], from the parsed description [tree] of the domain on:
    the disks it yields.  They come out of a set of objects without
    [__eq__], so none is dropped as a duplicate and their order is not
    fixed; the list has them in document order. *)
Definition get_disks (tree : Element) : result (list t) :=
  match construct (findall (py "devices/disk") tree) with
  | Raise x => Raise x
  | Ok ds =>
      Ok (filter (fun d => match type d with Some _ => true | None => false end) ds)
  end.

End Disk.

(** [xml.find("source") is not None] *)
Definition has_source (e : ElementTree.Element) : bool :=
  match ElementTree.find (py "source") e with Some _ => true | None => false end.

(** [xml.find("target") is not None] *)
Definition has_target (e : ElementTree.Element) : bool :=
  match ElementTree.find (py "target") e with Some _ => true | None => false end.

(** The disk elements at which the comprehension stops: a [<target>]
    child, and a first [<source>] child without an attribute. *)
Definition ends_iteration (e : ElementTree.Element) : bool :=
  has_target e
  && match ElementTree.find (py "source") e with
     | Some src => match ElementTree.attrib src with [] => true | _ :: _ => false end
     | None => false
     end.

(** The elements before the first one at which the comprehension stops. *)
Fixpoint reached (es : list ElementTree.Element) : list ElementTree.Element :=
  match es with
  | [] => []
  | e :: es' => if ends_iteration e then [] else e :: reached es'
  end.

(** * Properties *)

(** ** Basic facts about strings *)

Lemma eqb_str_spec (a b : str) : eqb_str a b = true <-> a = b.
Proof.
  revert b; induction a as [|x a IH]; intros [|y b]; simpl;
    try (split; [reflexivity || discriminate | reflexivity || discriminate]).
  rewrite andb_true_iff, Ascii.eqb_eq, IH. split.
  - intros [-> ->]; reflexivity.
  - intros E; inversion E; auto.
Qed.

Lemma eqb_str_refl (a : str) : eqb_str a a = true.
Proof. apply eqb_str_spec; reflexivity. Qed.

Lemma eqb_str_neq (a b : str) : eqb_str a b = false <-> a <> b.
Proof.
  rewrite <- eqb_str_spec. destruct (eqb_str a b); split; congruence.
Qed.

(** ** [_parse] and [parse] *)

(** A [_parse] that reports failure has not touched the object. *)
Lemma _parse_false_unchanged (text : str) (self : Location) :
  fst (_parse text self) = false -> snd (_parse text self) = self.
Proof.
  unfold _parse.
  destruct (re_match ssh_re text); [discriminate|].
  destruct (re_match file_re text); [discriminate|].
  destruct (re_match scp_re text); [discriminate|].
  reflexivity.
Qed.

(** Whether [_parse] succeeds does not depend on the object it fills. *)
Lemma _parse_fst_self (text : str) (self self' : Location) :
  fst (_parse text self) = fst (_parse text self').
Proof.
  unfold _parse.
  destruct (re_match ssh_re text); [reflexivity|].
  destruct (re_match file_re text); [reflexivity|].
  destruct (re_match scp_re text); reflexivity.
Qed.

(** ** Grammar precedence *)

Lemma _parse_ssh (text : str) (m : groups) (self : Location) :
  re_match ssh_re text = Some m -> _parse text self = (true, from_ssh m self).
Proof. intros H; unfold _parse; rewrite H; reflexivity. Qed.

Lemma _parse_file (text : str) (m : groups) (self : Location) :
  re_match ssh_re text = None -> re_match file_re text = Some m ->
  _parse text self = (true, from_file m self).
Proof. intros H1 H2; unfold _parse; rewrite H1, H2; reflexivity. Qed.

Lemma _parse_scp (text : str) (m : groups) (self : Location) :
  re_match ssh_re text = None -> re_match file_re text = None ->
  re_match scp_re text = Some m ->
  _parse text self = (true, from_scp m self).
Proof. intros H1 H2 H3; unfold _parse; rewrite H1, H2, H3; reflexivity. Qed.

Lemma _parse_none (text : str) (self : Location) :
  re_match ssh_re text = None -> re_match file_re text = None ->
  re_match scp_re text = None ->
  _parse text self = (false, self).
Proof. intros H1 H2 H3; unfold _parse; rewrite H1, H2, H3; reflexivity. Qed.

(** C6.  [_parse] tries the SSH-URI grammar, then the file-URI grammar, then
    the scp shorthand, and stores the fields of the first that matches the
    input; a later grammar is consulted only when every earlier one failed.
    ["ssh://user@host/path::arc"] is read by the SSH grammar (the scp
    shorthand does not even match it), and ["file://x/y"], which the scp
    shorthand would read as the path ["file:/x/y"], is read by the file
    grammar. *)
Theorem grammar_precedence :
  (forall text self,
      _parse text self =
      match re_match ssh_re text, re_match file_re text, re_match scp_re text with
      | Some m, _, _ => (true, from_ssh m self)
      | None, Some m, _ => (true, from_file m self)
      | None, None, Some m => (true, from_scp m self)
      | None, None, None => (false, self)
      end)
  /\ _parse (py "ssh://user@host/path::arc") new_Location
     = (true, {| orig := []; extra_args := [];
                 proto := Some (py "ssh"); user := Some (py "user");
                 _host := Some (py "host"); port := None;
                 path := Some (py "/path"); archive := Some (py "arc") |})
  /\ re_match scp_re (py "ssh://user@host/path::arc") = None
  /\ option_map m_path (re_match scp_re (py "file://x/y")) = Some (Some (py "file://x/y"))
  /\ _parse (py "file://x/y") new_Location
     = (true, {| orig := []; extra_args := [];
                 proto := Some (py "file"); user := None; _host := None;
                 port := None; path := Some (py "x/y"); archive := None |}).
Proof.
  split; [|repeat split; vm_compute; reflexivity].
  intros text self.
  destruct (re_match ssh_re text) as [m|] eqn:E1.
  { apply _parse_ssh; assumption. }
  destruct (re_match file_re text) as [m|] eqn:E2.
  { apply _parse_file; assumption. }
  destruct (re_match scp_re text) as [m|] eqn:E3.
  { apply _parse_scp; assumption. }
  apply _parse_none; assumption.
Qed.

(** ** The default repository *)

Lemma parse_archive_only (repo : option str) (text : str) (m : groups)
    (self : Location) :
  fst (_parse text self) = false ->
  re_match env_re text = Some m ->
  parse repo text self =
  match repo with
  | None => (false, self)
  | Some r =>
      if fst (_parse r self)
      then (true, set_archive (m_archive m) (snd (_parse r self)))
      else (false, self)
  end.
Proof.
  intros Hf Hm. unfold parse.
  pose proof (_parse_false_unchanged text self Hf) as Hs.
  destruct (_parse text self) as [v s1]; simpl in *; subst.
  rewrite Hm. destruct repo as [r|]; [|reflexivity].
  pose proof (_parse_false_unchanged r self) as Hr.
  destruct (_parse r self) as [v2 s2]; simpl in *.
  destruct v2; simpl; [reflexivity|]. rewrite Hr; reflexivity.
Qed.

(** C4.  ["::nightly"] with the default repository ["/srv/repo"] resolves to
    the file location [/srv/repo] with archive [nightly], and fails when
    the variable is unset.  For every input that only the archive-only
    pattern matches, the result is the default repository parsed by
    [_parse] alone (so a default repository that is itself archive-only
    fails), with its archive replaced by the one captured from the input,
    absent included. *)
Theorem default_repo_fallback :
  (forall repo text m self,
      fst (_parse text self) = false ->
      re_match env_re text = Some m ->
      parse repo text self =
      match repo with
      | None => (false, self)
      | Some r =>
          if fst (_parse r self)
          then (true, set_archive (m_archive m) (snd (_parse r self)))
          else (false, self)
      end)
  /\ __init__ (Some (py "/srv/repo")) (py "::nightly")
     = Ok {| orig := py "::nightly"; extra_args := [];
             proto := Some (py "file"); user := None; _host := None;
             port := None; path := Some (py "/srv/repo");
             archive := Some (py "nightly") |}
  /\ __init__ None (py "::nightly")
     = Raise (ValueError (py "Location: parse failed: ::nightly"))
  /\ __init__ (Some (py "/srv/repo::old")) (py "::")
     = Ok {| orig := py "::"; extra_args := [];
             proto := Some (py "file"); user := None; _host := None;
             port := None; path := Some (py "/srv/repo"); archive := None |}
  /\ __init__ (Some (py "::old")) (py "::nightly")
     = Raise (ValueError (py "Location: parse failed: ::nightly")).
Proof.
  split; [|repeat split; vm_compute; reflexivity].
  intros; apply parse_archive_only; assumption.
Qed.

(** A concrete use of the general rule: the input ["::"] clears the archive
    the default repository names. *)
Lemma default_repo_fallback_witness :
  fst (_parse (py "::") new_Location) = false
  /\ re_match env_re (py "::") = Some no_groups
  /\ parse (Some (py "/srv/repo::old")) (py "::") new_Location
     = (true, {| orig := []; extra_args := [];
                 proto := Some (py "file"); user := None; _host := None;
                 port := None; path := Some (py "/srv/repo"); archive := None |}).
Proof.
  split; [reflexivity|]. split; [reflexivity|].
  rewrite (proj1 default_repo_fallback (Some (py "/srv/repo::old")) (py "::")
             no_groups new_Location); reflexivity.
Defined.

(** ** Failure of a resolution *)

Lemma parse_fst_failing_step (repo : option str) (text : str) (self : Location) :
  fst (parse repo text self) =
  match failing_step repo text with Some _ => false | None => true end.
Proof.
  unfold parse, failing_step.
  rewrite (_parse_fst_self text new_Location self).
  pose proof (_parse_false_unchanged text self) as Hs.
  destruct (_parse text self) as [v s1]; simpl in *.
  destruct v; [reflexivity|].
  destruct (re_match env_re text); [|reflexivity].
  destruct repo as [r|]; [|reflexivity].
  rewrite (_parse_fst_self r new_Location s1).
  destruct (_parse r s1) as [v2 s2]; simpl. destruct v2; reflexivity.
Qed.

Lemma parse_orig (repo : option str) (text : str) (self : Location) :
  orig (snd (parse repo text self)) = orig self.
Proof.
  assert (P : forall t s, orig (snd (_parse t s)) = orig s).
  { intros t s. unfold _parse.
    destruct (re_match ssh_re t); [reflexivity|].
    destruct (re_match file_re t); [reflexivity|].
    destruct (re_match scp_re t); reflexivity. }
  unfold parse. pose proof (P text self) as H1.
  destruct (_parse text self) as [v s1]; simpl in *.
  destruct v; [assumption|].
  destruct (re_match env_re text); [|assumption].
  destruct repo as [r|]; [|assumption].
  pose proof (P r s1) as H2.
  destruct (_parse r s1) as [v2 s2]; simpl in *.
  destruct v2; simpl; congruence.
Qed.

(** C5 fails as stated: with the same input ["::x"], a missing default
    repository and a default repository that fails the grammar are two
    different failing steps, and the constructor raises the very same
    exception for both. *)
Lemma error_kinds_counterexample :
  failing_step None (py "::x") = Some MissingDefaultRepo
  /\ failing_step (Some (py "::bad")) (py "::x") = Some InvalidDefaultRepo
  /\ __init__ None (py "::x") = __init__ (Some (py "::bad")) (py "::x").
Proof. repeat split; vm_compute; reflexivity. Qed.

(** C5, amended.  Whatever the step at which a resolution stops, the
    constructor raises one and the same [ValueError], whose message holds
    the input text and nothing about the step, and [try_location] gives
    [None]; a resolution that stops at no step yields a location.  No
    failing input yields a location. *)
Theorem resolution_failure_is_one_error (repo : option str) (text : str) :
  match failing_step repo text with
  | Some _ =>
      __init__ repo text = Raise (ValueError (py "Location: parse failed: " ++ text))
      /\ try_location repo text = None
  | None => exists l, __init__ repo text = Ok l /\ try_location repo text = Some l
  end.
Proof.
  unfold try_location, __init__.
  pose proof (parse_fst_failing_step repo text
                (set_extra_args [] (set_orig text new_Location))) as Hf.
  pose proof (parse_orig repo text
                (set_extra_args [] (set_orig text new_Location))) as Ho.
  simpl orig in *.
  destruct (parse repo text (set_extra_args [] (set_orig text new_Location)))
    as [ok s1]; simpl in *.
  destruct (failing_step repo text); subst ok; simpl.
  - rewrite Ho; split; reflexivity.
  - exists s1; split; reflexivity.
Qed.

(** ** Canonicalisation *)

(** C2 fails as stated: the path ["/./sub/dir"] is absolute for
    [os.path.isabs], so [canonicalize_path] leaves it alone; it does not
    become ["/home/x/sub/dir"]. *)
Lemma canonicalize_marker_counterexample :
  exists l,
    __init__ None (py "/./sub/dir") = Ok l
    /\ path l = Some (py "/./sub/dir")
    /\ canonicalize_path (py "/") (Some (py "/home/x")) l = Ok l
    /\ path l <> Some (py "/home/x/sub/dir").
Proof.
  eexists. split; [vm_compute; reflexivity|].
  split; [reflexivity|]. split; [reflexivity|]. discriminate.
Qed.

(** C2, amended.  [canonicalize_path] rewrites the path exactly when the
    protocol is [file] and the path is not absolute (then the path becomes
    the normalised join of the working directory and the path), and returns
    the location unchanged otherwise.  ["/./sub/dir"] keeps its marker
    through parsing and, being absolute, is left unchanged, as is
    ["/sub/dir"]; the relative ["sub/dir"] becomes ["/home/x/sub/dir"]. *)
Theorem canonicalize_path_acts_on_relative_file_paths :
  (forall getcwd cwd l p,
      path l = Some p ->
      canonicalize_path getcwd cwd l =
      if match proto l with Some q => eqb_str q (py "file") | None => false end
         && negb (os_path.isabs p)
      then Ok (set_path
                 (Some (os_path.normpath
                          (os_path.join (match cwd with None => getcwd | Some c => c end) p)))
                 l)
      else Ok l)
  /\ (exists l,
         __init__ None (py "/./sub/dir") = Ok l
         /\ path l = Some (py "/./sub/dir")
         /\ canonicalize_path (py "/") (Some (py "/home/x")) l = Ok l)
  /\ (exists l,
         __init__ None (py "/sub/dir") = Ok l
         /\ path l = Some (py "/sub/dir")
         /\ canonicalize_path (py "/") (Some (py "/home/x")) l = Ok l)
  /\ (exists l l',
         __init__ None (py "sub/dir") = Ok l
         /\ canonicalize_path (py "/") (Some (py "/home/x")) l = Ok l'
         /\ path l' = Some (py "/home/x/sub/dir")).
Proof.
  split.
  { intros getcwd cwd l p Hp. unfold canonicalize_path. rewrite Hp.
    destruct (match proto l with Some q => eqb_str q (py "file") | None => false end);
      simpl; [|reflexivity].
    destruct (os_path.isabs p); reflexivity. }
  split; [eexists; split; [vm_compute; reflexivity|split; reflexivity]|].
  split; [eexists; split; [vm_compute; reflexivity|split; reflexivity]|].
  eexists; eexists. split; [vm_compute; reflexivity|].
  split; vm_compute; reflexivity.
Qed.

Lemma canonicalize_path_witness :
  canonicalize_path (py "/") (Some (py "/home/x"))
    {| orig := py "sub/dir"; extra_args := []; proto := Some (py "file");
       user := None; _host := None; port := None;
       path := Some (py "sub/dir"); archive := None |}
  = Ok {| orig := py "sub/dir"; extra_args := []; proto := Some (py "file");
          user := None; _host := None; port := None;
          path := Some (py "/home/x/sub/dir"); archive := None |}.
Proof.
  exact (proj1 canonicalize_path_acts_on_relative_file_paths
           (py "/") (Some (py "/home/x"))
           {| orig := py "sub/dir"; extra_args := []; proto := Some (py "file");
              user := None; _host := None; port := None;
              path := Some (py "sub/dir"); archive := None |}
           (py "sub/dir") eq_refl).
Defined.

(** ** Equality and hash *)

(** C8.  The hash of a location is the hash of its canonical string, but
    [==] is identity: two instances built from the same text have the same
    canonical string and the same hash, and are not equal. *)
Theorem equal_strings_unequal_locations (hash : str -> Z) :
  exists l,
    __init__ None (py "/backups/repo::daily1") = Ok l
    /\ let a := {| id := 1; value := l |} in
       let b := {| id := 2; value := l |} in
       __str__ (value a) = __str__ (value b)
       /\ __hash__ hash a = __hash__ hash b
       /\ __hash__ hash a = Ok (hash (py "/backups/repo::daily1"))
       /\ __eq__ a b = false.
Proof.
  eexists. split; [vm_compute; reflexivity|].
  repeat split.
Qed.

(** ** The argument state machine *)

Section Machine.
Import ArgumentParser.
Variable X : Type.
Variable os : OS.

Lemma accept_usable (l : option Location) (self : obj X) :
  usable l = true ->
  exists l', accept os l self
             = Return (true, set_archives (archives self ++ [l'])
                               (set_parsing_borg_args false self)).
Proof.
  unfold usable, accept, canonicalize_path.
  destruct l as [l|]; [|discriminate].
  destruct (path l) as [p|]; [|discriminate]. intros _.
  destruct (match proto l with Some q => eqb_str q (py "file") | None => false end);
    [destruct (negb (os_path.isabs p))|]; eexists; reflexivity.
Qed.

Lemma append_extra_arg_last (arg : str) (before : list Location) (l : Location) :
  append_extra_arg arg (before ++ [l])
  = Some (before ++ [set_extra_args (extra_args l ++ [arg]) l]).
Proof.
  unfold append_extra_arg. rewrite rev_app_distr; simpl.
  rewrite rev_involutive; reflexivity.
Qed.

(** One call of the base [parse_arg] while the machine collects (and has,
    as it then always has, an accepted location): what is not a help flag
    is recognised; what is accepted as a location is appended to
    [archives] and switches collecting off; the marker ["--borg-args"]
    changes nothing; anything else is appended to the [extra_args] of the
    last accepted location. *)
Lemma collecting_parse_arg
    (self : obj X) (arg : str) (needs_archive : bool) (lookahead : option str) :
  parsing_borg_args self = true ->
  archives self <> [] ->
  one_of arg ["-h"; "--help"]%string = false ->
  let l := try_location (BORG_REPO os) arg in
  let marker := eqb_str arg (py "--borg-args") in
  let new_location :=
    (needs_archive && usable l && has_archive l)
    || (negb marker && negb needs_archive
        && match lookahead with
           | Some la => eqb_str la (py "--borg-args")
           | None => false
           end
        && usable l) in
  exists self',
    parse_arg os self arg needs_archive lookahead = Return (true, self')
    /\ if new_location
       then parsing_borg_args self' = false
            /\ exists l', archives self' = archives self ++ [l']
       else parsing_borg_args self' = true
            /\ if marker
               then archives self' = archives self
               else exists before last,
                   archives self = before ++ [last]
                   /\ archives self'
                      = before ++ [set_extra_args (extra_args last ++ [arg]) last].
Proof.
  intros Hc Ha Hh l marker new_location.
  destruct (exists_last Ha) as [before [last Hl]].
  unfold parse_arg. rewrite Hh, Hc.
  replace (one_of arg ["-v"; "--version"]%string && negb true) with false
    by (rewrite andb_false_r; reflexivity).
  replace (one_of arg ["--exclude-source-dev"]%string && negb true) with false
    by (rewrite andb_false_r; reflexivity).
  replace (one_of arg ["--exclude-target-dev"]%string && negb true) with false
    by (rewrite andb_false_r; reflexivity).
  fold l. fold marker. subst new_location.
  destruct (needs_archive && usable l && has_archive l) eqn:E1.
  { assert (Hu : usable l = true).
    { destruct needs_archive; [|discriminate].
      destruct (usable l); [reflexivity|discriminate]. }
    destruct (accept_usable l self Hu) as [l' Hl']. rewrite Hl'.
    eexists; split; [reflexivity|]. rewrite orb_true_l.
    split; [reflexivity|]. exists l'; reflexivity. }
  rewrite orb_false_l. clearbody marker. destruct marker.
  { rewrite Hl. destruct (before ++ [last]) as [|a0 ar] eqn:Ea.
    - destruct before; discriminate.
    - eexists; split; [reflexivity|]. cbn [negb andb].
      split; [reflexivity|exact Hl]. }
  cbn [negb]. rewrite andb_true_l.
  destruct (negb needs_archive
            && match lookahead with
               | Some la => eqb_str la (py "--borg-args")
               | None => false
               end
            && usable l) eqn:E2.
  { assert (Hu : usable l = true).
    { destruct (usable l); [reflexivity|]. rewrite andb_false_r in E2; discriminate. }
    destruct (accept_usable l self Hu) as [l' Hl']. rewrite Hl'.
    eexists; split; [reflexivity|].
    split; [reflexivity|]. exists l'; reflexivity. }
  rewrite Hl, append_extra_arg_last.
  eexists; split; [reflexivity|]. split; [assumption|].
  exists before, last. split; [reflexivity|reflexivity].
Qed.

Variable self_parse_arg : obj X -> str -> option str -> outcome (bool * obj X).

(** C7.  A token that starts with ["--"], holds no ["="], is not
    ["--borg-args"] and arrives while the machine is not collecting is
    dispatched once with the next token as its lookahead, and the loop
    then goes on after that next token: the next token is never
    dispatched itself, whatever the dispatched token did with it. *)
Theorem double_dash_skips_next_token
    (self : obj X) (arg next : str) (rest : list str) :
  startswith arg (py "--") = true ->
  contains "=" arg = false ->
  eqb_str arg (py "--borg-args") = false ->
  parsing_borg_args self = false ->
  loop self_parse_arg self false (arg :: next :: rest)
  = (self' <- dispatch self_parse_arg self arg (Some next) ;;
     loop self_parse_arg self' false rest).
Proof.
  intros H1 H2 H3 H4.
  change (loop self_parse_arg self false (arg :: next :: rest))
    with (if startswith arg (py "-") && negb (startswith arg (py "--"))
             && negb (contains "=" arg)
          then self' <- short_flags self_parse_arg self (tl arg) (Some next) ;;
               loop self_parse_arg self' false (next :: rest)
          else if startswith arg (py "--") && negb (contains "=" arg)
                  && negb (eqb_str arg (py "--borg-args"))
                  && negb (parsing_borg_args self)
          then self' <- dispatch self_parse_arg self arg (Some next) ;;
               loop self_parse_arg self' true (next :: rest)
          else self' <- dispatch self_parse_arg self arg (Some next) ;;
               loop self_parse_arg self' false (next :: rest)).
  rewrite H1, H2, H3, H4. simpl. rewrite andb_false_r. simpl.
  reflexivity.
Qed.

End Machine.

(** *** The loop while the machine collects *)

Lemma set_extra_args_same (l : Location) : set_extra_args (extra_args l) l = l.
Proof. destruct l; reflexivity. Qed.

Lemma set_archives_same X (self : ArgumentParser.obj X) (ls : list Location) :
  ArgumentParser.archives self = ls -> ArgumentParser.set_archives ls self = self.
Proof. destruct self; cbn; intros <-; reflexivity. Qed.

Lemma set_parsing_borg_args_same X (self : ArgumentParser.obj X) (b : bool) :
  ArgumentParser.parsing_borg_args self = b ->
  ArgumentParser.set_parsing_borg_args b self = self.
Proof. destruct self; cbn; intros <-; reflexivity. Qed.

Lemma stored_cons (x : str) (xs : list str) : stored (x :: xs) = stored [x] ++ stored xs.
Proof. unfold stored. cbn [filter]. destruct (negb (is_marker x)); reflexivity. Qed.

Lemma stored_app (xs ys : list str) : stored (xs ++ ys) = stored xs ++ stored ys.
Proof. apply filter_app. Qed.

Section Collecting.
Import ArgumentParser.
Variable X : Type.
Variable os : OS.
Variable needs_archive : bool.

(** The method [parse_arg] of the class of [self]: while the machine
    collects it is the base method, as it is in the base machine itself
    and in the domain-backup parser. *)
Variable self_parse_arg : obj X -> str -> option str -> outcome (bool * obj X).

Hypothesis collecting_is_base : forall self arg la,
  parsing_borg_args self = true ->
  self_parse_arg self arg la = parse_arg os self arg needs_archive la.

(** The state after [xs] were stored. *)
Let storing (self : obj X) (before : list Location) (last : Location)
    (xs : list str) : obj X :=
  set_archives (before ++ [set_extra_args (extra_args last ++ stored xs) last]) self.

Lemma collecting_loop_step (self : obj X) (arg : str) (rest : list str) :
  parsing_borg_args self = true ->
  loop self_parse_arg self false (arg :: rest)
  = if startswith arg (py "-") && negb (startswith arg (py "--"))
       && negb (contains "=" arg)
    then s <- short_flags self_parse_arg self (tl arg) (hd_error rest) ;;
         loop self_parse_arg s false rest
    else s <- dispatch self_parse_arg self arg (hd_error rest) ;;
         loop self_parse_arg s false rest.
Proof.
  intros Hc.
  change (loop self_parse_arg self false (arg :: rest))
    with (if startswith arg (py "-") && negb (startswith arg (py "--"))
             && negb (contains "=" arg)
          then s <- short_flags self_parse_arg self (tl arg) (hd_error rest) ;;
               loop self_parse_arg s false rest
          else if startswith arg (py "--") && negb (contains "=" arg)
                  && negb (eqb_str arg (py "--borg-args"))
                  && negb (parsing_borg_args self)
          then s <- dispatch self_parse_arg self arg (hd_error rest) ;;
               loop self_parse_arg s true rest
          else s <- dispatch self_parse_arg self arg (hd_error rest) ;;
               loop self_parse_arg s false rest).
  rewrite Hc. cbn [negb]. rewrite andb_false_r. reflexivity.
Qed.

Lemma collecting_dispatch (self : obj X) (before : list Location) (last : Location)
    (x : str) (la : option str) :
  parsing_borg_args self = true ->
  archives self = before ++ [last] ->
  if is_help x
  then dispatch self_parse_arg self x la = SystemExit 0 shown_help
  else exists self',
      dispatch self_parse_arg self x la = Return self'
      /\ if new_location os needs_archive la x
         then parsing_borg_args self' = false
              /\ exists l', archives self' = archives self ++ [l']
         else self' = storing self before last [x].
Proof.
  intros Hc Ha. unfold dispatch. rewrite (collecting_is_base self x la Hc).
  unfold is_help, new_location, parse_arg.
  destruct (one_of x ["-h"; "--help"]%string); [reflexivity|].
  rewrite Hc.
  replace (one_of x ["-v"; "--version"]%string && negb true) with false
    by (rewrite andb_false_r; reflexivity).
  replace (one_of x ["--exclude-source-dev"]%string && negb true) with false
    by (rewrite andb_false_r; reflexivity).
  replace (one_of x ["--exclude-target-dev"]%string && negb true) with false
    by (rewrite andb_false_r; reflexivity).
  cbv zeta. set (l := try_location (BORG_REPO os) x).
  destruct (needs_archive && usable l && has_archive l) eqn:E1.
  { assert (Hu : usable l = true).
    { destruct needs_archive; [|discriminate].
      destruct (usable l); [reflexivity|discriminate]. }
    destruct (accept_usable os l self Hu) as [l' Hl']. rewrite Hl'.
    eexists; split; [reflexivity|]. rewrite orb_true_l.
    split; [reflexivity|]. exists l'; reflexivity. }
  rewrite orb_false_l. unfold is_marker, storing, stored. cbn [filter]. unfold is_marker.
  destruct (eqb_str x (py "--borg-args")).
  { assert (Hne : archives self <> [])
      by (rewrite Ha; destruct before; discriminate).
    destruct (archives self) as [|a0 ar] eqn:Ea; [congruence|].
    eexists; split; [reflexivity|]. cbn [negb andb fst snd bind].
    rewrite app_nil_r, set_extra_args_same, <- Ha, (set_archives_same self Ea).
    apply set_parsing_borg_args_same; assumption. }
  cbn [negb]. rewrite andb_true_l.
  destruct (negb needs_archive
            && match la with
               | Some la0 => eqb_str la0 (py "--borg-args")
               | None => false
               end
            && usable l) eqn:E2.
  { assert (Hu : usable l = true).
    { destruct (usable l); [reflexivity|]. rewrite andb_false_r in E2; discriminate. }
    destruct (accept_usable os l self Hu) as [l' Hl']. rewrite Hl'.
    eexists; split; [reflexivity|].
    split; [reflexivity|]. exists l'; reflexivity. }
  rewrite Ha, append_extra_arg_last.
  eexists; split; [reflexivity|]. reflexivity.
Qed.

Lemma storing_storing (self : obj X) (before : list Location) (last : Location)
    (xs ys : list str) :
  storing (storing self before last xs) before
    (set_extra_args (extra_args last ++ stored xs) last) ys
  = storing self before last (xs ++ ys).
Proof.
  unfold storing. cbn [extra_args set_extra_args].
  rewrite stored_app, app_assoc. reflexivity.
Qed.

Lemma collecting_quiet_dispatch (self : obj X) (before : list Location)
    (last : Location) (x : str) (la : option str) :
  parsing_borg_args self = true ->
  archives self = before ++ [last] ->
  negb (is_help x) && negb (new_location os needs_archive la x) = true ->
  dispatch self_parse_arg self x la = Return (storing self before last [x]).
Proof.
  intros Hc Ha Hq. apply andb_true_iff in Hq. destruct Hq as [Hh Hn].
  apply negb_true_iff in Hh, Hn.
  pose proof (collecting_dispatch self before last x la Hc Ha) as D.
  rewrite Hh in D. destruct D as [self' [D1 D2]]. rewrite Hn in D2.
  rewrite D1, D2. reflexivity.
Qed.

Lemma collecting_short_flags (cs : str) (self : obj X) (before : list Location)
    (last : Location) (la : option str) :
  parsing_borg_args self = true ->
  archives self = before ++ [last] ->
  forallb (fun x => negb (is_help x) && negb (new_location os needs_archive la x))
    (map (fun c => py "-" ++ [c]) cs) = true ->
  short_flags self_parse_arg self cs la
  = Return (storing self before last (map (fun c => py "-" ++ [c]) cs)).
Proof.
  revert self last; induction cs as [|c cs IH]; intros self last Hc Ha Hq.
  - cbn [short_flags map]. unfold storing, stored. cbn [filter].
    rewrite app_nil_r, set_extra_args_same, (set_archives_same self Ha). reflexivity.
  - cbn [map forallb] in Hq. apply andb_true_iff in Hq. destruct Hq as [Hq1 Hq2].
    cbn [short_flags map].
    rewrite (collecting_quiet_dispatch self before last _ la Hc Ha Hq1). cbn [bind].
    etransitivity.
    { apply (IH _ (set_extra_args (extra_args last ++ stored [py "-" ++ [c]]) last));
        [exact Hc|reflexivity|exact Hq2]. }
    rewrite storing_storing. reflexivity.
Qed.

Lemma collecting_stretch (args : list str) (self : obj X) (before : list Location)
    (last : Location) :
  parsing_borg_args self = true ->
  archives self = before ++ [last] ->
  captured_only os needs_archive args = true ->
  loop self_parse_arg self false args
  = Return (storing self before last (flat_map pieces args)).
Proof.
  revert self last; induction args as [|arg rest IH]; intros self last Hc Ha Hq.
  - cbn [loop flat_map]. unfold storing, stored. cbn [filter].
    rewrite app_nil_r, set_extra_args_same, (set_archives_same self Ha). reflexivity.
  - cbn [captured_only] in Hq. apply andb_true_iff in Hq. destruct Hq as [Hq1 Hq2].
    rewrite (collecting_loop_step self arg rest Hc). cbn [flat_map].
    unfold pieces in Hq1 |- * at 1.
    destruct (startswith arg (py "-") && negb (startswith arg (py "--"))
              && negb (contains "=" arg)).
    + rewrite (collecting_short_flags (tl arg) self before last (hd_error rest) Hc Ha Hq1).
      cbn [bind].
      etransitivity.
      { apply (IH _ (set_extra_args
                       (extra_args last
                        ++ stored (map (fun c => py "-" ++ [c]) (tl arg))) last));
          [exact Hc|reflexivity|exact Hq2]. }
      apply f_equal. apply storing_storing.
    + cbn [forallb] in Hq1. rewrite andb_true_r in Hq1.
      rewrite (collecting_quiet_dispatch self before last arg (hd_error rest) Hc Ha Hq1).
      cbn [bind].
      etransitivity.
      { apply (IH _ (set_extra_args (extra_args last ++ stored [arg]) last));
          [exact Hc|reflexivity|exact Hq2]. }
      apply f_equal. apply storing_storing.
Qed.

(** C3, amended.  While the machine collects (and has, as it then always
    has, an accepted location), the loop skips no token.  A token that
    starts with one dash and holds no ["="] is split into the flags
    ["-c"] of its characters, each handed over in turn (["-xy"] as ["-x"]
    and ["-y"], ["-"] as nothing); every other token is handed over
    whole.  What is handed over is never unrecognised: a help flag ends
    the run (so does ["-sh"], at its ["-h"]); what is accepted as a
    location is appended to [archives] and switches collecting off; the
    marker ["--borg-args"] changes nothing; anything else is appended to
    the [extra_args] of the last accepted location.  So over a run of
    tokens that hand over no help flag and nothing accepted as a
    location the machine stays collecting, changes nothing else, and
    stores all that was handed over but the markers, in order. *)
Theorem collecting_ends_at_next_location
    (self : obj X) (before : list Location) (last : Location) :
  parsing_borg_args self = true ->
  archives self = before ++ [last] ->
  (forall arg rest,
      loop self_parse_arg self false (arg :: rest)
      = if startswith arg (py "-") && negb (startswith arg (py "--"))
           && negb (contains "=" arg)
        then s <- short_flags self_parse_arg self (tl arg) (hd_error rest) ;;
             loop self_parse_arg s false rest
        else s <- dispatch self_parse_arg self arg (hd_error rest) ;;
             loop self_parse_arg s false rest)
  /\ (forall x la,
         if is_help x
         then dispatch self_parse_arg self x la = SystemExit 0 shown_help
         else exists self',
             dispatch self_parse_arg self x la = Return self'
             /\ if new_location os needs_archive la x
                then parsing_borg_args self' = false
                     /\ exists l', archives self' = archives self ++ [l']
                else parsing_borg_args self' = true
                     /\ self'
                        = set_archives
                            (before
                             ++ [set_extra_args (extra_args last ++ stored [x]) last])
                            self)
  /\ (forall args,
         captured_only os needs_archive args = true ->
         exists self',
           loop self_parse_arg self false args = Return self'
           /\ parsing_borg_args self' = true
           /\ self'
              = set_archives
                  (before
                   ++ [set_extra_args
                         (extra_args last ++ stored (flat_map pieces args)) last])
                  self).
Proof.
  intros Hc Ha. split; [|split].
  - intros arg rest. apply collecting_loop_step; assumption.
  - intros x la. pose proof (collecting_dispatch self before last x la Hc Ha) as D.
    destruct (is_help x); [exact D|].
    destruct D as [self' [D1 D2]]. exists self'. split; [exact D1|].
    destruct (new_location os needs_archive la x); [exact D2|].
    split; [|exact D2]. rewrite D2. exact Hc.
  - intros args Hq. eexists. split; [apply collecting_stretch; eassumption|].
    split; [exact Hc|reflexivity].
Qed.

End Collecting.

(** The domain-backup parser goes through the base method while it
    collects. *)
Lemma bvm_collecting_is_base (os : OS) (self : BVMArgumentParser.obj) (arg : str)
    (la : option str) :
  ArgumentParser.parsing_borg_args self = true ->
  BVMArgumentParser.parse_arg os self arg la
  = ArgumentParser.parse_arg os self arg true la.
Proof.
  intros Hc. unfold BVMArgumentParser.parse_arg, ArgumentParser.parse_arg,
    ArgumentParser.accept.
  rewrite Hc.
  repeat match goal with
         | |- context [if ?b then _ else _] => destruct b
         | |- context [match ?x with _ => _ end] => destruct x
         end; reflexivity.
Qed.

Lemma collecting_example_reached :
  ArgumentParser.loop (BaseParser.parse_arg os_plain)
    (init_obj os_plain (py "backup-vm") [py "backup-vm"] tt) false
    [py "/r::a"; py "--borg-args"]
  = Return collecting_example.
Proof. vm_compute; reflexivity. Qed.

(** C3 fails as stated: after ["--borg-args"], the location ["/s::b"] is
    accepted and switches collecting off, so the bare token ["y"] that
    follows is not captured: the base machine rejects it as unrecognised,
    and the domain-backup parser takes it for a disk. *)
Lemma collecting_left_counterexample :
  (exists self',
      BaseParser.parse_arg os_plain collecting_example (py "/s::b") None
      = Return (true, self')
      /\ ArgumentParser.parsing_borg_args self' = false)
  /\ BaseParser.__init__ os_plain
       [py "backup-vm"; py "/r::a"; py "--borg-args"; py "x"; py "/s::b"; py "y"]
     = UsageError (py "unrecognized argument: 'y'")
  /\ (exists self,
         BVMArgumentParser.__init__ os_plain
           [py "backup-vm"; py "vm"; py "/r::a"; py "--borg-args"; py "x";
            py "/s::b"; py "y"]
         = Return self
         /\ map extra_args (ArgumentParser.archives self) = [[py "x"]; []]
         /\ ArgumentParser.disks self = [py "y"]
         /\ ArgumentParser.parsing_borg_args self = false).
Proof.
  split; [eexists; split; vm_compute; reflexivity|].
  split; [vm_compute; reflexivity|].
  eexists. split; [vm_compute; reflexivity|]. repeat split.
Qed.

Lemma collecting_ends_witness :
  exists self',
    ArgumentParser.loop (BaseParser.parse_arg os_plain) collecting_example false
      [py "-xy"; py "-"; py "--stats"; py "--borg-args"; py "x=1"]
    = Return self'
    /\ ArgumentParser.parsing_borg_args self' = true
    /\ map extra_args (ArgumentParser.archives self')
       = [[py "-x"; py "-y"; py "--stats"; py "x=1"]].
Proof.
  destruct (@collecting_ends_at_next_location unit os_plain true
              (BaseParser.parse_arg os_plain) (fun _ _ _ _ => eq_refl)
              collecting_example []
              {| orig := py "/r::a"; extra_args := []; proto := Some (py "file");
                 user := None; _host := None; port := None;
                 path := Some (py "/r"); archive := Some (py "a") |}
              eq_refl eq_refl) as [_ [_ H]].
  destruct (H [py "-xy"; py "-"; py "--stats"; py "--borg-args"; py "x=1"] eq_refl)
    as [self' [H1 [H2 H3]]].
  exists self'. split; [exact H1|]. split; [exact H2|].
  rewrite H3. reflexivity.
Defined.

Lemma double_dash_skips_witness :
  ArgumentParser.loop (BaseParser.parse_arg os_plain)
    (init_obj os_plain (py "backup-vm") [py "backup-vm"] tt) false
    [py "--progress"; py "/s::b"]
  = Return (ArgumentParser.set_progress true
              (init_obj os_plain (py "backup-vm") [py "backup-vm"] tt)).
Proof.
  rewrite (double_dash_skips_next_token (BaseParser.parse_arg os_plain)
             (init_obj os_plain (py "backup-vm") [py "backup-vm"] tt)
             (py "--progress") (py "/s::b") [] eq_refl eq_refl eq_refl eq_refl).
  reflexivity.
Defined.

(** ** The domain-backup parser *)

Section Recognising.
Import ArgumentParser.
Variable X : Type.
Variable self_parse_arg : obj X -> str -> option str -> outcome (bool * obj X).

(** The overriding method never answers [False], and fails only on a
    misplaced marker. *)
Hypothesis recognises :
  forall self arg lookahead,
    match self_parse_arg self arg lookahead with
    | Return r => fst r = true
    | UsageError msg => msg = marker_message
    | _ => True
    end.

Lemma bind_marker_error_only {A B} (x : outcome A) (k : A -> outcome B) :
  marker_error_only x -> (forall a, marker_error_only (k a)) ->
  marker_error_only (bind x k).
Proof. destruct x; simpl; auto. Qed.

Lemma dispatch_marker_error_only (self : obj X) (arg : str) (la : option str) :
  marker_error_only (dispatch self_parse_arg self arg la).
Proof.
  unfold dispatch. pose proof (recognises self arg la) as H.
  destruct (self_parse_arg self arg la) as [r| | |]; simpl; auto.
  rewrite H; exact I.
Qed.

Lemma short_flags_marker_error_only (cs : str) (self : obj X) (la : option str) :
  marker_error_only (short_flags self_parse_arg self cs la).
Proof.
  revert self; induction cs as [|c cs IH]; intros self; simpl; [exact I|].
  apply bind_marker_error_only; [apply dispatch_marker_error_only|auto].
Qed.

Lemma loop_marker_error_only (args : list str) (self : obj X) (skip : bool) :
  marker_error_only (loop self_parse_arg self skip args).
Proof.
  revert self skip; induction args as [|arg rest IH]; intros self skip; [exact I|].
  cbn [loop]. destruct skip; [apply IH|].
  destruct (startswith arg (py "-") && negb (startswith arg (py "--"))
            && negb (contains "=" arg)).
  { apply bind_marker_error_only; [apply short_flags_marker_error_only|auto]. }
  destruct (startswith arg (py "--") && negb (contains "=" arg)
            && negb (eqb_str arg (py "--borg-args"))
            && negb (parsing_borg_args self));
    (apply bind_marker_error_only; [apply dispatch_marker_error_only|auto]).
Qed.

End Recognising.

Lemma base_parse_arg_errors X (os : OS) (self : ArgumentParser.obj X) (arg : str)
    (needs_archive : bool) (la : option str) :
  marker_error_only (ArgumentParser.parse_arg os self arg needs_archive la).
Proof.
  unfold ArgumentParser.parse_arg, ArgumentParser.accept.
  repeat match goal with
         | |- marker_error_only (if ?b then _ else _) => destruct b
         | |- marker_error_only (match ?x with _ => _ end) => destruct x
         end; simpl; auto; reflexivity.
Qed.

(** A base machine that does not recognise a token has changed nothing. *)
Lemma base_parse_arg_false X (os : OS) (self self' : ArgumentParser.obj X) (arg : str)
    (needs_archive : bool) (la : option str) :
  ArgumentParser.parse_arg os self arg needs_archive la = Return (false, self') ->
  self' = self.
Proof.
  unfold ArgumentParser.parse_arg, ArgumentParser.accept.
  repeat match goal with
         | |- (if ?b then _ else _) = _ -> _ => destruct b
         | |- (match ?x with _ => _ end) = _ -> _ => destruct x
         end; intros H; inversion H; reflexivity.
Qed.

(** C10.  In the domain-backup parser [parse_arg] answers [True] for every
    token it returns on: what the base machine recognises is passed on, and
    a token the base machine does not recognise becomes the domain when
    none is set and joins [disks] otherwise, flag-like tokens such as
    ["--stats"] and ["-x"] included.  The only usage error of [parse_arg]
    is the misplaced marker, and those of [parse_args] are that one and the
    two of the final validation; "unrecognized argument" never occurs. *)
Theorem domain_backup_recognises_every_token (os : OS) :
  (forall self arg la,
      BVMArgumentParser.parse_arg os self arg la =
      match ArgumentParser.parse_arg os self arg true la with
      | Return r =>
          Return (true,
                  if fst r then snd r
                  else match BVMArgumentParser.domain (ArgumentParser.sub self) with
                       | None => BVMArgumentParser.set_domain (Some arg) self
                       | Some _ =>
                           ArgumentParser.set_disks
                             (set_add str_dec arg (ArgumentParser.disks self)) self
                       end)
      | SystemExit code what => SystemExit code what
      | UsageError msg => UsageError marker_message
      | Uncaught e => Uncaught e
      end)
  /\ (forall self arg la,
         match BVMArgumentParser.parse_arg os self arg la with
         | Return r => fst r = true
         | UsageError msg => msg = marker_message
         | _ => True
         end)
  /\ (forall self args,
         match BVMArgumentParser.parse_args os self args with
         | UsageError msg =>
             msg = marker_message
             \/ msg = py "at least one archive path is required"
             \/ msg = py "the following arguments are required: domain, archive"
         | _ => True
         end)
  /\ (exists self,
         BVMArgumentParser.__init__ os_plain
           [py "backup-vm"; py "--stats"; py "skipped"; py "-x"; py "/r::a"]
         = Return self
         /\ BVMArgumentParser.domain (ArgumentParser.sub self) = Some (py "--stats")
         /\ ArgumentParser.disks self = [py "-x"]).
Proof.
  assert (P1 : forall self arg la,
             BVMArgumentParser.parse_arg os self arg la =
             match ArgumentParser.parse_arg os self arg true la with
             | Return r =>
                 Return (true,
                         if fst r then snd r
                         else match BVMArgumentParser.domain (ArgumentParser.sub self) with
                              | None => BVMArgumentParser.set_domain (Some arg) self
                              | Some _ =>
                                  ArgumentParser.set_disks
                                    (set_add str_dec arg (ArgumentParser.disks self)) self
                              end)
             | SystemExit code what => SystemExit code what
             | UsageError msg => UsageError marker_message
             | Uncaught e => Uncaught e
             end).
  { intros self arg la. unfold BVMArgumentParser.parse_arg.
    pose proof (base_parse_arg_errors os self arg true la) as He.
    pose proof (fun s1 => @base_parse_arg_false _ os self s1 arg true la) as Hf.
    destruct (ArgumentParser.parse_arg os self arg true la) as [[r s1]| | |]; simpl in *.
    - destruct r; simpl; [reflexivity|].
      rewrite (Hf s1 eq_refl).
      destruct (BVMArgumentParser.domain (ArgumentParser.sub self)); reflexivity.
    - reflexivity.
    - rewrite He; reflexivity.
    - reflexivity. }
  assert (P2 : forall self arg la,
             match BVMArgumentParser.parse_arg os self arg la with
             | Return r => fst r = true
             | UsageError msg => msg = marker_message
             | _ => True
             end).
  { intros self arg la. rewrite P1.
    destruct (ArgumentParser.parse_arg os self arg true la); simpl; auto. }
  split; [exact P1|]. split; [exact P2|]. split.
  - intros self args. unfold BVMArgumentParser.parse_args, ArgumentParser.parse_args.
    destruct args as [|a args]; [exact I|].
    pose proof (loop_marker_error_only (BVMArgumentParser.parse_arg os) P2 (a :: args)
                  (ArgumentParser.set_parsing_borg_args false self) false) as H.
    destruct (ArgumentParser.loop (BVMArgumentParser.parse_arg os)
                (ArgumentParser.set_parsing_borg_args false self) false (a :: args))
      as [s1| | |]; simpl in *; auto.
    destruct (ArgumentParser.archives s1) eqn:Ea; simpl; auto.
    rewrite Ea.
    destruct (BVMArgumentParser.domain (ArgumentParser.sub s1)); simpl; auto.
  - eexists. split; [vm_compute; reflexivity|]. split; reflexivity.
Qed.

(** ** Reasoning about the matcher *)

Lemma startswith_app (p s : str) : startswith (p ++ s) p = true.
Proof.
  induction p as [|c p IH]; simpl; [reflexivity|].
  rewrite Ascii.eqb_refl; exact IH.
Qed.

Lemma startswith_split (s p : str) :
  startswith s p = true -> s = p ++ skipn (length p) s.
Proof.
  revert s; induction p as [|c p IH]; intros s H; simpl in *; [reflexivity|].
  destruct s as [|x s]; [discriminate|].
  apply andb_true_iff in H; destruct H as [H1 H2].
  apply Ascii.eqb_eq in H1; subst x. simpl. f_equal. apply IH; assumption.
Qed.

(** A literal matches exactly when the input starts with it. *)
Lemma exec_Lit (p s : str) (m : groups) (k : cont) :
  exec (Lit p) s m k = if startswith s p then k (skipn (length p) s) m else None.
Proof.
  revert s; induction p as [|c p IH]; intros s; simpl; [reflexivity|].
  destruct s as [|x s]; [reflexivity|].
  rewrite (Ascii.eqb_sym c x). destruct (Ascii.eqb x c); simpl; [apply IH|reflexivity].
Qed.

Lemma exec_lit (p : string) (s : str) (m : groups) (k : cont) :
  exec (lit p) s m k = if startswith s (py p) then k (skipn (length (py p)) s) m else None.
Proof. apply exec_Lit. Qed.

(** A pattern cannot succeed when what follows it fails at every later
    position: [Q] holds of the input, is kept by dropping a character, and
    the continuation fails wherever [Q] holds. *)
Section NoMatch.
Variable Q : str -> Prop.
Hypothesis Q_tail : forall c s, Q (c :: s) -> Q s.

Lemma star_loop_no_match (body : str -> groups -> cont -> option groups) (k : cont) :
  (forall s m k', Q s -> (forall s1 m1, Q s1 -> k' s1 m1 = None) -> body s m k' = None) ->
  (forall s m, Q s -> k s m = None) ->
  forall n s m, Q s -> star_loop body k n s m = None.
Proof.
  intros Hb Hk n; induction n as [|n IH]; intros s m HQ; simpl; [auto|].
  rewrite Hb; auto.
  intros s1 m1 H1. destruct (length s1 <? length s); auto.
Qed.

Lemma exec_no_match (r : regex) :
  forall s m k, Q s -> (forall s1 m1, Q s1 -> k s1 m1 = None) -> exec r s m k = None.
Proof.
  induction r as [p| |r1 IH1 r2 IH2|r1 IH1 r2 IH2|r1 IH1|g r1 IH1|r1 IH1|];
    intros s m k HQ Hk; simpl.
  - destruct s as [|c s]; [reflexivity|]. destruct (p c); [|reflexivity].
    apply Hk. eapply Q_tail; eassumption.
  - auto.
  - apply IH1; auto.
  - rewrite IH1; auto.
  - apply star_loop_no_match; auto.
  - apply IH1; auto.
  - destruct (exec r1 s m (fun _ m1 => Some m1)); auto.
  - destruct s as [|c [|d s']]; auto. destruct (Ascii.eqb c newline); auto.
Qed.
End NoMatch.

(** *** Repetition of a one-character pattern *)

Lemma star_loop_single (body : regex) (ok : ascii -> str -> bool) (k : cont) :
  single body ok ->
  forall n s m, length s <= n -> star_loop (exec body) k n s m = greedy ok k s m.
Proof.
  intros Hs n; induction n as [|n IH]; intros s m Hn.
  - destruct s; [reflexivity|simpl in Hn; lia].
  - simpl. rewrite Hs. destruct s as [|c s']; [reflexivity|].
    simpl. destruct (ok c s'); [|reflexivity].
    replace (length s' <? S (length s')) with true
      by (symmetry; apply Nat.ltb_lt; lia).
    rewrite IH by (simpl in Hn; lia). reflexivity.
Qed.

Lemma exec_Star_single (body : regex) (ok : ascii -> str -> bool) :
  single body ok ->
  forall s m k, exec (Star body) s m k = greedy ok k s m.
Proof. intros Hs s m k. simpl. apply star_loop_single; auto. Qed.

Lemma exec_Plus_single (body : regex) (ok : ascii -> str -> bool) :
  single body ok ->
  forall s m k,
    exec (Plus body) s m k =
    match s with
    | [] => None
    | c :: s' => if ok c s' then greedy ok k s' m else None
    end.
Proof.
  intros Hs s m k. unfold Plus. cbn [exec]. rewrite Hs.
  destruct s as [|c s']; [reflexivity|].
  destruct (ok c s'); [|reflexivity]. apply exec_Star_single; assumption.
Qed.

Lemma single_Chr (p : ascii -> bool) : single (Chr p) (fun c _ => p c).
Proof. intros s m k; reflexivity. Qed.

Lemma single_path_char : single path_char path_ok.
Proof.
  intros s m k. destruct s as [|c s']; [reflexivity|].
  unfold path_char.
  change (exec (Alt (Chr (none_of ":")) (Seq (lit ":") (NegLook (lit ":")))) (c :: s') m k)
    with (match (if none_of ":" c then k s' m else None) with
          | Some x => Some x
          | None =>
              exec (lit ":") (c :: s') m
                (fun s1 m1 =>
                   match exec (lit ":") s1 m1 (fun _ m2 => Some m2) with
                   | Some _ => None
                   | None => k s1 m1
                   end)
          end).
  rewrite exec_lit. unfold path_ok.
  assert (Hc : startswith (c :: s') (py ":") = negb (none_of ":" c)).
  { unfold none_of, contains. cbn. rewrite orb_false_r, andb_true_r, negb_involutive.
    reflexivity. }
  rewrite Hc. destruct (none_of ":" c); cbn [negb orb].
  - destruct (k s' m); reflexivity.
  - rewrite exec_lit. cbn [py list_ascii_of_string length skipn].
    destruct (startswith s' [":"%char]); reflexivity.
Qed.

Lemma run_cons (ok : ascii -> str -> bool) (c : ascii) (s : str) :
  run ok (c :: s) = if ok c s then S (run ok s) else 0.
Proof. reflexivity. Qed.

(** The longest position is tried first: when what follows succeeds there,
    that is the match. *)
Lemma greedy_longest (ok : ascii -> str -> bool) (k : cont) (s : str) (m x : groups) :
  k (skipn (run ok s) s) m = Some x -> greedy ok k s m = Some x.
Proof.
  induction s as [|c s IH]; simpl; [auto|].
  destruct (ok c s); simpl; [|auto].
  intros H. rewrite (IH H). reflexivity.
Qed.

(** When what follows refuses every accepted character at its head, only
    the longest position can succeed. *)
Lemma greedy_reject (ok : ascii -> str -> bool) (k : cont) (s : str) (m : groups) :
  (forall c s' m', ok c s' = true -> k (c :: s') m' = None) ->
  greedy ok k s m = k (skipn (run ok s) s) m.
Proof.
  intros Hk. induction s as [|c s IH]; simpl; [reflexivity|].
  destruct (ok c s) eqn:E; simpl; [|reflexivity].
  rewrite IH. destruct (k (skipn (run ok s) s) m); [reflexivity|].
  apply Hk; assumption.
Qed.

(** ** Strings without a colon *)

Lemma contains_cons (c x : ascii) (s : str) :
  contains c (x :: s) = false -> Ascii.eqb c x = false /\ contains c s = false.
Proof. unfold contains; simpl. apply orb_false_iff. Qed.

Lemma startswith_contains (c : ascii) (p s : str) :
  startswith s p = true -> contains c p = true -> contains c s = true.
Proof.
  revert s; induction p as [|x p IH]; intros s Hs Hc; [discriminate|].
  destruct s as [|y s]; [discriminate|]. simpl in Hs.
  apply andb_true_iff in Hs; destruct Hs as [H1 H2].
  apply Ascii.eqb_eq in H1; subst y.
  unfold contains in *; simpl in *.
  apply orb_true_iff in Hc; destruct Hc as [Hc|Hc]; rewrite ?Hc; [reflexivity|].
  rewrite (IH s H2 Hc). apply orb_true_r.
Qed.

Lemma no_colon_startswith (p s : str) :
  contains ":" s = false -> contains ":" p = true -> startswith s p = false.
Proof.
  intros Hs Hp. destruct (startswith s p) eqn:E; [|reflexivity].
  rewrite (startswith_contains ":" p s E Hp) in Hs; discriminate.
Qed.

Lemma no_colon_lit (p : string) (s : str) (m : groups) (k : cont) :
  contains ":" s = false -> contains ":" (py p) = true -> exec (lit p) s m k = None.
Proof. intros Hs Hp. rewrite exec_lit, (no_colon_startswith _ _ Hs Hp); reflexivity. Qed.

Lemma no_colon_run (s : str) : contains ":" s = false -> run path_ok s = length s.
Proof.
  induction s as [|c s IH]; intros H; [reflexivity|].
  apply contains_cons in H; destruct H as [H1 H2].
  assert (Hok : path_ok c s = true).
  { unfold path_ok, none_of, contains. cbn [py list_ascii_of_string existsb].
    rewrite (Ascii.eqb_sym c ":"), H1. reflexivity. }
  cbn [run length]. rewrite Hok, IH; auto.
Qed.

Lemma no_colon_ssh_re (s : str) : contains ":" s = false -> re_match ssh_re s = None.
Proof.
  intros H. unfold re_match, ssh_re.
  change (exec (Group g_proto (lit "ssh")) s no_groups
            (fun s1 m1 =>
               exec (lit "://") s1 m1
                 (fun s2 m2 =>
                    exec (Seq optional_user_re
                            (Seq host_re
                               (Seq (Opt (Seq (lit ":") (Group g_port (Plus (Chr digit)))))
                                  (Seq abs_path_re optional_archive_re)))) s2 m2
                      (fun _ m3 => Some m3))) = None).
  apply exec_no_match with (Q := fun s => contains ":" s = false); auto.
  - intros c s0 H0; apply (contains_cons _ _ _ H0).
  - intros s1 m1 H1. apply no_colon_lit; auto.
Qed.

Lemma no_colon_file_re (s : str) : contains ":" s = false -> re_match file_re s = None.
Proof.
  intros H. unfold re_match, file_re.
  change (exec (Group g_proto (lit "file")) s no_groups
            (fun s1 m1 =>
               exec (lit "://") s1 m1
                 (fun s2 m2 =>
                    exec (Seq file_path_re optional_archive_re) s2 m2
                      (fun _ m3 => Some m3))) = None).
  apply exec_no_match with (Q := fun s => contains ":" s = false); auto.
  - intros c s0 H0; apply (contains_cons _ _ _ H0).
  - intros s1 m1 H1. apply no_colon_lit; auto.
Qed.

Lemma consumed_all (s : str) : consumed s [] = s.
Proof. unfold consumed. simpl. rewrite Nat.sub_0_r. apply firstn_all. Qed.

Lemma no_colon_scp_re (s : str) :
  s <> [] -> contains ":" s = false -> startswith s (py "//") = false ->
  re_match scp_re s = Some (set_group g_path s no_groups).
Proof.
  intros Hne Hc Hs. unfold re_match, scp_re.
  change (match
             exec optional_user_re s no_groups
               (fun s1 m1 =>
                  exec host_re s1 m1
                    (fun s2 m2 =>
                       exec (lit ":") s2 m2
                         (fun s3 m3 =>
                            exec (Seq scp_path_re optional_archive_re) s3 m3
                              (fun _ m4 => Some m4))))
           with
           | Some x => Some x
           | None =>
               match
                 exec (Alt (lit ":") (Alt (lit "//") (lit "ssh://"))) s no_groups
                   (fun _ m1 => Some m1)
               with
               | Some _ => None
               | None =>
                   exec (Plus path_char) s no_groups
                     (fun s2 m2 =>
                        exec optional_archive_re s2
                          (set_group g_path (consumed s s2) m2)
                          (fun _ m4 => Some m4))
               end
           end = Some (set_group g_path s no_groups)).
  rewrite exec_no_match with (Q := fun s => contains ":" s = false); auto.
  2:{ intros c s0 H0; apply (contains_cons _ _ _ H0). }
  2:{ intros s1 m1 H1.
      apply exec_no_match with (Q := fun s => contains ":" s = false); auto.
      - intros c s0 H0; apply (contains_cons _ _ _ H0).
      - intros s2 m2 H2. apply no_colon_lit; auto. }
  change (exec (Alt (lit ":") (Alt (lit "//") (lit "ssh://"))) s no_groups
            (fun _ m1 => Some m1))
    with (match exec (lit ":") s no_groups (fun _ m1 => Some m1) with
          | Some x => Some x
          | None =>
              match exec (lit "//") s no_groups (fun _ m1 => Some m1) with
              | Some x => Some x
              | None => exec (lit "ssh://") s no_groups (fun _ m1 => Some m1)
              end
          end).
  rewrite (no_colon_lit ":"), (no_colon_lit "ssh://"), (exec_lit "//"), Hs by auto.
  rewrite (exec_Plus_single single_path_char).
  destruct s as [|c s']; [congruence|].
  assert (Hok : path_ok c s' = true).
  { apply contains_cons in Hc. destruct Hc as [Hc _].
    unfold path_ok, none_of, contains. cbn [py list_ascii_of_string existsb].
    rewrite (Ascii.eqb_sym c ":"), Hc. reflexivity. }
  rewrite Hok. apply greedy_longest.
  rewrite no_colon_run by (apply (contains_cons _ _ _ Hc)).
  rewrite skipn_all, consumed_all. reflexivity.
Qed.

(** C9.  A non-empty string with no colon that does not start with ["//"]
    is matched by the scp shorthand alone (the two URI grammars fail on
    it), with no prefix: the location has protocol [file], the normalised
    input as its path, and no user, host, port or archive.  The flag-like
    ["--stats"] and ["-x"] are such strings and make valid locations. *)
Theorem colon_free_string_is_a_file_location (s : str) :
  s <> [] ->
  contains ":" s = false ->
  startswith s (py "//") = false ->
  re_match ssh_re s = None
  /\ re_match file_re s = None
  /\ re_match scp_re s = Some (set_group g_path s no_groups)
  /\ _parse s new_Location
     = (true, {| orig := []; extra_args := []; proto := Some (py "file");
                 user := None; _host := None; port := None;
                 path := Some (normpath_special s); archive := None |})
  /\ forall repo,
      __init__ repo s
      = Ok {| orig := s; extra_args := []; proto := Some (py "file");
              user := None; _host := None; port := None;
              path := Some (normpath_special s); archive := None |}.
Proof.
  intros Hne Hc Hs.
  pose proof (no_colon_ssh_re s Hc) as H1.
  pose proof (no_colon_file_re s Hc) as H2.
  pose proof (no_colon_scp_re Hne Hc Hs) as H3.
  split; [assumption|]. split; [assumption|]. split; [assumption|].
  split.
  - rewrite (@_parse_scp s _ _ H1 H2 H3). reflexivity.
  - intros repo. unfold __init__, parse. cbn [orig set_extra_args set_orig].
    rewrite (@_parse_scp s _ _ H1 H2 H3). reflexivity.
Qed.

Lemma flag_like_locations_witness :
  (forall repo,
      __init__ repo (py "--stats")
      = Ok {| orig := py "--stats"; extra_args := []; proto := Some (py "file");
              user := None; _host := None; port := None;
              path := Some (py "--stats"); archive := None |})
  /\ (forall repo,
         __init__ repo (py "-x")
         = Ok {| orig := py "-x"; extra_args := []; proto := Some (py "file");
                 user := None; _host := None; port := None;
                 path := Some (py "-x"); archive := None |}).
Proof.
  split; intros repo.
  - assert (Hne : py "--stats" <> []) by discriminate.
    exact (proj2 (proj2 (proj2 (proj2
             (colon_free_string_is_a_file_location Hne eq_refl eq_refl)))) repo).
  - assert (Hne : py "-x" <> []) by discriminate.
    exact (proj2 (proj2 (proj2 (proj2
             (colon_free_string_is_a_file_location Hne eq_refl eq_refl)))) repo).
Defined.

(** *** Failure and the groups *)

(** Whether a run fails does not depend on the groups collected so far. *)
Lemma star_loop_none_groups (body : str -> groups -> cont -> option groups) :
  (forall s m m' k k',
      (forall s1 m1 m1', k s1 m1 = None -> k' s1 m1' = None) ->
      body s m k = None -> body s m' k' = None) ->
  forall n s m m' k k',
    (forall s1 m1 m1', k s1 m1 = None -> k' s1 m1' = None) ->
    star_loop body k n s m = None -> star_loop body k' n s m' = None.
Proof.
  intros Hb n; induction n as [|n IH]; intros s m m' k k' Hk H; simpl in *.
  - eauto.
  - destruct (body s m _) eqn:E; [discriminate|].
    erewrite Hb; [eauto| |exact E].
    intros s1 m1 m1'. cbv beta.
    destruct (length s1 <? length s); [|reflexivity]. apply IH; assumption.
Qed.

Lemma exec_none_groups (r : regex) :
  forall s m m' k k',
    (forall s1 m1 m1', k s1 m1 = None -> k' s1 m1' = None) ->
    exec r s m k = None -> exec r s m' k' = None.
Proof.
  induction r as [p| |r1 IH1 r2 IH2|r1 IH1 r2 IH2|r1 IH1|g r1 IH1|r1 IH1|];
    intros s m m' k k' Hk H; simpl in *.
  - destruct s as [|c s']; [reflexivity|]. destruct (p c); eauto.
  - eauto.
  - eapply IH1; [|exact H]. intros s1 m1 m1'. apply IH2; assumption.
  - destruct (exec r1 s m k) eqn:E; [discriminate|].
    rewrite (IH1 _ _ m' _ k' Hk E). eapply IH2; eassumption.
  - eapply star_loop_none_groups; eauto.
  - eapply IH1; [|exact H]. intros s1 m1 m1'. apply Hk.
  - destruct (exec r1 s m (fun _ m2 => Some m2)) eqn:E; [|].
    + destruct (exec r1 s m' (fun _ m2 => Some m2)) eqn:E'; [reflexivity|].
      assert (F : exec r1 s m (fun _ m2 => Some m2) = None).
      { apply (IH1 s m' m (fun _ m2 => Some m2) (fun _ m2 => Some m2));
          [intros; discriminate|exact E']. }
      congruence.
    + assert (F : exec r1 s m' (fun _ m2 => Some m2) = None).
      { apply (IH1 s m m' (fun _ m2 => Some m2) (fun _ m2 => Some m2));
          [intros; discriminate|exact E]. }
      rewrite F. eauto.
  - destruct s as [|c [|d s']]; eauto. destruct (Ascii.eqb c newline); eauto.
Qed.

(** *** Repetition of a character class *)

Lemma run_le_length (ok : ascii -> str -> bool) (s : str) : run ok s <= length s.
Proof.
  induction s as [|c s IH]; simpl; [lia|]. destruct (ok c s); simpl; lia.
Qed.

Lemma consumed_skipn (s : str) (n : nat) :
  n <= length s -> consumed s (skipn n s) = firstn n s.
Proof.
  intros H. unfold consumed. rewrite length_skipn.
  replace (length s - (length s - n)) with n by lia. reflexivity.
Qed.

Lemma consumed_app (x s : str) : consumed (x ++ s) s = x.
Proof.
  unfold consumed. rewrite length_app.
  replace (length x + length s - length s) with (length x + 0) by lia.
  rewrite firstn_app_2. simpl. apply app_nil_r.
Qed.

(** The run of a class over [x ++ z] is [x] when [x] lies in the class and
    [z] does not start in it. *)
Lemma run_cls_app (p : ascii -> bool) (x z : str) :
  forallb p x = true ->
  match z with [] => true | c :: _ => negb (p c) end = true ->
  run (cls p) (x ++ z) = length x.
Proof.
  intros Hx Hz. induction x as [|c x IH]; simpl in *.
  - destruct z as [|d z]; [reflexivity|]. simpl. unfold cls.
    destruct (p d); [discriminate|reflexivity].
  - apply andb_true_iff in Hx; destruct Hx as [H1 H2].
    unfold cls at 1. rewrite H1, IH; auto.
Qed.

Lemma run_cls_firstn (p : ascii -> bool) (s : str) (j : nat) :
  j <= run (cls p) s -> forallb p (firstn j s) = true.
Proof.
  revert j; induction s as [|c s IH]; intros j H; simpl in *.
  - destruct j; reflexivity.
  - destruct j as [|j]; [reflexivity|]. unfold cls in H at 1.
    destruct (p c) eqn:E; [|lia]. simpl. rewrite E, IH; [reflexivity|lia].
Qed.

(** What a greedy search found lies at or before the longest position. *)
Lemma greedy_sound (ok : ascii -> str -> bool) (k : cont) (s : str) (m x : groups) :
  greedy ok k s m = Some x ->
  exists j, j <= run ok s /\ k (skipn j s) m = Some x.
Proof.
  induction s as [|c s IH]; simpl; intros H.
  - exists 0; split; [lia|assumption].
  - destruct (ok c s); [|exists 0; split; [lia|assumption]].
    destruct (greedy ok k s m) as [y|] eqn:E.
    + inversion H; subst y. destruct (IH eq_refl) as [j [H1 H2]].
      exists (S j); split; [lia|assumption].
    + exists 0; split; [lia|assumption].
Qed.

(** [p+] before a continuation that refuses the characters of [p]: the
    whole run is taken, or nothing matches. *)
Lemma exec_Plus_cls (p : ascii -> bool) (k : cont) (s : str) (m : groups) :
  (forall c s' m', p c = true -> k (c :: s') m' = None) ->
  exec (Plus (Chr p)) s m k =
  if 0 <? run (cls p) s then k (skipn (run (cls p) s) s) m else None.
Proof.
  intros Hk. rewrite (exec_Plus_single (single_Chr p)).
  destruct s as [|c s']; [reflexivity|]. simpl. unfold cls at 1 3.
  destruct (p c); [|reflexivity]. simpl.
  apply (greedy_reject (cls p) k s' m). intros c0 s0 m0; apply Hk.
Qed.

(** [p+] in general: some non-empty prefix inside the class was taken. *)
Lemma exec_Plus_cls_inv (p : ascii -> bool) (k : cont) (s : str) (m x : groups) :
  exec (Plus (Chr p)) s m k = Some x ->
  exists a s1, s = a ++ s1 /\ a <> [] /\ forallb p a = true /\ k s1 m = Some x.
Proof.
  rewrite (exec_Plus_single (single_Chr p)).
  destruct s as [|c s']; [discriminate|].
  destruct (p c) eqn:E; [|discriminate]. intros H.
  apply greedy_sound in H. destruct H as [j [Hj Hk]].
  exists (c :: firstn j s'), (skipn j s'). split; [|split; [discriminate|split]].
  - simpl. rewrite firstn_skipn. reflexivity.
  - simpl. rewrite E. apply run_cls_firstn; assumption.
  - assumption.
Qed.

(** *** Paths: no colon directly followed by another *)

Lemma path_ok_cons (c d : ascii) (s z : str) : path_ok c (d :: s) = path_ok c (d :: z).
Proof. reflexivity. Qed.

Lemma path_ok_nil (c : ascii) : path_ok c [] = true.
Proof. unfold path_ok. simpl. apply orb_true_r. Qed.

Lemma run_path_firstn (s : str) (j : nat) :
  j <= run path_ok s -> colons_ok (firstn j s).
Proof.
  unfold colons_ok. revert j; induction s as [|c s IH]; intros j H; simpl in *.
  - destruct j; reflexivity.
  - destruct j as [|j]; [reflexivity|].
    destruct (path_ok c s) eqn:E; [|lia]. simpl.
    assert (E' : path_ok c (firstn j s) = true).
    { destruct j as [|j]; [apply path_ok_nil|].
      destruct s as [|d s]; [apply path_ok_nil|]. simpl. exact E. }
    rewrite E', IH; [reflexivity|lia].
Qed.

Lemma colons_ok_cons (c : ascii) (s : str) :
  colons_ok (c :: s) <-> path_ok c s = true /\ colons_ok s.
Proof.
  unfold colons_ok. simpl. destruct (path_ok c s); split.
  - intros H; split; [reflexivity|lia].
  - intros [_ H]; lia.
  - intros H; discriminate.
  - intros [H _]; discriminate.
Qed.

Lemma colons_ok_app_char (c : ascii) (s : str) :
  Ascii.eqb c ":" = false -> colons_ok s -> colons_ok (c :: s).
Proof.
  intros Hc Hs. apply colons_ok_cons. split; [|assumption].
  unfold path_ok, none_of, contains. simpl. rewrite Hc. reflexivity.
Qed.

(** [path_char+]: some non-empty prefix without a double colon was taken. *)
Lemma exec_Plus_path_inv (k : cont) (s : str) (m x : groups) :
  exec (Plus path_char) s m k = Some x ->
  exists a s1, s = a ++ s1 /\ a <> [] /\ colons_ok a /\ k s1 m = Some x.
Proof.
  rewrite (exec_Plus_single single_path_char).
  destruct s as [|c s']; [discriminate|].
  destruct (path_ok c s') eqn:E; [|discriminate]. intros H.
  apply greedy_sound in H. destruct H as [j [Hj Hk]].
  exists (c :: firstn j s'), (skipn j s'). split; [|split; [discriminate|split]].
  - simpl. rewrite firstn_skipn. reflexivity.
  - apply colons_ok_cons. split; [|apply run_path_firstn; assumption].
    destruct j as [|j]; [apply path_ok_nil|].
    destruct s' as [|d s']; [apply path_ok_nil|]. simpl. exact E.
  - assumption.
Qed.

(** ** Normalised paths *)

Lemma split_nonempty (sep : ascii) (s : str) : split sep s <> [].
Proof.
  destruct s as [|c s]; simpl; [discriminate|].
  destruct (Ascii.eqb c sep); [discriminate|].
  destruct (split sep s); discriminate.
Qed.

Lemma contains_cons_eq (c x : ascii) (s : str) :
  contains c (x :: s) = Ascii.eqb c x || contains c s.
Proof. reflexivity. Qed.

Lemma split_noslash_all (s : str) : Forall noslash (split "/" s).
Proof.
  induction s as [|c s IH]; cbn [split].
  - constructor; [reflexivity|constructor].
  - destruct (Ascii.eqb c "/") eqn:E.
    + constructor; [reflexivity|assumption].
    + destruct (split "/" s) as [|comp rest].
      * constructor; [|constructor]. unfold noslash.
        rewrite contains_cons_eq, (Ascii.eqb_sym "/" c), E. reflexivity.
      * inversion IH; subst. constructor; [|assumption].
        unfold noslash in *.
        rewrite contains_cons_eq, (Ascii.eqb_sym "/" c), E. assumption.
Qed.

(** A component starts as the text it was cut from starts. *)
Lemma split_head (s : str) :
  match split "/" s with
  | [] => False
  | [] :: _ => s = [] \/ exists s', s = "/"%char :: s'
  | (d :: _) :: _ => exists s', s = d :: s'
  end.
Proof.
  destruct s as [|c s]; simpl; [left; reflexivity|].
  destruct (Ascii.eqb c "/") eqn:E.
  - apply Ascii.eqb_eq in E; subst c. right; eexists; reflexivity.
  - pose proof (split_nonempty "/" s) as Hn.
    destruct (split "/" s); [congruence|]. eexists; reflexivity.
Qed.

Lemma split_colons_ok (s : str) : colons_ok s -> Forall colons_ok (split "/" s).
Proof.
  induction s as [|c s IH]; intros H; simpl.
  - constructor; [reflexivity|constructor].
  - apply colons_ok_cons in H; destruct H as [H1 H2]. specialize (IH H2).
    destruct (Ascii.eqb c "/") eqn:E.
    + constructor; [reflexivity|assumption].
    + pose proof (split_head s) as Hh.
      destruct (split "/" s) as [|comp rest]; [contradiction|].
      inversion IH; subst. constructor; [|assumption].
      apply colons_ok_cons. split; [|assumption].
      destruct comp as [|d comp]; [apply path_ok_nil|].
      destruct Hh as [s' ->]. exact H1.
Qed.

Lemma colons_ok_slash (x y : str) :
  colons_ok x -> colons_ok y -> colons_ok (x ++ "/"%char :: y).
Proof.
  intros Hx Hy. induction x as [|c x IH]; simpl.
  - apply colons_ok_app_char; [reflexivity|assumption].
  - apply colons_ok_cons in Hx; destruct Hx as [H1 H2].
    apply colons_ok_cons. split; [|apply IH; assumption].
    destruct x as [|d x]; simpl; [|exact H1].
    unfold path_ok. simpl. apply orb_true_r.
Qed.

Lemma join_colons_ok (comps : list str) :
  Forall colons_ok comps -> colons_ok (str_join ["/"%char] comps).
Proof.
  induction comps as [|x rest IH]; intros H; [reflexivity|].
  inversion H; subst. destruct rest as [|y rest]; [assumption|].
  change (colons_ok (x ++ "/"%char :: str_join ["/"%char] (y :: rest))).
  apply colons_ok_slash; auto.
Qed.

Lemma split_one (x : str) : noslash x -> split "/" x = [x].
Proof.
  unfold noslash. induction x as [|c x IH]; intros H; [reflexivity|].
  rewrite contains_cons_eq in H.
  apply orb_false_iff in H; destruct H as [H1 H2].
  cbn [split app]. rewrite (Ascii.eqb_sym c "/"), H1, (IH H2). reflexivity.
Qed.

Lemma split_app_slash (x z : str) :
  noslash x -> split "/" (x ++ "/"%char :: z) = x :: split "/" z.
Proof.
  unfold noslash. induction x as [|c x IH]; intros H; [reflexivity|].
  rewrite contains_cons_eq in H.
  apply orb_false_iff in H; destruct H as [H1 H2].
  cbn [split app]. rewrite (Ascii.eqb_sym c "/"), H1, (IH H2). reflexivity.
Qed.

Lemma split_join (comps : list str) :
  Forall noslash comps -> comps <> [] ->
  split "/" (str_join ["/"%char] comps) = comps.
Proof.
  induction comps as [|x rest IH]; intros H Hn; [congruence|].
  inversion H; subst. destruct rest as [|y rest].
  - apply split_one; assumption.
  - change (split "/" (x ++ "/"%char :: str_join ["/"%char] (y :: rest)) = x :: y :: rest).
    rewrite split_app_slash by assumption. rewrite IH; [reflexivity|assumption|discriminate].
Qed.

Lemma step_skip (k : nat) (st : list str) (c : str) :
  c = [] \/ c = os_path.dot -> os_path.step k st c = st.
Proof. intros [->| ->]; reflexivity. Qed.

Lemma step_clean_push (k : nat) (st : list str) (c : str) :
  clean c -> os_path.step k st c = c :: st.
Proof.
  intros [H1 [_ [H3 H4]]]. unfold os_path.step.
  apply eqb_str_neq in H1, H3, H4. rewrite H1, H3, H4. reflexivity.
Qed.

Lemma fold_step_push (k : nat) (comps st : list str) :
  Forall clean comps -> fold_left (os_path.step k) comps st = rev comps ++ st.
Proof.
  revert st; induction comps as [|c comps IH]; intros st H; [reflexivity|].
  inversion H; subst. simpl. rewrite step_clean_push by assumption.
  rewrite IH by assumption. rewrite <- app_assoc. reflexivity.
Qed.

(** With leading slashes, the stack of kept components stays clean and
    holds only components of the input. *)
Lemma step_keeps_clean (k : nat) (st : list str) (c : str) :
  k <> 0 -> noslash c -> Forall clean st -> Forall clean (os_path.step k st c).
Proof.
  intros Hk Hc Hst. unfold os_path.step.
  destruct (eqb_str c []) eqn:E1; [assumption|].
  destruct (eqb_str c os_path.dot) eqn:E2; [assumption|]. cbn [orb].
  destruct (eqb_str c os_path.dotdot) eqn:E3; cbn [negb orb].
  - replace (k =? 0) with false by (symmetry; apply Nat.eqb_neq; assumption).
    cbn [andb orb]. destruct st as [|top older]; [constructor|].
    inversion Hst as [|? ? Ht Ho]; subst.
    destruct Ht as [_ [_ [_ Ht]]]. apply eqb_str_neq in Ht. rewrite Ht. assumption.
  - constructor; [|assumption].
    apply eqb_str_neq in E1, E2, E3. repeat split; assumption.
Qed.

Lemma step_keeps_members (Q : str -> Prop) (k : nat) (st : list str) (c : str) :
  Q c -> Forall Q st -> Forall Q (os_path.step k st c).
Proof.
  intros Hc Hst. unfold os_path.step.
  destruct (eqb_str c [] || eqb_str c os_path.dot); [assumption|].
  match goal with |- Forall Q (if ?b then _ else _) => destruct b end.
  - constructor; assumption.
  - destruct st; [constructor|]. inversion Hst; assumption.
Qed.

Lemma fold_step_clean (k : nat) (comps st : list str) :
  k <> 0 -> Forall noslash comps -> Forall clean st ->
  Forall clean (fold_left (os_path.step k) comps st).
Proof.
  intros Hk. revert st; induction comps as [|c comps IH]; intros st Hc Hst; [assumption|].
  inversion Hc; subst. simpl. apply IH; [assumption|].
  apply step_keeps_clean; assumption.
Qed.

Lemma fold_step_members (Q : str -> Prop) (k : nat) (comps st : list str) :
  Forall Q comps -> Forall Q st -> Forall Q (fold_left (os_path.step k) comps st).
Proof.
  revert st; induction comps as [|c comps IH]; intros st Hc Hst; [assumption|].
  inversion Hc; subst. simpl. apply IH; [assumption|].
  apply step_keeps_members; assumption.
Qed.

Lemma join_cons_head (c : str) (rest : list str) :
  exists tail, str_join ["/"%char] (c :: rest) = c ++ tail
               /\ (tail = [] \/ exists t, tail = "/"%char :: t).
Proof.
  destruct rest as [|y rest].
  - exists []. rewrite app_nil_r. split; [reflexivity|left; reflexivity].
  - exists ("/"%char :: str_join ["/"%char] (y :: rest)).
    split; [reflexivity|right; eexists; reflexivity].
Qed.

Lemma clean_head (c : str) :
  clean c -> exists d c', c = d :: c' /\ Ascii.eqb d "/" = false /\ noslash c'.
Proof.
  intros [H1 [H2 _]]. destruct c as [|d c']; [congruence|].
  unfold noslash in *. rewrite contains_cons_eq in H2.
  apply orb_false_iff in H2; destruct H2 as [H2 H3].
  exists d, c'. rewrite (Ascii.eqb_sym d "/"). auto.
Qed.

Lemma join_clean_no_slash_head (comps : list str) :
  Forall clean comps -> startswith (str_join ["/"%char] comps) (py "/") = false.
Proof.
  intros H. destruct comps as [|c rest]; [reflexivity|].
  inversion H; subst. destruct (clean_head H2) as [d [c' [-> [Hd _]]]].
  destruct (join_cons_head (d :: c') rest) as [tail [-> _]].
  cbn. rewrite Hd. reflexivity.
Qed.

Lemma join_clean_no_dot_slash (comps : list str) :
  Forall clean comps -> startswith (str_join ["/"%char] comps) (py "./") = false.
Proof.
  intros H. destruct comps as [|c rest]; [reflexivity|].
  inversion H as [|? ? Hc Hr]; subst.
  destruct (clean_head Hc) as [d [c' [E [Hd Hc']]]]. subst c.
  destruct (join_cons_head (d :: c') rest) as [tail [-> Ht]].
  cbn [py list_ascii_of_string startswith app].
  destruct (Ascii.eqb d ".") eqn:Ed; [|reflexivity]. cbn [andb].
  apply Ascii.eqb_eq in Ed; subst d.
  destruct c' as [|e c'].
  - destruct Hc as [_ [_ [Hdot _]]]. exfalso; apply Hdot; reflexivity.
  - unfold noslash in Hc'. rewrite contains_cons_eq in Hc'.
    apply orb_false_iff in Hc'; destruct Hc' as [He _].
    cbn [app]. rewrite (Ascii.eqb_sym e "/"), He. reflexivity.
Qed.

Lemma clean_noslash_all (comps : list str) : Forall clean comps -> Forall noslash comps.
Proof. intros H; induction H as [|c l [_ [Hc _]] _ IH]; constructor; assumption. Qed.

(** Normalising what [normpath] produced from an absolute path with one
    leading slash gives it back. *)
Lemma normpath_clean (comps : list str) :
  Forall clean comps ->
  os_path.normpath ("/"%char :: str_join ["/"%char] comps)
  = "/"%char :: str_join ["/"%char] comps.
Proof.
  intros H. unfold os_path.normpath.
  assert (Hk : os_path.initial_slashes ("/"%char :: str_join ["/"%char] comps) = 1).
  { unfold os_path.initial_slashes.
    pose proof (join_clean_no_slash_head H) as Hh.
    cbn [py list_ascii_of_string startswith] in *.
    rewrite Ascii.eqb_refl. cbn [andb].
    destruct (str_join ["/"%char] comps) as [|d t]; [reflexivity|].
    rewrite andb_true_r in Hh. rewrite Hh. reflexivity. }
  rewrite Hk. cbn [split os_path.sep].
  rewrite Ascii.eqb_refl.
  destruct comps as [|c rest]; [reflexivity|].
  rewrite split_join; [|apply clean_noslash_all; assumption|discriminate].
  change (fold_left (os_path.step 1) ([] :: c :: rest) [])
    with (fold_left (os_path.step 1) (c :: rest) []).
  rewrite fold_step_push by assumption.
  rewrite app_nil_r, rev_involutive. reflexivity.
Qed.

(** The same for the path with the relative marker put in front. *)
Lemma normpath_marked (comps : list str) :
  Forall clean comps ->
  os_path.normpath (py "/./" ++ str_join ["/"%char] comps)
  = "/"%char :: str_join ["/"%char] comps.
Proof.
  intros H. unfold os_path.normpath.
  cbn [py list_ascii_of_string app].
  assert (Hk : os_path.initial_slashes
                 ("/"%char :: "."%char :: "/"%char :: str_join ["/"%char] comps) = 1)
    by reflexivity.
  rewrite Hk. cbn [split os_path.sep].
  rewrite Ascii.eqb_refl.
  destruct comps as [|c rest]; [reflexivity|].
  rewrite split_join; [|apply clean_noslash_all; assumption|discriminate].
  change (Ascii.eqb "." os_path.sep) with false. cbv iota.
  change (fold_left (os_path.step 1) ([] :: ["."%char] :: c :: rest) [])
    with (fold_left (os_path.step 1) (c :: rest) []).
  rewrite fold_step_push by assumption.
  rewrite app_nil_r, rev_involutive. reflexivity.
Qed.

(** The shape of [normpath] on an absolute path. *)
Lemma normpath_abs_form (r : str) :
  startswith r (py "/") = true -> colons_ok r ->
  exists comps,
    Forall clean comps /\ Forall colons_ok comps
    /\ os_path.normpath r
       = repeat "/"%char (os_path.initial_slashes r) ++ str_join ["/"%char] comps
    /\ (os_path.initial_slashes r = 1 \/ os_path.initial_slashes r = 2).
Proof.
  intros Hs Hc.
  assert (Hk : os_path.initial_slashes r = 1 \/ os_path.initial_slashes r = 2).
  { unfold os_path.initial_slashes. rewrite Hs.
    destruct (startswith r (py "//") && negb (startswith r (py "///"))); auto. }
  exists (rev (fold_left (os_path.step (os_path.initial_slashes r)) (split "/" r) [])).
  split; [|split; [|split; [|assumption]]].
  - apply Forall_rev. apply fold_step_clean; [lia|apply split_noslash_all|constructor].
  - apply Forall_rev. apply fold_step_members; [apply split_colons_ok; assumption|constructor].
  - unfold os_path.normpath. destruct r as [|c r']; [discriminate|].
    cbv zeta. fold os_path.sep.
    destruct Hk as [-> | ->]; reflexivity.
Qed.

Lemma colons_ok_slashes (k : nat) (s : str) :
  colons_ok s -> colons_ok (repeat "/"%char k ++ s).
Proof.
  intros H; induction k as [|k IH]; [assumption|].
  simpl. apply colons_ok_app_char; [reflexivity|assumption].
Qed.

(** What [normpath_special] makes of an absolute path: an absolute path
    without a double colon, which it maps to itself unless it starts with
    two slashes. *)
Lemma normpath_special_abs (r : str) :
  startswith r (py "/") = true -> colons_ok r ->
  startswith (normpath_special r) (py "/") = true
  /\ colons_ok (normpath_special r)
  /\ (startswith (normpath_special r) (py "//") = false ->
      normpath_special (normpath_special r) = normpath_special r).
Proof.
  intros Hs Hc.
  destruct (normpath_abs_form Hs Hc) as [comps [Hcl [Hco [Hn Hk]]]].
  pose proof (join_colons_ok Hco) as Hj.
  destruct (startswith r (py "/./")) eqn:M.
  - assert (K1 : os_path.initial_slashes r = 1).
    { apply startswith_split in M. rewrite M. reflexivity. }
    assert (E : normpath_special r = py "/./" ++ str_join ["/"%char] comps).
    { unfold normpath_special. rewrite M, Hn, K1. reflexivity. }
    rewrite E. split; [reflexivity|]. split.
    { cbn [py list_ascii_of_string app].
      apply colons_ok_app_char; [reflexivity|].
      apply colons_ok_app_char; [reflexivity|].
      apply colons_ok_app_char; [reflexivity|assumption]. }
    intros _. unfold normpath_special.
    rewrite startswith_app, normpath_marked by assumption. reflexivity.
  - assert (E : normpath_special r
                = repeat "/"%char (os_path.initial_slashes r) ++ str_join ["/"%char] comps).
    { unfold normpath_special. rewrite M, Hn. reflexivity. }
    rewrite E. split; [|split].
    + destruct Hk as [-> | ->]; reflexivity.
    + apply colons_ok_slashes; assumption.
    + intros H2. destruct Hk as [K|K]; rewrite K in *.
      2:{ cbn in H2. discriminate. }
      cbn [repeat app]. unfold normpath_special.
      replace (startswith ("/"%char :: str_join ["/"%char] comps) (py "/./")) with false.
      * apply normpath_clean; assumption.
      * symmetry. cbn [py list_ascii_of_string startswith]. rewrite Ascii.eqb_refl.
        cbn [andb]. apply (join_clean_no_dot_slash Hcl).
Qed.

(** ** The pieces of the SSH and scp grammars *)

Lemma exec_Seq (r1 r2 : regex) (s : str) (m : groups) (k : cont) :
  exec (Seq r1 r2) s m k = exec r1 s m (fun s1 m1 => exec r2 s1 m1 k).
Proof. reflexivity. Qed.

Lemma exec_Alt (r1 r2 : regex) (s : str) (m : groups) (k : cont) :
  exec (Alt r1 r2) s m k =
  match exec r1 s m k with Some x => Some x | None => exec r2 s m k end.
Proof. reflexivity. Qed.

Lemma exec_Opt (r : regex) (s : str) (m : groups) (k : cont) :
  exec (Opt r) s m k = match exec r s m k with Some x => Some x | None => k s m end.
Proof. reflexivity. Qed.

Lemma exec_Group (g : gname) (r : regex) (s : str) (m : groups) (k : cont) :
  exec (Group g r) s m k
  = exec r s m (fun s1 m1 => k s1 (set_group g (consumed s s1) m1)).
Proof. reflexivity. Qed.

Lemma startswith_cons (c d : ascii) (s p : str) :
  startswith (c :: s) (d :: p) = Ascii.eqb c d && startswith s p.
Proof. reflexivity. Qed.

Lemma startswith_concat (s p q : str) :
  startswith s (p ++ q) = startswith s p && startswith (skipn (length p) s) q.
Proof.
  revert s; induction p as [|c p IH]; intros s; [reflexivity|].
  destruct s as [|x s]; [reflexivity|].
  cbn [app length skipn]. rewrite !startswith_cons, IH, andb_assoc. reflexivity.
Qed.

(** The classes nest, and exclude the delimiters. *)
Lemma user_char_host_char (c : ascii) : user_char c = true -> host_char c = true.
Proof.
  unfold user_char, host_char, none_of, contains. cbn [py list_ascii_of_string existsb].
  destruct (Ascii.eqb c "@"); [discriminate|]. auto.
Qed.

Lemma host_char_archive_char (c : ascii) : host_char c = true -> archive_char c = true.
Proof.
  unfold archive_char, host_char, none_of, contains. cbn [py list_ascii_of_string existsb].
  destruct (Ascii.eqb c ":"); [discriminate|]. auto.
Qed.

Lemma host_char_spec (c : ascii) :
  host_char c = negb (Ascii.eqb c ":") && negb (Ascii.eqb c "/").
Proof.
  unfold host_char, none_of, contains. cbn [py list_ascii_of_string existsb].
  rewrite orb_false_r, negb_orb. reflexivity.
Qed.

Lemma user_char_spec (c : ascii) :
  user_char c = negb (Ascii.eqb c "@") && host_char c.
Proof.
  unfold user_char, host_char, none_of, contains. cbn [py list_ascii_of_string existsb].
  rewrite !orb_false_r, !negb_orb. reflexivity.
Qed.

Lemma hex_host_char (c : ascii) :
  hex_colon_dot c = true -> Ascii.eqb c ":" = false -> host_char c = true.
Proof.
  destruct c as [[] [] [] [] [] [] [] []]; intros H1 H2;
    try reflexivity; try discriminate H1; discriminate H2.
Qed.

Lemma digit_not_slash (c : ascii) : digit c = true -> Ascii.eqb c "/" = false.
Proof.
  destruct c as [[] [] [] [] [] [] [] []]; intros H1; try reflexivity; discriminate H1.
Qed.

Lemma hex_not_bracket (c : ascii) : hex_colon_dot c = true -> Ascii.eqb c "]" = false.
Proof.
  destruct c as [[] [] [] [] [] [] [] []]; intros H1; try reflexivity; discriminate H1.
Qed.

Lemma forallb_contains (c : ascii) (p : ascii -> bool) (s : str) :
  p c = false -> forallb p s = true -> contains c s = false.
Proof.
  intros Hc; induction s as [|x s IH]; intros H; [reflexivity|].
  cbn [forallb] in H. apply andb_true_iff in H; destruct H as [H1 H2].
  rewrite contains_cons_eq, (IH H2), orb_false_r.
  destruct (Ascii.eqb_spec c x); [subst; congruence|reflexivity].
Qed.

(** A literal at the head of what follows makes a continuation refuse
    every other leading character. *)
Lemma lit1_rejects (d : ascii) (k : cont) (c : ascii) (s : str) (m : groups) :
  Ascii.eqb c d = false -> exec (Lit [d]) (c :: s) m k = None.
Proof. intros H. rewrite exec_Lit, startswith_cons, H. reflexivity. Qed.

Lemma after_abs_path_rejects (c : ascii) (s : str) (m : groups) :
  Ascii.eqb c "/" = false -> after_abs_path (c :: s) m = None.
Proof.
  intros H. unfold after_abs_path, abs_path_re. rewrite exec_Group, exec_Seq.
  apply lit1_rejects; assumption.
Qed.

Lemma after_ssh_host_rejects (c : ascii) (s : str) (m : groups) :
  host_char c = true -> after_ssh_host (c :: s) m = None.
Proof.
  rewrite host_char_spec. intros H. apply andb_true_iff in H; destruct H as [H1 H2].
  apply negb_true_iff in H1, H2.
  unfold after_ssh_host. rewrite exec_Opt, exec_Seq.
  unfold lit at 1. cbn [py list_ascii_of_string].
  rewrite lit1_rejects by assumption. apply after_abs_path_rejects; assumption.
Qed.

Lemma after_scp_host_rejects (c : ascii) (s : str) (m : groups) :
  host_char c = true -> after_scp_host (c :: s) m = None.
Proof.
  rewrite host_char_spec. intros H. apply andb_true_iff in H; destruct H as [H1 _].
  apply negb_true_iff in H1. apply lit1_rejects; assumption.
Qed.

(** Whether what follows the host succeeds does not depend on the groups. *)
Lemma after_ssh_host_none (s : str) (m m' : groups) :
  after_ssh_host s m = None -> after_ssh_host s m' = None.
Proof.
  unfold after_ssh_host, after_abs_path, after_archive.
  apply exec_none_groups. intros s1 m1 m1'.
  apply exec_none_groups. intros s2 m2 m2'.
  apply exec_none_groups. intros s3 m3 m3'. discriminate.
Qed.

Lemma exec_optional_user (s : str) (m : groups) (k : cont) :
  exec optional_user_re s m k =
  match (if user_at s
         then k (skipn (S (run (cls user_char) s)) s)
                (set_group g_user (firstn (run (cls user_char) s) s) m)
         else None) with
  | Some x => Some x
  | None => k s m
  end.
Proof.
  unfold optional_user_re. rewrite exec_Opt, exec_Seq, exec_Group.
  change (none_of "@:/") with user_char.
  rewrite exec_Plus_cls.
  2:{ intros c s' m' Hc. rewrite user_char_spec in Hc.
      apply andb_true_iff in Hc; destruct Hc as [Hc _]. apply negb_true_iff in Hc.
      apply lit1_rejects; assumption. }
  unfold user_at. destruct (0 <? run (cls user_char) s); [|reflexivity].
  rewrite exec_lit, andb_true_l.
  destruct (startswith (skipn (run (cls user_char) s) s) (py "@")); [|reflexivity].
  rewrite skipn_skipn, consumed_skipn by apply run_le_length. reflexivity.
Qed.

Lemma bracket_host_inv (s : str) (m x : groups) (k : cont) :
  exec bracket_host s m k = Some x ->
  exists y s', s = "["%char :: y ++ "]"%char :: s' /\ y <> []
               /\ forallb hex_colon_dot y = true /\ k s' m = Some x.
Proof.
  unfold bracket_host. rewrite exec_Seq, exec_lit.
  destruct (startswith s (py "[")) eqn:E; [|discriminate].
  apply startswith_split in E.
  rewrite exec_Seq. intros H. apply exec_Plus_cls_inv in H.
  destruct H as [y [s1 [E1 [Hy [Hf H]]]]].
  rewrite exec_lit in H. destruct (startswith s1 (py "]")) eqn:E2; [|discriminate].
  apply startswith_split in E2.
  exists y, (skipn (length (py "]")) s1). split; [|auto].
  rewrite E1 in E. rewrite E2 in E. exact E.
Qed.

Lemma bracket_host_needs_bracket (s : str) (m : groups) (k : cont) :
  startswith s (py "[") = false -> exec bracket_host s m k = None.
Proof.
  intros H. unfold bracket_host. rewrite exec_Seq, exec_lit, H. reflexivity.
Qed.

(** The host before a continuation that refuses host characters: the whole
    run of host characters, or else a bracketed literal. *)
Lemma exec_host_re (s : str) (m : groups) (k : cont) :
  (forall c s' m', host_char c = true -> k (c :: s') m' = None) ->
  exec host_re s m k =
  match (if 0 <? run (cls host_char) s
         then k (skipn (run (cls host_char) s) s)
                (set_group g_host (firstn (run (cls host_char) s) s) m)
         else None) with
  | Some x => Some x
  | None =>
      exec bracket_host s m (fun s1 m1 => k s1 (set_group g_host (consumed s s1) m1))
  end.
Proof.
  intros Hk. unfold host_re. rewrite exec_Group, exec_Alt.
  change (none_of ":/") with host_char.
  rewrite exec_Plus_cls by (intros c s' m' Hc; apply Hk; assumption).
  rewrite consumed_skipn by apply run_le_length. reflexivity.
Qed.

(** The host in general: a non-empty text, made of host characters unless
    it holds a colon. *)
Lemma host_re_inv (s : str) (m x : groups) (k : cont) :
  exec host_re s m k = Some x ->
  exists h s', s = h ++ s' /\ h <> []
               /\ (contains ":" h = false -> forallb host_char h = true)
               /\ k s' (set_group g_host h m) = Some x.
Proof.
  unfold host_re. rewrite exec_Group, exec_Alt.
  change (none_of ":/") with host_char.
  destruct (exec (Plus (Chr host_char)) s m _) as [y|] eqn:E.
  - intros H; inversion H; subst y; clear H.
    apply exec_Plus_cls_inv in E. destruct E as [a [s1 [E1 [Ha [Hf H]]]]].
    subst s. rewrite consumed_app in H. exists a, s1. auto.
  - intros H. apply bracket_host_inv in H.
    destruct H as [y [s' [E1 [Hy [Hf H]]]]].
    exists ("["%char :: y ++ ["]"%char]), s'.
    assert (Es : s = ("["%char :: y ++ ["]"%char]) ++ s').
    { rewrite E1. cbn [app]. rewrite <- app_assoc. reflexivity. }
    split; [assumption|]. split; [discriminate|]. split.
    + intros Hc. rewrite contains_cons_eq in Hc.
      apply orb_false_iff in Hc; destruct Hc as [_ Hc].
      cbn [forallb]. rewrite forallb_app. cbn [forallb andb].
      rewrite andb_true_r. change (host_char "[" && forallb host_char y = true). cbn [andb].
      apply forallb_forall. intros c Hin.
      apply hex_host_char.
      * rewrite forallb_forall in Hf. apply Hf; assumption.
      * unfold contains in Hc. rewrite existsb_app in Hc.
        apply orb_false_iff in Hc; destruct Hc as [Hc _].
        destruct (Ascii.eqb c ":") eqn:Ec; [|reflexivity].
        apply Ascii.eqb_eq in Ec; subst c.
        assert (existsb (Ascii.eqb ":") y = true)
          by (apply existsb_exists; exists ":"%char; split; [assumption|reflexivity]).
        congruence.
    + rewrite Es in H at 1. rewrite consumed_app in H. exact H.
Qed.

(** The archive suffix: nothing, or ["::"] and a non-empty name without a
    slash. *)
Lemma after_archive_inv (s : str) (m x : groups) :
  after_archive s m = Some x ->
  x = m
  \/ exists a, a <> [] /\ forallb archive_char a = true /\ x = set_group g_archive a m.
Proof.
  unfold after_archive, optional_archive_re. rewrite exec_Seq, exec_Opt.
  destruct (exec (Seq (lit "::") _) s m _) as [y|] eqn:E.
  - intros H; inversion H; subst y; clear H. right.
    rewrite exec_Seq, exec_lit in E.
    destruct (startswith s (py "::")); [|discriminate].
    rewrite exec_Group in E. apply exec_Plus_cls_inv in E.
    destruct E as [a [s1 [E1 [Ha [Hf H]]]]].
    rewrite E1, consumed_app in H.
    exists a. split; [assumption|]. split; [assumption|].
    destruct s1 as [|c [|d s1]]; cbn in H; try discriminate.
    + inversion H; reflexivity.
    + destruct (Ascii.eqb c newline); inversion H; reflexivity.
  - intros H. left.
    destruct s as [|c [|d s]]; cbn in H; try discriminate.
    + inversion H; reflexivity.
    + destruct (Ascii.eqb c newline); inversion H; reflexivity.
Qed.

Lemma after_archive_nil (m : groups) : after_archive [] m = Some m.
Proof. reflexivity. Qed.

Lemma after_archive_name (a : str) (m : groups) :
  a <> [] -> forallb archive_char a = true ->
  after_archive (py "::" ++ a) m = Some (set_group g_archive a m).
Proof.
  intros Ha Hf. unfold after_archive, optional_archive_re.
  rewrite exec_Seq, exec_Opt, exec_Seq, exec_lit, startswith_app.
  replace (skipn (length (py "::")) (py "::" ++ a)) with a by reflexivity.
  rewrite exec_Group, (exec_Plus_single (single_Chr archive_char)).
  destruct a as [|c a']; [congruence|].
  cbn [forallb] in Hf. apply andb_true_iff in Hf; destruct Hf as [Hc Hf].
  rewrite Hc.
  rewrite (@greedy_longest _ _ _ _ (set_group g_archive (c :: a') m)); [reflexivity|].
  change (fun (c0 : ascii) (_ : str) => archive_char c0) with (cls archive_char).
  assert (Hr : run (cls archive_char) a' = length a').
  { rewrite <- (app_nil_r a') at 1. apply run_cls_app; auto. }
  rewrite Hr, skipn_all, consumed_all. reflexivity.
Qed.

(** The absolute path of [ssh_re]: a text that starts with a slash and has
    no double colon. *)
Lemma after_abs_path_inv (s : str) (m x : groups) :
  after_abs_path s m = Some x ->
  exists r s', s = r ++ s' /\ startswith r (py "/") = true /\ colons_ok r
               /\ after_archive s' (set_group g_path r m) = Some x.
Proof.
  unfold after_abs_path, abs_path_re. rewrite exec_Group, exec_Seq, exec_lit.
  destruct (startswith s (py "/")) eqn:E; [|discriminate].
  apply startswith_split in E.
  intros H. apply exec_Plus_path_inv in H.
  destruct H as [a [s1 [E1 [Ha [Hc H]]]]].
  assert (Es : s = ("/"%char :: a) ++ s1).
  { rewrite E1 in E. exact E. }
  exists ("/"%char :: a), s1. split; [assumption|]. split; [reflexivity|].
  split; [apply colons_ok_app_char; [reflexivity|assumption]|].
  rewrite Es in H at 1. rewrite consumed_app in H. exact H.
Qed.

(** The optional port: what follows the host starts with a colon or a
    slash, and the groups gain at most the port. *)
Lemma after_ssh_host_inv (s : str) (m x : groups) :
  after_ssh_host s m = Some x ->
  match s with [] => false | c :: _ => negb (host_char c) end = true
  /\ exists s1 po,
      after_abs_path s1
        (match po with Some d => set_group g_port d m | None => m end) = Some x.
Proof.
  intros H. split.
  - destruct s as [|c s']; [discriminate H|].
    destruct (host_char c) eqn:E; [|reflexivity].
    rewrite after_ssh_host_rejects in H by assumption. discriminate.
  - unfold after_ssh_host in H. rewrite exec_Opt in H.
    destruct (exec (Seq (lit ":") _) s m _) as [y|] eqn:E.
    + inversion H; subst y; clear H.
      rewrite exec_Seq, exec_lit in E.
      destruct (startswith s (py ":")); [|discriminate].
      rewrite exec_Group in E. apply exec_Plus_cls_inv in E.
      destruct E as [a [s1 [E1 [Ha [Hf H]]]]].
      exists s1, (Some (consumed (skipn (length (py ":")) s) s1)). exact H.
    + exists s, None. exact H.
Qed.

(** ** The shape of a match of [ssh_re] *)

Lemma consumed_startswith (s p : str) :
  startswith s p = true -> consumed s (skipn (length p) s) = p.
Proof.
  intros H. apply startswith_split in H.
  remember (skipn (length p) s) as t. rewrite H. apply consumed_app.
Qed.

Lemma re_match_ssh_re (text : str) :
  re_match ssh_re text =
  if startswith text (py "ssh://")
  then exec optional_user_re (skipn 6 text) (set_group g_proto (py "ssh") no_groups)
         (fun s m => exec host_re s m after_ssh_host)
  else None.
Proof.
  unfold re_match, ssh_re. rewrite exec_Seq, exec_Group, exec_lit.
  change (py "ssh://") with (py "ssh" ++ py "://"). rewrite startswith_concat.
  destruct (startswith text (py "ssh")) eqn:E1; [|reflexivity].
  rewrite exec_Seq, exec_lit, andb_true_l.
  destruct (startswith (skipn (length (py "ssh")) text) (py "://")); [|reflexivity].
  rewrite consumed_startswith by assumption. rewrite skipn_skipn. reflexivity.
Qed.

(** From the host on. *)
Lemma ssh_tail_shape (s : str) (m x : groups) :
  exec host_re s m after_ssh_host = Some x ->
  exists h s2 po r ao,
    s = h ++ s2 /\ h <> []
    /\ (contains ":" h = false -> forallb host_char h = true)
    /\ match s2 with [] => false | c :: _ => negb (host_char c) end = true
    /\ after_ssh_host s2 (set_group g_host h m) = Some x
    /\ startswith r (py "/") = true /\ colons_ok r
    /\ match ao with
       | Some a => a <> [] /\ forallb archive_char a = true
       | None => True
       end
    /\ x = add_group g_archive ao
             (set_group g_path r (add_group g_port po (set_group g_host h m))).
Proof.
  intros H. apply host_re_inv in H. destruct H as [h [s2 [Es [Hh [Hc H]]]]].
  pose proof H as H0.
  apply after_ssh_host_inv in H. destruct H as [Hs2 [s3 [po H]]].
  apply after_abs_path_inv in H. destruct H as [r [s4 [_ [Hr [Hco H]]]]].
  apply after_archive_inv in H.
  exists h, s2, po, r.
  destruct H as [Hx|[a [Ha [Hf Hx]]]].
  - exists None. repeat (split; [assumption|]). split; [exact I|]. exact Hx.
  - exists (Some a). repeat (split; [assumption|]). split; [auto|]. exact Hx.
Qed.

Lemma run_user_app (h z : str) :
  forallb host_char h = true ->
  match z with [] => false | c :: _ => negb (host_char c) end = true ->
  run (cls user_char) (h ++ z) = run (cls user_char) h.
Proof.
  intros Hh Hz. induction h as [|c h IH].
  - destruct z as [|d z]; [discriminate|]. cbn [app run]. unfold cls.
    destruct (user_char d) eqn:E; [|reflexivity].
    apply user_char_host_char in E. rewrite E in Hz. discriminate.
  - cbn [forallb] in Hh. apply andb_true_iff in Hh; destruct Hh as [_ Hh].
    cbn [app run]. unfold cls at 1 3. rewrite (IH Hh). reflexivity.
Qed.

Lemma user_at_app (h z : str) :
  forallb host_char h = true ->
  match z with [] => false | c :: _ => negb (host_char c) end = true ->
  user_at (h ++ z) = user_at h.
Proof.
  intros Hh Hz. unfold user_at. rewrite (run_user_app _ _ Hh Hz).
  pose proof (run_le_length (cls user_char) h) as Hn.
  set (n := run (cls user_char) h) in *.
  rewrite skipn_app.
  destruct (skipn n h) as [|d t] eqn:E.
  - assert (length h <= n).
    { pose proof (length_skipn n h) as L. rewrite E in L. simpl in L. lia. }
    replace (n - length h) with 0 by lia. cbn [skipn app].
    destruct z as [|c z]; [discriminate|].
    cbn [py list_ascii_of_string]. rewrite startswith_cons.
    destruct (Ascii.eqb_spec c "@"); [subst c; discriminate Hz|].
    cbn [startswith andb]. rewrite !andb_false_r. reflexivity.
  - reflexivity.
Qed.

Lemma user_at_lt (h : str) : user_at h = true -> S (run (cls user_char) h) <= length h.
Proof.
  unfold user_at. intros H. apply andb_true_iff in H; destruct H as [_ H].
  pose proof (length_skipn (run (cls user_char) h) h) as L.
  destruct (skipn (run (cls user_char) h) h); [discriminate|]. simpl in L. lia.
Qed.

Lemma forallb_skipn (p : ascii -> bool) (n : nat) (s : str) :
  forallb p s = true -> forallb p (skipn n s) = true.
Proof.
  revert s; induction n as [|n IH]; intros s H; [assumption|].
  destruct s as [|c s]; [reflexivity|]. cbn [forallb] in H.
  apply andb_true_iff in H; destruct H as [_ H]. cbn [skipn]. auto.
Qed.

(** When the user branch failed although the text starts like a user and
    an ["@"], the host that was found ends with that ["@"]. *)
Lemma user_branch_failed (h s2 : str) (m m1 x : groups) :
  forallb host_char h = true ->
  match s2 with [] => false | c :: _ => negb (host_char c) end = true ->
  after_ssh_host s2 m1 = Some x ->
  user_at (h ++ s2) = true ->
  exec host_re (skipn (S (run (cls user_char) (h ++ s2))) (h ++ s2)) m after_ssh_host = None ->
  user_free h.
Proof.
  intros Hh Hs2 Hk Hu Hn Hu'.
  rewrite (run_user_app _ _ Hh Hs2) in Hn.
  pose proof (user_at_lt _ Hu') as Hlt.
  rewrite skipn_app in Hn.
  replace (S (run (cls user_char) h) - length h) with 0 in Hn by lia.
  change (skipn 0 s2) with s2 in Hn.
  assert (Hy : forallb host_char (skipn (S (run (cls user_char) h)) h) = true)
    by (apply forallb_skipn; assumption).
  remember (skipn (S (run (cls user_char) h)) h) as y eqn:Ey.
  rewrite exec_host_re in Hn by (intros; apply after_ssh_host_rejects; assumption).
  rewrite run_cls_app in Hn; [|assumption|destruct s2; [discriminate|assumption]].
  destruct y as [|c y']; [reflexivity|]. exfalso.
  replace (0 <? length (c :: y')) with true in Hn by reflexivity.
  rewrite skipn_app, skipn_all, Nat.sub_diag in Hn.
  change (skipn 0 s2) with s2 in Hn. cbn [app] in Hn.
  destruct (after_ssh_host s2 (set_group g_host _ m)) eqn:E; [discriminate|].
  rewrite (after_ssh_host_none _ _ m1 E) in Hk. discriminate.
Qed.

(** A match of [ssh_re]: the groups it sets and what they hold. *)
Lemma ssh_match_shape (text : str) (x : groups) :
  re_match ssh_re text = Some x ->
  exists uo h po r ao,
    x = {| m_proto := Some (py "ssh"); m_user := uo; m_host := Some h;
           m_port := po; m_path := Some r; m_archive := ao |}
    /\ match uo with
       | Some u => u <> [] /\ forallb user_char u = true
       | None => forallb host_char h = true -> user_free h
       end
    /\ h <> []
    /\ (contains ":" h = false -> forallb host_char h = true)
    /\ startswith r (py "/") = true /\ colons_ok r
    /\ match ao with
       | Some a => a <> [] /\ forallb archive_char a = true
       | None => True
       end.
Proof.
  rewrite re_match_ssh_re. destruct (startswith text (py "ssh://")); [|discriminate].
  rewrite exec_optional_user. set (t := skipn 6 text).
  set (m0 := set_group g_proto (py "ssh") no_groups).
  destruct (user_at t) eqn:Ut.
  - destruct (exec host_re (skipn (S (run (cls user_char) t)) t) _ after_ssh_host)
      as [y|] eqn:UB.
    + intros H; inversion H; subst y; clear H.
      apply ssh_tail_shape in UB.
      destruct UB as [h [s2 [po [r [ao [_ [Hh [Hc [_ [_ [Hr [Hco [Ha Hx]]]]]]]]]]]]].
      exists (Some (firstn (run (cls user_char) t) t)), h, po, r, ao.
      split; [subst x; destruct po, ao; reflexivity|].
      split; [|auto 10].
      split; [|apply run_cls_firstn; lia].
      unfold user_at in Ut. apply andb_true_iff in Ut; destruct Ut as [Ut _].
      apply Nat.ltb_lt in Ut. pose proof (run_le_length (cls user_char) t).
      destruct t; [simpl in *; lia|].
      destruct (run (cls user_char) (a :: t)); [lia|discriminate].
    + intros H. pose proof H as H0. apply ssh_tail_shape in H.
      destruct H as [h [s2 [po [r [ao [Et [Hh [Hc [Hs2 [Hk [Hr [Hco [Ha Hx]]]]]]]]]]]]].
      exists None, h, po, r, ao.
      split; [subst x; destruct po, ao; reflexivity|].
      split; [|auto 10].
      intros Hf. rewrite Et in Ut, UB.
      eapply user_branch_failed; eassumption.
  - intros H. apply ssh_tail_shape in H.
    destruct H as [h [s2 [po [r [ao [Et [Hh [Hc [Hs2 [Hk [Hr [Hco [Ha Hx]]]]]]]]]]]]].
    exists None, h, po, r, ao.
    split; [subst x; destruct po, ao; reflexivity|].
    split; [|auto 10].
    intros Hf Hu. rewrite Et, (user_at_app _ _ Hf Hs2) in Ut. congruence.
Qed.

(** ** Reading back the compact form *)

Lemma endswith_cons (c d : ascii) (s : str) (x : ascii) :
  endswith (c :: d :: s) [x] = endswith (d :: s) [x].
Proof.
  unfold endswith. cbn [rev]. 
  destruct (rev s ++ [d]) as [|e t] eqn:E.
  - destruct (rev s); discriminate.
  - reflexivity.
Qed.

(** A path without a double colon and without a final colon is taken whole
    by [path_char+] when ["::"] follows. *)
Lemma run_path_before_archive (p a : str) :
  colons_ok p -> endswith p (py ":") = false ->
  run path_ok (p ++ py "::" ++ a) = length p.
Proof.
  induction p as [|c p IH]; intros Hc He; [reflexivity|].
  apply colons_ok_cons in Hc; destruct Hc as [H1 H2].
  destruct p as [|d p].
  - cbn [app run length].
    assert (Hok : path_ok c (py "::" ++ a) = true).
    { unfold endswith in He. cbn in He. rewrite andb_true_r in He.
      unfold path_ok, none_of, contains. cbn [py list_ascii_of_string existsb].
      rewrite He. reflexivity. }
    rewrite Hok. reflexivity.
  - change (py ":") with [":"%char] in He.
    rewrite endswith_cons in He. specialize (IH H2 He).
    rewrite <- app_comm_cons, run_cons, IH.
    rewrite <- app_comm_cons, (path_ok_cons c d _ p), H1. reflexivity.
Qed.

Lemma exec_Plus_path_longest (k : cont) (s : str) (m x : groups) :
  0 < run path_ok s ->
  k (skipn (run path_ok s) s) m = Some x ->
  exec (Plus path_char) s m k = Some x.
Proof.
  intros Hr Hk. rewrite (exec_Plus_single single_path_char).
  destruct s as [|c s']; [simpl in Hr; lia|].
  cbn [run] in Hr, Hk. destruct (path_ok c s'); [|lia].
  apply greedy_longest. exact Hk.
Qed.

Lemma exec_NegLook (r : regex) (s : str) (m : groups) (k : cont) :
  exec (NegLook r) s m k =
  match exec r s m (fun _ m1 => Some m1) with
  | Some _ => None
  | None => k s m
  end.
Proof. reflexivity. Qed.

Lemma after_archive_suffix (p : str) (ao : option str) (m : groups) :
  archive_ok p ao ->
  after_archive (archive_suffix ao) m = Some (add_group g_archive ao m).
Proof.
  destruct ao as [a|]; [|reflexivity]. intros [Ha [Hf _]].
  apply after_archive_name; assumption.
Qed.

Lemma run_path_rendered (p : str) (ao : option str) :
  colons_ok p -> archive_ok p ao ->
  run path_ok (p ++ archive_suffix ao) = length p.
Proof.
  intros Hc Ha. destruct ao as [a|].
  - destruct Ha as [_ [_ He]]. apply run_path_before_archive; assumption.
  - cbn [archive_suffix]. rewrite app_nil_r. exact Hc.
Qed.

(** The scp path and archive of the rendered text. *)
Lemma scp_tail_rendered (p : str) (ao : option str) (m : groups) :
  startswith p (py "/") = true -> startswith p (py "//") = false ->
  colons_ok p -> archive_ok p ao ->
  after_scp_prefix (p ++ archive_suffix ao) m
  = Some (add_group g_archive ao (set_group g_path p m)).
Proof.
  intros H1 H2 Hc Ha. unfold after_scp_prefix, scp_path_re.
  rewrite exec_Seq, exec_NegLook, !exec_Alt, !exec_lit.
  assert (L : startswith (p ++ archive_suffix ao) (py ":") = false
              /\ startswith (p ++ archive_suffix ao) (py "//") = false
              /\ startswith (p ++ archive_suffix ao) (py "ssh://") = false).
  { destruct p as [|c p']; [discriminate|].
    cbn [py list_ascii_of_string] in *. rewrite startswith_cons in H1, H2.
    rewrite andb_true_r in H1. apply Ascii.eqb_eq in H1; subst c.
    cbn [app]. rewrite !startswith_cons. cbn [andb].
    split; [reflexivity|]. split; [|reflexivity].
    change (Ascii.eqb "/" "/") with true in *. cbn [andb] in *.
    destruct p' as [|d p'']; [destruct ao; reflexivity|exact H2]. }
  destruct L as [L1 [L2 L3]]. rewrite L1, L2, L3.
  rewrite exec_Group.
  pose proof (@run_path_rendered p ao Hc Ha) as Hr.
  apply exec_Plus_path_longest.
  - rewrite Hr. destruct p; [discriminate|simpl; lia].
  - rewrite Hr, skipn_app, skipn_all, Nat.sub_diag.
    change (skipn 0 (archive_suffix ao)) with (archive_suffix ao). cbn [app].
    rewrite consumed_app. apply (@after_archive_suffix p ao _ Ha).
Qed.

(** The host of the rendered text. *)
Lemma scp_host_rendered (h rest : str) (m x : groups) :
  h <> [] -> forallb host_char h = true ->
  after_scp_prefix rest (set_group g_host h m) = Some x ->
  exec host_re (h ++ py ":" ++ rest) m after_scp_host = Some x.
Proof.
  intros Hh Hf Hk.
  rewrite exec_host_re by (intros; apply after_scp_host_rejects; assumption).
  rewrite run_cls_app by auto.
  replace (0 <? length h) with true
    by (destruct h; [congruence|reflexivity]).
  rewrite skipn_app, skipn_all, Nat.sub_diag, firstn_app, firstn_all, Nat.sub_diag.
  change (skipn 0 (py ":" ++ rest)) with (py ":" ++ rest). cbn [app firstn].
  rewrite app_nil_r.
  assert (E : after_scp_host (py ":" ++ rest) (set_group g_host h m) = Some x).
  { unfold after_scp_host. rewrite exec_lit, startswith_app. exact Hk. }
  rewrite E. reflexivity.
Qed.

Lemma scp_no_host_at_colon (rest : str) (m : groups) :
  exec host_re (py ":" ++ rest) m after_scp_host = None.
Proof.
  rewrite exec_host_re by (intros; apply after_scp_host_rejects; assumption).
  cbn [py list_ascii_of_string app run cls].
  replace (host_char ":") with false by reflexivity. cbn [Nat.ltb Nat.leb].
  apply bracket_host_needs_bracket. reflexivity.
Qed.

Lemma re_match_scp_re (s : str) :
  re_match scp_re s =
  match exec optional_user_re s no_groups
          (fun s1 m1 => exec host_re s1 m1 after_scp_host) with
  | Some x => Some x
  | None => after_scp_prefix s no_groups
  end.
Proof. reflexivity. Qed.

(** The scp shorthand on a user, a host of host characters, a colon and a
    text that the path and archive patterns read as [p] and [ao]. *)
Lemma scp_reads_parts (uo : option str) (h p : str) (ao : option str) :
  user_ok uo h ->
  h <> [] -> forallb host_char h = true ->
  (forall m, after_scp_prefix (p ++ archive_suffix ao) m
             = Some (add_group g_archive ao (set_group g_path p m))) ->
  re_match scp_re (rendered uo h p ao)
  = Some {| m_proto := None; m_user := uo; m_host := Some h;
            m_port := None; m_path := Some p; m_archive := ao |}.
Proof.
  intros Hu Hh Hf Htail.
  rewrite re_match_scp_re, exec_optional_user. unfold rendered.
  destruct uo as [u|].
  - destruct Hu as [Hu Hfu].
    assert (Hr : run (cls user_char) ((u ++ py "@") ++ h ++ py ":" ++ p ++ archive_suffix ao)
                 = length u).
    { rewrite <- app_assoc. apply run_cls_app; [assumption|reflexivity]. }
    assert (Hat : user_at ((u ++ py "@") ++ h ++ py ":" ++ p ++ archive_suffix ao) = true).
    { unfold user_at. rewrite Hr, <- !app_assoc, skipn_app, skipn_all, Nat.sub_diag.
      replace (0 <? length u) with true by (destruct u; [congruence|reflexivity]).
      reflexivity. }
    rewrite Hat, Hr.
    replace (skipn (S (length u)) ((u ++ py "@") ++ h ++ py ":" ++ p ++ archive_suffix ao))
      with (h ++ py ":" ++ p ++ archive_suffix ao).
    2:{ rewrite <- !app_assoc, skipn_app.
        rewrite (skipn_all2 u) by lia.
        replace (S (length u) - length u) with 1 by lia. reflexivity. }
    replace (firstn (length u) ((u ++ py "@") ++ h ++ py ":" ++ p ++ archive_suffix ao))
      with u.
    2:{ rewrite <- !app_assoc, firstn_app, firstn_all, Nat.sub_diag.
        cbn [firstn]. rewrite app_nil_r. reflexivity. }
    rewrite (@scp_host_rendered h (p ++ archive_suffix ao) _
               (add_group g_archive ao
                  (set_group g_path p
                     (set_group g_host h (set_group g_user u no_groups)))));
      [destruct ao; reflexivity|assumption|assumption|].
    apply Htail.
  - cbn [app].
    assert (Hz : match py ":" ++ p ++ archive_suffix ao with
                 | [] => false
                 | c :: _ => negb (host_char c)
                 end = true) by reflexivity.
    rewrite (@user_at_app h (py ":" ++ p ++ archive_suffix ao) Hf Hz),
      (@run_user_app h (py ":" ++ p ++ archive_suffix ao) Hf Hz).
    assert (Hhost : exec host_re (h ++ py ":" ++ p ++ archive_suffix ao) no_groups
                      after_scp_host
                    = Some {| m_proto := None; m_user := None; m_host := Some h;
                              m_port := None; m_path := Some p; m_archive := ao |}).
    { rewrite (@scp_host_rendered h (p ++ archive_suffix ao) _
                 (add_group g_archive ao
                    (set_group g_path p (set_group g_host h no_groups))));
        [destruct ao; reflexivity|assumption|assumption|].
      apply Htail. }
    destruct (user_at h) eqn:Uh.
    + pose proof (Hu Uh) as Hy. pose proof (user_at_lt _ Uh) as Hlt.
      rewrite skipn_app, Hy.
      replace (S (run (cls user_char) h) - length h) with 0 by lia.
      change (skipn 0 (py ":" ++ p ++ archive_suffix ao))
        with (py ":" ++ p ++ archive_suffix ao).
      cbn [app]. rewrite (scp_no_host_at_colon (p ++ archive_suffix ao)).
      rewrite Hhost. reflexivity.
    + rewrite Hhost. reflexivity.
Qed.

(** The scp shorthand reads the rendered text back into the same parts. *)
Lemma scp_reads_rendered (uo : option str) (h p : str) (ao : option str) :
  user_ok uo h ->
  h <> [] -> forallb host_char h = true ->
  startswith p (py "/") = true -> startswith p (py "//") = false ->
  colons_ok p -> archive_ok p ao ->
  re_match scp_re (rendered uo h p ao)
  = Some {| m_proto := None; m_user := uo; m_host := Some h;
            m_port := None; m_path := Some p; m_archive := ao |}.
Proof.
  intros Hu Hh Hf H1 H2 Hc Ha. apply scp_reads_parts; try assumption.
  intros m. apply scp_tail_rendered; assumption.
Qed.

(** The rendered text starts with no URI scheme. *)
Lemma no_scheme (x w t : str) :
  contains ":" x = false -> contains ":" w = false ->
  startswith t (py "//") = false ->
  startswith (w ++ py ":" ++ t) (x ++ py "://") = false.
Proof.
  intros Hx Hw Ht. revert w Hw. induction x as [|e x IH]; intros w Hw.
  - destruct w as [|c w].
    + cbn [app py list_ascii_of_string] in *. rewrite startswith_cons.
      change (Ascii.eqb ":" ":") with true. exact Ht.
    + apply contains_cons in Hw. destruct Hw as [Hc _].
      cbn [app py list_ascii_of_string]. rewrite startswith_cons.
      rewrite (Ascii.eqb_sym c ":"), Hc. reflexivity.
  - apply contains_cons in Hx. destruct Hx as [He Hx].
    destruct w as [|c w].
    + cbn [app py list_ascii_of_string]. rewrite startswith_cons, He. reflexivity.
    + apply contains_cons in Hw. destruct Hw as [_ Hw].
      cbn [app]. rewrite startswith_cons.
      rewrite (IH Hx w Hw). apply andb_false_r.
Qed.

Lemma rendered_tail_no_double_slash (p : str) (ao : option str) :
  startswith p (py "/") = true -> startswith p (py "//") = false ->
  startswith (p ++ archive_suffix ao) (py "//") = false.
Proof.
  intros H1 H2. destruct p as [|c p']; [discriminate|].
  cbn [py list_ascii_of_string app] in *. rewrite startswith_cons in *.
  rewrite andb_true_r in H1. rewrite H1 in *. cbn [andb] in *.
  destruct p' as [|d p'']; [destruct ao; reflexivity|exact H2].
Qed.

Lemma rendered_no_scheme (x : str) (uo : option str) (h p : str) (ao : option str) :
  contains ":" x = false ->
  match uo with Some u => forallb user_char u = true | None => True end ->
  forallb host_char h = true ->
  startswith p (py "/") = true -> startswith p (py "//") = false ->
  startswith (rendered uo h p ao) (x ++ py "://") = false.
Proof.
  intros Hx Hu Hh H1 H2. unfold rendered. rewrite app_assoc.
  apply no_scheme; [assumption| |apply rendered_tail_no_double_slash; assumption].
  unfold contains. rewrite existsb_app. apply orb_false_iff. split.
  - destruct uo as [u|]; [|reflexivity]. rewrite existsb_app.
    apply orb_false_iff. split; [|reflexivity].
    apply (forallb_contains ":" user_char); [reflexivity|assumption].
  - apply (forallb_contains ":" host_char); [reflexivity|assumption].
Qed.

Lemma re_match_file_re_none (s : str) :
  startswith s (py "file://") = false -> re_match file_re s = None.
Proof.
  intros H. unfold re_match, file_re. rewrite exec_Seq, exec_Group, exec_lit.
  change (py "file://") with (py "file" ++ py "://") in H.
  rewrite startswith_concat in H.
  destruct (startswith s (py "file")); [|reflexivity].
  rewrite exec_Seq, exec_lit. rewrite andb_true_l in H. rewrite H. reflexivity.
Qed.

Lemma __init___parsed (repo : option str) (text : str) (l : Location) :
  _parse text (set_extra_args [] (set_orig text new_Location)) = (true, l) ->
  __init__ repo text = Ok l.
Proof.
  intros H. unfold __init__, parse. cbn [orig set_extra_args set_orig].
  rewrite H. reflexivity.
Qed.

(** ** Hosts in brackets *)

(** The host of a match: host characters, or a bracketed literal. *)
Lemma host_re_shape (s : str) (m x : groups) (k : cont) :
  exec host_re s m k = Some x ->
  exists h s', s = h ++ s'
               /\ (forallb host_char h = true \/ bracketed h)
               /\ k s' (set_group g_host h m) = Some x.
Proof.
  unfold host_re. rewrite exec_Group, exec_Alt.
  change (none_of ":/") with host_char.
  destruct (exec (Plus (Chr host_char)) s m _) as [y|] eqn:E.
  - intros H; inversion H; subst y; clear H.
    apply exec_Plus_cls_inv in E. destruct E as [a [s1 [E1 [Ha [Hf H]]]]].
    subst s. rewrite consumed_app in H. exists a, s1. auto.
  - intros H. apply bracket_host_inv in H.
    destruct H as [y [s' [E1 [Hy [Hf H]]]]].
    exists ("["%char :: y ++ ["]"%char]), s'.
    assert (Es : s = ("["%char :: y ++ ["]"%char]) ++ s').
    { rewrite E1. cbn [app]. rewrite <- app_assoc. reflexivity. }
    split; [assumption|]. split; [right; exists y; auto|].
    rewrite Es in H at 1. rewrite consumed_app in H. exact H.
Qed.

Lemma ssh_host_shape (s : str) (m x : groups) :
  exec host_re s m after_ssh_host = Some x ->
  exists h, m_host x = Some h /\ (forallb host_char h = true \/ bracketed h).
Proof.
  intros H. apply host_re_shape in H. destruct H as [h [s2 [_ [Hh H]]]].
  exists h. split; [|exact Hh].
  apply after_ssh_host_inv in H. destruct H as [_ [s3 [po H]]].
  apply after_abs_path_inv in H. destruct H as [r [s4 [_ [_ [_ H]]]]].
  apply after_archive_inv in H.
  destruct H as [Hx|[a [_ [_ Hx]]]]; subst x; destruct po; reflexivity.
Qed.

Lemma ssh_match_host (text : str) (x : groups) :
  re_match ssh_re text = Some x ->
  exists h, m_host x = Some h /\ (forallb host_char h = true \/ bracketed h).
Proof.
  rewrite re_match_ssh_re. destruct (startswith text (py "ssh://")); [|discriminate].
  rewrite exec_optional_user.
  destruct (user_at (skipn 6 text)).
  - destruct (exec host_re _ _ after_ssh_host) as [y|] eqn:UB.
    + intros H; inversion H; subst y; clear H. apply ssh_host_shape in UB. exact UB.
    + intros H. apply ssh_host_shape in H. exact H.
  - intros H. apply ssh_host_shape in H. exact H.
Qed.

(** *** Double colons *)

Lemma double_colon_cons (c : ascii) (s : str) :
  double_colon (c :: s) = (Ascii.eqb c ":" && startswith s (py ":")) || double_colon s.
Proof. reflexivity. Qed.

Lemma double_colon_app_clear (w s : str) :
  contains ":" w = false -> double_colon (w ++ s) = double_colon s.
Proof.
  induction w as [|c w IH]; intros H; [reflexivity|].
  apply contains_cons in H. destruct H as [Hc Hw].
  cbn [app]. rewrite double_colon_cons, (Ascii.eqb_sym c ":"), Hc. cbn [andb orb].
  apply IH; assumption.
Qed.

Lemma startswith_app_l (u v p : str) :
  startswith u p = true -> startswith (u ++ v) p = true.
Proof.
  revert u; induction p as [|x p IH]; intros u H; [reflexivity|].
  destruct u as [|c u]; [discriminate H|].
  cbn [app]. rewrite startswith_cons in *.
  apply andb_true_iff in H. destruct H as [H1 H2].
  rewrite H1, (IH _ H2). reflexivity.
Qed.

(** A text with a double colon is no run of path characters. *)
Lemma colons_ok_no_double_colon (u v : str) :
  double_colon u = true -> colons_ok (u ++ v) -> False.
Proof.
  induction u as [|c u IH]; intros Hd Hc; [discriminate Hd|].
  cbn [app] in Hc. apply colons_ok_cons in Hc. destruct Hc as [Hp Hc].
  rewrite double_colon_cons in Hd. apply orb_true_iff in Hd.
  destruct Hd as [Hd|Hd]; [|exact (IH Hd Hc)].
  apply andb_true_iff in Hd. destruct Hd as [H1 H2].
  apply Ascii.eqb_eq in H1. subst c.
  unfold path_ok in Hp. rewrite (startswith_app_l u v _ H2) in Hp.
  discriminate Hp.
Qed.

(** *** What the scp path and archive cannot read *)

Lemma contains_app (c : ascii) (a b : str) :
  contains c (a ++ b) = contains c a || contains c b.
Proof. unfold contains. apply existsb_app. Qed.

Lemma exec_Eos_inv (s : str) (m x : groups) (k : cont) :
  exec Eos s m k = Some x -> s = [] \/ s = [newline].
Proof.
  cbn [exec]. destruct s as [|c [|d s']]; [auto| |discriminate].
  destruct (Ascii.eqb c newline) eqn:E; [|discriminate].
  apply Ascii.eqb_eq in E. subst c. auto.
Qed.

Lemma after_archive_no_slash (s : str) (m x : groups) :
  after_archive s m = Some x -> contains "/" s = false.
Proof.
  unfold after_archive, optional_archive_re. rewrite exec_Seq, exec_Opt.
  destruct (exec (Seq (lit "::") _) s m _) as [y|] eqn:E.
  - intros _. rewrite exec_Seq, exec_lit in E.
    destruct (startswith s (py "::")) eqn:S; [|discriminate E].
    apply startswith_split in S.
    rewrite exec_Group in E. apply exec_Plus_cls_inv in E.
    destruct E as [a [s1 [E1 [_ [Hf H]]]]].
    apply exec_Eos_inv in H.
    rewrite S, E1, !contains_app.
    rewrite (forallb_contains "/" (none_of "/") a eq_refl Hf).
    destruct H as [-> | ->]; reflexivity.
  - intros H. apply exec_Eos_inv in H. destruct H as [-> | ->]; reflexivity.
Qed.

Lemma after_scp_prefix_split (s : str) (m x : groups) :
  after_scp_prefix s m = Some x ->
  startswith s (py ":") = false
  /\ exists a s1, s = a ++ s1 /\ colons_ok a /\ contains "/" s1 = false.
Proof.
  unfold after_scp_prefix, scp_path_re. rewrite exec_Seq, exec_NegLook.
  destruct (exec (Alt _ _) s m _) as [y|] eqn:N; [discriminate|].
  rewrite exec_Alt, exec_lit in N.
  rewrite exec_Group. intros H. split.
  - destruct (startswith s (py ":")); [discriminate N|reflexivity].
  - apply exec_Plus_path_inv in H. destruct H as [a [s1 [E [_ [Hc H]]]]].
    exists a, s1. split; [exact E|]. split; [exact Hc|].
    eapply after_archive_no_slash; exact H.
Qed.

Lemma slash_in_prefix (v r a s1 : str) :
  v ++ "/"%char :: r = a ++ s1 -> contains "/" s1 = false ->
  exists a', a = v ++ "/"%char :: a'.
Proof.
  revert a; induction v as [|c v IH]; intros a E Hn.
  - destruct a as [|d a].
    + cbn [app] in E. subst s1. discriminate Hn.
    + cbn [app] in E. inversion E; subst. exists a. reflexivity.
  - destruct a as [|d a].
    + cbn [app] in E. subst s1. rewrite contains_cons_eq, contains_app in Hn.
      cbn in Hn. rewrite !orb_true_r in Hn. discriminate Hn.
    + cbn [app] in E. inversion E; subst.
      destruct (IH a H1 Hn) as [a' ->]. exists a'. reflexivity.
Qed.

(** Behind the first colon of a host with a double colon the scp path
    cannot start. *)
Lemma scp_tail_none (t rest : str) (m : groups) :
  startswith t (py ":") = true \/ double_colon t = true ->
  after_scp_prefix (t ++ ":"%char :: "/"%char :: rest) m = None.
Proof.
  intros Ht.
  destruct (after_scp_prefix (t ++ ":"%char :: "/"%char :: rest) m) as [x|] eqn:E;
    [exfalso|reflexivity].
  apply after_scp_prefix_split in E. destruct E as [Hs [a [s1 [E [Hc Hn]]]]].
  destruct Ht as [Ht|Ht].
  - rewrite (startswith_app_l t _ _ Ht) in Hs. discriminate Hs.
  - assert (E' : (t ++ [":"%char]) ++ "/"%char :: rest = a ++ s1).
    { rewrite <- app_assoc. exact E. }
    destruct (slash_in_prefix _ _ _ _ E' Hn) as [a' Ea]. subst a.
    rewrite <- app_assoc in Hc.
    exact (colons_ok_no_double_colon t _ Ht Hc).
Qed.

(** *** The scp shorthand on a host in brackets *)

Lemma hex_user_char (c : ascii) :
  hex_colon_dot c = true -> Ascii.eqb c ":" = false -> user_char c = true.
Proof.
  destruct c as [[] [] [] [] [] [] [] []]; intros H1 H2;
    try reflexivity; try discriminate H1; discriminate H2.
Qed.

(** The part of a bracketed host before its first colon, and the rest. *)
Lemma bracket_split (y : str) :
  forallb hex_colon_dot y = true -> contains ":" y = true ->
  exists w t, y = w ++ ":"%char :: t
              /\ forallb user_char w = true /\ forallb hex_colon_dot t = true.
Proof.
  induction y as [|c y IH]; intros Hf Hc; [discriminate Hc|].
  cbn [forallb] in Hf. apply andb_true_iff in Hf. destruct Hf as [Hf1 Hf2].
  rewrite contains_cons_eq in Hc.
  destruct (Ascii.eqb ":" c) eqn:E.
  - apply Ascii.eqb_eq in E. subst c. exists [], y. auto.
  - cbn [orb] in Hc. destruct (IH Hf2 Hc) as [w [t [Ey [Hw Ht]]]].
    exists (c :: w), t. split; [rewrite Ey; reflexivity|]. split; [|exact Ht].
    cbn [forallb]. rewrite Hw, andb_true_r. apply hex_user_char; [exact Hf1|].
    rewrite Ascii.eqb_sym. exact E.
Qed.

Lemma forallb_user_host (w : str) :
  forallb user_char w = true -> forallb host_char w = true.
Proof.
  intros H. apply forallb_forall. intros c Hc. apply user_char_host_char.
  rewrite forallb_forall in H. apply H; exact Hc.
Qed.

(** A bracketed host with a colon, cut at its first colon. *)
Lemma bracketed_cut (h : str) :
  bracketed h -> contains ":" h = true ->
  exists y w t,
    h = "["%char :: y ++ ["]"%char] /\ y <> [] /\ forallb hex_colon_dot y = true
    /\ h = w ++ ":"%char :: t
    /\ w <> [] /\ forallb user_char w = true
    /\ contains "/" t = false /\ t <> []
    /\ double_colon h = startswith t (py ":") || double_colon t.
Proof.
  intros [y [Eh [Hy Hf]]] Hc.
  assert (Hcy : contains ":" y = true).
  { rewrite Eh, contains_cons_eq, contains_app in Hc.
    cbn [orb] in Hc. change (Ascii.eqb ":" "[") with false in Hc. cbn [orb] in Hc.
    destruct (contains ":" y); [reflexivity|]. discriminate Hc. }
  destruct (bracket_split y Hf Hcy) as [w [t [Ey [Hw Ht]]]].
  exists y, ("["%char :: w), (t ++ ["]"%char]).
  split; [exact Eh|]. split; [exact Hy|]. split; [exact Hf|].
  split; [rewrite Eh, Ey; cbn [app]; rewrite <- app_assoc; reflexivity|].
  split; [discriminate|]. split; [cbn [forallb]; rewrite Hw; reflexivity|].
  split.
  { rewrite contains_app. cbn.
    rewrite (forallb_contains "/" hex_colon_dot t eq_refl Ht). reflexivity. }
  split; [destruct t; discriminate|].
  rewrite Eh, Ey.
  replace ("["%char :: (w ++ ":"%char :: t) ++ ["]"%char])
    with (("["%char :: w) ++ (":"%char :: t) ++ ["]"%char])
    by (cbn [app]; rewrite <- app_assoc; reflexivity).
  rewrite double_colon_app_clear.
  - cbn [app]. rewrite double_colon_cons. reflexivity.
  - apply (forallb_contains ":" user_char); [reflexivity|].
    cbn [forallb]. rewrite Hw. reflexivity.
Qed.

Lemma double_colon_tail (t : str) :
  startswith t (py ":") || double_colon t = true ->
  startswith t (py ":") = true \/ double_colon t = true.
Proof. intros H. apply orb_true_iff in H. exact H. Qed.

(** [host_re] before the colon of the scp shorthand reads a bracketed host
    with a double colon whole: the alternative of plain host characters
    stops at the first colon, where the path cannot start. *)
Lemma scp_host_bracket_rendered (h rest : str) (m x : groups) :
  bracketed h -> contains ":" h = true -> double_colon h = true ->
  after_scp_prefix ("/"%char :: rest) (set_group g_host h m) = Some x ->
  exec host_re (h ++ py ":" ++ "/"%char :: rest) m after_scp_host = Some x.
Proof.
  intros Hb Hc Hd Hk.
  destruct (bracketed_cut Hb Hc) as [y [w [t [Eh [Hy [Hf [Ew [Hw [Hu [Hs [Ht Ed]]]]]]]]]]].
  rewrite Ed in Hd. apply double_colon_tail in Hd.
  rewrite exec_host_re by (intros; apply after_scp_host_rejects; assumption).
  assert (Hr : run (cls host_char) (h ++ py ":" ++ "/"%char :: rest) = length w).
  { rewrite Ew, <- app_assoc. apply run_cls_app; [|reflexivity].
    apply forallb_user_host; exact Hu. }
  rewrite Hr.
  replace (0 <? length w) with true by (destruct w; [congruence|reflexivity]).
  assert (E1 : after_scp_host (skipn (length w) (h ++ py ":" ++ "/"%char :: rest))
                 (set_group g_host
                    (firstn (length w) (h ++ py ":" ++ "/"%char :: rest)) m) = None).
  { rewrite Ew at 1. rewrite <- app_assoc, skipn_app, skipn_all, Nat.sub_diag.
    cbn [skipn app]. unfold after_scp_host. rewrite exec_lit.
    cbn [py list_ascii_of_string startswith length skipn].
    rewrite Ascii.eqb_refl. cbn [andb].
    apply scp_tail_none. exact Hd. }
  rewrite E1.
  unfold bracket_host. rewrite exec_Seq, exec_lit.
  assert (S1 : startswith (h ++ py ":" ++ "/"%char :: rest) (py "[") = true)
    by (rewrite Eh; reflexivity).
  assert (S2 : skipn (length (py "[")) (h ++ py ":" ++ "/"%char :: rest)
               = (y ++ ["]"%char]) ++ ":"%char :: "/"%char :: rest)
    by (rewrite Eh; reflexivity).
  rewrite S1, S2, exec_Seq.
  rewrite exec_Plus_cls.
  2:{ intros c s' m' Hcc. apply lit1_rejects. apply hex_not_bracket; exact Hcc. }
  assert (Hr2 : run (cls hex_colon_dot)
                  ((y ++ ["]"%char]) ++ ":"%char :: "/"%char :: rest) = length y).
  { rewrite <- app_assoc. apply run_cls_app; [exact Hf|reflexivity]. }
  rewrite Hr2.
  replace (0 <? length y) with true by (destruct y; [congruence|reflexivity]).
  rewrite <- app_assoc, skipn_app, skipn_all, Nat.sub_diag.
  cbn [skipn app]. rewrite exec_lit.
  cbn [py list_ascii_of_string startswith length skipn].
  rewrite Ascii.eqb_refl. cbn [andb].
  unfold after_scp_host. rewrite exec_lit.
  cbn [py list_ascii_of_string startswith length skipn].
  rewrite Ascii.eqb_refl. cbn [andb].
  change (h ++ [":"%char] ++ "/"%char :: rest)
    with (h ++ ":"%char :: "/"%char :: rest).
  rewrite consumed_app. exact Hk.
Qed.

Lemma starts_with_slash (p : str) :
  startswith p (py "/") = true -> exists p', p = "/"%char :: p'.
Proof.
  destruct p as [|c p']; [discriminate|].
  cbn [py list_ascii_of_string]. rewrite startswith_cons, andb_true_r.
  intros H. apply Ascii.eqb_eq in H. subst c. exists p'. reflexivity.
Qed.

(** The scp shorthand reads the rendered text of a bracketed host with a
    double colon back into the same parts. *)
Lemma scp_reads_rendered_bracket (uo : option str) (h p : str) (ao : option str) :
  match uo with Some u => u <> [] /\ forallb user_char u = true | None => True end ->
  bracketed h -> contains ":" h = true -> double_colon h = true ->
  startswith p (py "/") = true -> startswith p (py "//") = false ->
  colons_ok p -> archive_ok p ao ->
  re_match scp_re (rendered uo h p ao)
  = Some {| m_proto := None; m_user := uo; m_host := Some h;
            m_port := None; m_path := Some p; m_archive := ao |}.
Proof.
  intros Hu Hb Hc Hd H1 H2 Hco Ha.
  assert (Hhost : forall m,
            exec host_re (h ++ py ":" ++ p ++ archive_suffix ao) m after_scp_host
            = Some (add_group g_archive ao (set_group g_path p (set_group g_host h m)))).
  { intros m. pose proof (@scp_tail_rendered p ao (set_group g_host h m) H1 H2 Hco Ha) as Hk.
    destruct (starts_with_slash _ H1) as [p' Ep]. rewrite Ep in Hk |- *.
    cbn [app] in Hk |- *.
    apply (@scp_host_bracket_rendered h (p' ++ archive_suffix ao) m _ Hb Hc Hd).
    exact Hk. }
  rewrite re_match_scp_re, exec_optional_user. unfold rendered.
  destruct uo as [u|].
  - destruct Hu as [Hu Hfu].
    assert (Hr : run (cls user_char) ((u ++ py "@") ++ h ++ py ":" ++ p ++ archive_suffix ao)
                 = length u).
    { rewrite <- app_assoc. apply run_cls_app; [assumption|reflexivity]. }
    assert (Hat : user_at ((u ++ py "@") ++ h ++ py ":" ++ p ++ archive_suffix ao) = true).
    { unfold user_at. rewrite Hr, <- !app_assoc, skipn_app, skipn_all, Nat.sub_diag.
      replace (0 <? length u) with true by (destruct u; [congruence|reflexivity]).
      reflexivity. }
    rewrite Hat, Hr.
    replace (skipn (S (length u)) ((u ++ py "@") ++ h ++ py ":" ++ p ++ archive_suffix ao))
      with (h ++ py ":" ++ p ++ archive_suffix ao).
    2:{ rewrite <- !app_assoc, skipn_app.
        rewrite (skipn_all2 u) by lia.
        replace (S (length u) - length u) with 1 by lia. reflexivity. }
    replace (firstn (length u) ((u ++ py "@") ++ h ++ py ":" ++ p ++ archive_suffix ao))
      with u.
    2:{ rewrite <- !app_assoc, firstn_app, firstn_all, Nat.sub_diag.
        cbn [firstn]. rewrite app_nil_r. reflexivity. }
    rewrite Hhost. destruct ao; reflexivity.
  - cbn [app].
    destruct (bracketed_cut Hb Hc) as [y [w [t [_ [_ [_ [Ew [Hw [Hfu _]]]]]]]]].
    assert (Hat : user_at (h ++ py ":" ++ p ++ archive_suffix ao) = false).
    { unfold user_at. rewrite Ew, <- !app_assoc.
      rewrite (@run_cls_app user_char w _ Hfu) by reflexivity.
      rewrite skipn_app, skipn_all, Nat.sub_diag. cbn [skipn app].
      apply andb_false_r. }
    rewrite Hat, Hhost. destruct ao; reflexivity.
Qed.

Lemma startswith_slash_free (t z : str) :
  t <> [] -> contains "/" t = false -> startswith (t ++ z) (py "//") = false.
Proof.
  intros Ht Hc. destruct t as [|c t]; [congruence|].
  rewrite contains_cons_eq in Hc. apply orb_false_iff in Hc. destruct Hc as [Hc _].
  cbn [app py list_ascii_of_string]. rewrite startswith_cons.
  rewrite Ascii.eqb_sym, Hc. reflexivity.
Qed.

(** The rendered text of a bracketed host starts with no URI scheme. *)
Lemma rendered_bracket_no_scheme (x : str) (uo : option str) (h p : str)
    (ao : option str) :
  contains ":" x = false ->
  match uo with Some u => forallb user_char u = true | None => True end ->
  bracketed h -> contains ":" h = true ->
  startswith (rendered uo h p ao) (x ++ py "://") = false.
Proof.
  intros Hx Hu Hb Hc.
  destruct (bracketed_cut Hb Hc) as [y [w [t [_ [_ [_ [Ew [_ [Hfw [Hs [Ht _]]]]]]]]]]].
  unfold rendered. rewrite Ew.
  replace (match uo with Some u => u ++ py "@" | None => [] end
           ++ (w ++ ":"%char :: t) ++ py ":" ++ p ++ archive_suffix ao)
    with ((match uo with Some u => u ++ py "@" | None => [] end ++ w)
          ++ py ":" ++ t ++ py ":" ++ p ++ archive_suffix ao)
    by (rewrite <- !app_assoc; reflexivity).
  apply no_scheme; [assumption| |apply startswith_slash_free; assumption].
  rewrite contains_app. apply orb_false_iff. split.
  - destruct uo as [u|]; [|reflexivity]. rewrite contains_app.
    apply orb_false_iff. split; [|reflexivity].
    apply (forallb_contains ":" user_char); [reflexivity|assumption].
  - apply (forallb_contains ":" user_char); [reflexivity|assumption].
Qed.

(** *** Hosts whose colons stand apart *)

Lemma double_colon_false_cons (c : ascii) (s : str) :
  double_colon (c :: s) = false ->
  (Ascii.eqb c ":" = true -> startswith s (py ":") = false)
  /\ double_colon s = false.
Proof.
  rewrite double_colon_cons. intros H. apply orb_false_iff in H.
  destruct H as [H1 H2]. split; [|exact H2].
  intros E. rewrite E in H1. exact H1.
Qed.

Lemma colons_apart_ok (s : str) : double_colon s = false -> colons_ok s.
Proof.
  induction s as [|c s IH]; intros H; [reflexivity|].
  apply double_colon_false_cons in H. destruct H as [H1 H2].
  apply colons_ok_cons. split; [|exact (IH H2)].
  unfold path_ok. destruct (Ascii.eqb c ":") eqn:E.
  - rewrite (H1 eq_refl). apply orb_true_r.
  - apply orb_true_iff. left. unfold none_of, contains. simpl. rewrite E. reflexivity.
Qed.

Lemma colons_ok_app (a b : str) :
  colons_ok a -> colons_ok b -> endswith a (py ":") = false ->
  colons_ok (a ++ b).
Proof.
  intros Ha Hb. induction a as [|c a IH]; intros He; [exact Hb|].
  apply colons_ok_cons in Ha. destruct Ha as [H1 H2].
  cbn [app]. apply colons_ok_cons. destruct a as [|d a].
  - split; [|exact Hb]. cbn [app].
    unfold endswith in He. cbn in He. rewrite andb_true_r in He.
    unfold path_ok. apply orb_true_iff. left.
    unfold none_of, contains. simpl. rewrite He. reflexivity.
  - change (py ":") with [":"%char] in He. rewrite endswith_cons in He.
    split; [|exact (IH H2 He)].
    cbn [app]. rewrite (path_ok_cons c d _ a). exact H1.
Qed.

Lemma endswith_app (a p : str) (x : ascii) :
  p <> [] -> endswith (a ++ p) [x] = endswith p [x].
Proof.
  intros Hp. unfold endswith. rewrite rev_app_distr.
  destruct (rev p) as [|e r] eqn:E.
  - apply (f_equal (@rev ascii)) in E. rewrite rev_involutive in E.
    cbn in E. congruence.
  - cbn [app rev startswith]. reflexivity.
Qed.

Lemma hex_first_char (c : ascii) :
  hex_colon_dot c = true ->
  Ascii.eqb c "/" = false /\ Ascii.eqb c "s" = false.
Proof.
  destruct c as [[] [] [] [] [] [] [] []]; intros H;
    try discriminate H; split; reflexivity.
Qed.

(** The scp path and archive of a text whose first character opens none of
    the refused prefixes. *)
Lemma scp_tail_parts (c : ascii) (q : str) (ao : option str) (m : groups) :
  Ascii.eqb c ":" = false -> Ascii.eqb c "/" = false -> Ascii.eqb c "s" = false ->
  colons_ok (c :: q) -> archive_ok (c :: q) ao ->
  after_scp_prefix ((c :: q) ++ archive_suffix ao) m
  = Some (add_group g_archive ao (set_group g_path (c :: q) m)).
Proof.
  intros E1 E2 E3 Hc Ha. unfold after_scp_prefix, scp_path_re.
  rewrite exec_Seq, exec_NegLook, !exec_Alt, !exec_lit.
  cbn [app py list_ascii_of_string]. rewrite !startswith_cons, E1, E2, E3.
  cbn [andb]. rewrite exec_Group.
  pose proof (@run_path_rendered (c :: q) ao Hc Ha) as Hr.
  cbn [app] in Hr.
  apply exec_Plus_path_longest.
  - rewrite Hr. simpl; lia.
  - rewrite Hr. 
    change (c :: q ++ archive_suffix ao) with ((c :: q) ++ archive_suffix ao).
    rewrite skipn_app, skipn_all, Nat.sub_diag.
    change (skipn 0 (archive_suffix ao)) with (archive_suffix ao). cbn [app].
    change (c :: q ++ archive_suffix ao) with ((c :: q) ++ archive_suffix ao).
    rewrite consumed_app. apply (@after_archive_suffix (c :: q) ao _ Ha).
Qed.

(** A bracketed host whose colons stand apart, cut at the first of them:
    the part before it holds user characters only, and the part behind it,
    with a colon and an absolute path, reads as a path. *)
Lemma bracketed_apart_cut (h p : str) (ao : option str) :
  bracketed h -> contains ":" h = true -> double_colon h = false ->
  startswith p (py "/") = true -> colons_ok p -> archive_ok p ao ->
  exists w c q,
    h ++ py ":" ++ p = w ++ py ":" ++ c :: q
    /\ (exists t, h = w ++ ":"%char :: t)
    /\ w <> [] /\ forallb user_char w = true
    /\ Ascii.eqb c ":" = false /\ Ascii.eqb c "/" = false
    /\ Ascii.eqb c "s" = false
    /\ colons_ok (c :: q) /\ archive_ok (c :: q) ao.
Proof.
  intros [y [Eh [Hy Hf]]] Hc Hd H1 Hco Ha.
  assert (Hcy : contains ":" y = true).
  { rewrite Eh, contains_cons_eq, contains_app in Hc.
    change (Ascii.eqb ":" "[") with false in Hc. cbn [orb] in Hc.
    destruct (contains ":" y); [reflexivity|]. discriminate Hc. }
  destruct (bracket_split y Hf Hcy) as [w [t [Ey [Hw Ht]]]].
  assert (Eh' : h = ("["%char :: w) ++ ":"%char :: t ++ ["]"%char]).
  { rewrite Eh, Ey. cbn [app]. rewrite <- app_assoc. reflexivity. }
  assert (Hw' : forallb user_char ("["%char :: w) = true)
    by (cbn [forallb]; rewrite Hw; reflexivity).
  assert (Hd' : double_colon (":"%char :: t ++ ["]"%char]) = false).
  { rewrite Eh', double_colon_app_clear in Hd; [exact Hd|].
    apply (forallb_contains ":" user_char); [reflexivity|exact Hw']. }
  apply double_colon_false_cons in Hd'. destruct Hd' as [Hd1 Hd2].
  specialize (Hd1 eq_refl).
  assert (Hfirst : exists c q, t ++ ["]"%char] = c :: q
                               /\ Ascii.eqb c ":" = false
                               /\ Ascii.eqb c "/" = false
                               /\ Ascii.eqb c "s" = false).
  { destruct t as [|c t'].
    - exists "]"%char, []. repeat split; reflexivity.
    - exists c, (t' ++ ["]"%char]). split; [reflexivity|].
      cbn [forallb] in Ht. apply andb_true_iff in Ht. destruct Ht as [Hh _].
      destruct (hex_first_char _ Hh) as [F1 F2].
      split; [|split; assumption].
      cbn [app py list_ascii_of_string] in Hd1. rewrite startswith_cons in Hd1.
      rewrite andb_true_r in Hd1. exact Hd1. }
  destruct Hfirst as [c [q [Et [F0 [F1 F2]]]]].
  destruct (starts_with_slash _ H1) as [p' Ep].
  assert (Hp : p <> []) by (rewrite Ep; discriminate).
  exists ("["%char :: w), c, (q ++ py ":" ++ p).
  assert (Hq : colons_ok ((c :: q) ++ ":"%char :: p)).
  { rewrite <- Et. apply colons_ok_app.
    - apply colons_apart_ok. exact Hd2.
    - apply colons_ok_cons. split; [|exact Hco].
      unfold path_ok. rewrite Ep. reflexivity.
    - unfold endswith. rewrite rev_app_distr. reflexivity. }
  split.
  { rewrite Eh'. change (c :: q ++ py ":" ++ p) with ((c :: q) ++ py ":" ++ p).
    rewrite <- Et, <- !app_assoc. cbn [app]. rewrite <- app_assoc. reflexivity. }
  split; [exists (t ++ ["]"%char]); exact Eh'|].
  split; [discriminate|]. split; [exact Hw'|].
  split; [exact F0|]. split; [exact F1|]. split; [exact F2|].
  split; [exact Hq|].
  destruct ao as [a|]; [|exact I]. destruct Ha as [Ha1 [Ha2 Ha3]].
  split; [exact Ha1|]. split; [exact Ha2|].
  replace (c :: q ++ py ":" ++ p) with ((c :: q ++ py ":") ++ p)
    by (cbn [app]; rewrite <- app_assoc; reflexivity).
  change (py ":") with [":"%char] in Ha3 |- *. rewrite endswith_app; assumption.
Qed.

Lemma user_chars_no_at (w : str) : forallb user_char w = true -> user_at w = false.
Proof.
  intros H. unfold user_at.
  pose proof (@run_cls_app user_char w [] H eq_refl) as Hr.
  rewrite app_nil_r in Hr. rewrite Hr, skipn_all. apply andb_false_r.
Qed.

(** ** The round trip through the canonical string *)

(** C1, amended.  For every input the SSH-URI grammar accepts whose
    location has no port, a host that holds no colon or holds two colons in
    a row, a path that does not start with two slashes and, when an archive
    is named, a path that does not end with a colon: the location renders
    to a string, the string resolves again, and the second location has the
    same protocol, user, host, port, path and archive as the first. *)
Theorem ssh_round_trip (repo : option str) (text : str) (l1 : Location) :
  accepts ssh_re text = true ->
  __init__ repo text = Ok l1 ->
  reads_back l1 = true ->
  exists s l2,
    __str__ l1 = Ok s /\ __init__ repo s = Ok l2 /\ same_location l2 l1.
Proof.
  intros Hm Hi Hsafe. unfold accepts in Hm.
  destruct (re_match ssh_re text) as [x|] eqn:Ex; [clear Hm|discriminate].
  rewrite (@__init___parsed repo text _ (@_parse_ssh text x _ Ex)) in Hi.
  inversion Hi; subst l1; clear Hi.
  destruct (@ssh_match_host text x Ex) as [h0 [Eh0 Hshape]].
  destruct (@ssh_match_shape text x Ex) as [uo [h [po [r [ao [Hx [Hu [Hh [Hc [Hr [Hco Ha]]]]]]]]]]].
  subst x. cbn [m_host] in Eh0. inversion Eh0; subst h0; clear Eh0.
  unfold from_ssh, norm_path_group in *.
  cbn [m_proto m_user m_host m_port m_path m_archive option_map] in *.
  unfold reads_back in Hsafe.
  cbn [port _host path archive set_archive set_path set_port set_host set_user
         set_proto set_extra_args set_orig new_Location] in Hsafe.
  destruct (port_of po) eqn:Ep; [discriminate|].
  apply andb_true_iff in Hsafe; destruct Hsafe as [Hs1 Hs2]. cbn [andb] in Hs1.
  apply andb_true_iff in Hs2; destruct Hs2 as [Hs2 Hs3].
  apply negb_true_iff in Hs2.
  destruct (@normpath_special_abs r Hr Hco) as [Hp1 [Hp2 Hp3]].
  specialize (Hp3 Hs2).
  set (p := normpath_special r) in *.
  assert (Hfu : match uo with Some u => forallb user_char u = true | None => True end)
    by (destruct uo; [exact (proj2 Hu)|exact I]).
  assert (Hao : archive_ok p ao).
  { destruct ao as [a|]; [|exact I]. destruct Ha as [Ha1 Ha2].
    apply negb_true_iff in Hs3. repeat split; assumption. }
  assert (Hread :
            re_match scp_re (rendered uo h p ao)
            = Some {| m_proto := None; m_user := uo; m_host := Some h;
                      m_port := None; m_path := Some p; m_archive := ao |}
            /\ forall x, contains ":" x = false ->
                         startswith (rendered uo h p ao) (x ++ py "://") = false).
  { destruct (contains ":" h) eqn:Ech.
    - cbn [negb orb] in Hs1. destruct Hshape as [Hf|Hb].
      + rewrite (forallb_contains ":" host_char h eq_refl Hf) in Ech. discriminate Ech.
      + split.
        * apply scp_reads_rendered_bracket; try assumption.
          destruct uo; [exact Hu|exact I].
        * intros x Hx. apply rendered_bracket_no_scheme; assumption.
    - specialize (Hc eq_refl). split.
      + apply scp_reads_rendered; try assumption.
        destruct uo; [exact Hu|exact (Hu Hc)].
      + intros x Hx. apply rendered_no_scheme; assumption. }
  destruct Hread as [Hscp Hscheme].
  exists (rendered uo h p ao).
  exists {| orig := rendered uo h p ao; extra_args := [];
            proto := Some (py "ssh"); user := uo; _host := Some h; port := None;
            path := Some p; archive := ao |}.
  split; [|split].
  - unfold __str__.
    cbn [proto user _host port path archive set_archive set_path set_port set_host
           set_user set_proto set_extra_args set_orig new_Location].
    rewrite ?Ep. replace (eqb_str (py "ssh") (py "file")) with false by reflexivity.
    replace (eqb_str (py "ssh") (py "ssh")) with true by reflexivity.
    unfold rendered, archive_suffix, format_opt.
    destruct ao as [a|]; rewrite <- ?app_assoc, ?app_nil_r; reflexivity.
  - apply __init___parsed.
    rewrite (@_parse_scp (rendered uo h p ao)
               {| m_proto := None; m_user := uo; m_host := Some h;
                  m_port := None; m_path := Some p; m_archive := ao |}).
    + unfold from_scp, norm_path_group.
      cbn [m_proto m_user m_host m_port m_path m_archive option_map].
      rewrite Hp3. destruct h as [|c h']; [congruence|]. reflexivity.
    + rewrite re_match_ssh_re.
      replace (startswith (rendered uo h p ao) (py "ssh://")) with false;
        [reflexivity|].
      symmetry. apply (Hscheme (py "ssh")). reflexivity.
    + apply re_match_file_re_none.
      apply (Hscheme (py "file")). reflexivity.
    + exact Hscp.
  - unfold same_location.
    cbn [proto user _host port path archive set_archive set_path set_port set_host
           set_user set_proto set_extra_args set_orig new_Location].
    rewrite ?Ep. repeat split; reflexivity.
Qed.

Lemma ssh_round_trip_witness :
  exists s l2,
    __str__ {| orig := py "ssh://user@[fe80::1]/path::arc"; extra_args := [];
               proto := Some (py "ssh"); user := Some (py "user");
               _host := Some (py "[fe80::1]"); port := None;
               path := Some (py "/path"); archive := Some (py "arc") |} = Ok s
    /\ __init__ None s = Ok l2
    /\ same_location l2
         {| orig := py "ssh://user@[fe80::1]/path::arc"; extra_args := [];
            proto := Some (py "ssh"); user := Some (py "user");
            _host := Some (py "[fe80::1]"); port := None;
            path := Some (py "/path"); archive := Some (py "arc") |}.
Proof.
  apply (@ssh_round_trip None (py "ssh://user@[fe80::1]/path::arc")).
  - vm_compute; reflexivity.
  - vm_compute; reflexivity.
  - vm_compute; reflexivity.
Defined.

(** C1 fails as stated, in three ways.  A path that normalises to two
    leading slashes renders to a text the scp shorthand reads as a file
    path; a path that ends with a colon, followed by an archive, comes back
    with the colon moved into the archive; a bracketed host whose colons
    stand apart comes back cut at the first of them. *)
Lemma ssh_round_trip_counterexample :
  (accepts ssh_re (py "ssh://host//x") = true
   /\ exists l1 l2,
       round_trip None (py "ssh://host//x") = Some (l1, py "host://x", l2)
       /\ proto l1 = Some (py "ssh") /\ proto l2 = Some (py "file"))
  /\ (accepts ssh_re (py "ssh://host/p:/.::a") = true
      /\ exists l1 l2,
          round_trip None (py "ssh://host/p:/.::a") = Some (l1, py "host:/p:::a", l2)
          /\ archive l1 = Some (py "a") /\ archive l2 = Some (py ":a"))
  /\ (accepts ssh_re (py "ssh://[1:2]/p") = true
      /\ exists l1 l2,
          round_trip None (py "ssh://[1:2]/p") = Some (l1, py "[1:2]:/p", l2)
          /\ _host l1 = Some (py "[1:2]") /\ _host l2 = Some (py "[1")).
Proof.
  repeat split; try (vm_compute; reflexivity);
    eexists; eexists; (split; [vm_compute; reflexivity|split; reflexivity]).
Qed.

(** *** Hosts that come back cut *)

(** A host whose colons stand apart does not read back.  For every input
    the SSH-URI grammar accepts whose location has no port, a host with a
    colon but no two colons in a row and, when an archive is named, a path
    that does not end with a colon: the rendered string resolves to a
    location whose host is the part of the first host before its first
    colon. *)
Lemma colon_host_comes_back_cut (repo : option str) (text : str) (l1 : Location)
    (h : str) :
  accepts ssh_re text = true ->
  __init__ repo text = Ok l1 ->
  port l1 = None -> _host l1 = Some h ->
  contains ":" h = true -> double_colon h = false ->
  (forall p, path l1 = Some p -> archive l1 <> None ->
             endswith p (py ":") = false) ->
  exists s l2 w t,
    __str__ l1 = Ok s /\ __init__ repo s = Ok l2
    /\ h = w ++ ":"%char :: t /\ _host l2 = Some w.
Proof.
  intros Hm Hi Hport Hhost Hcol Hapart Hend. unfold accepts in Hm.
  destruct (re_match ssh_re text) as [x|] eqn:Ex; [clear Hm|discriminate].
  rewrite (@__init___parsed repo text _ (@_parse_ssh text x _ Ex)) in Hi.
  inversion Hi; subst l1; clear Hi.
  destruct (@ssh_match_host text x Ex) as [h0 [Eh0 Hshape]].
  destruct (@ssh_match_shape text x Ex) as [uo [h1 [po [r [ao [Hx [Hu [Hh [Hc [Hr [Hco Ha]]]]]]]]]]].
  subst x. cbn [m_host] in Eh0. inversion Eh0; subst h0; clear Eh0.
  unfold from_ssh, norm_path_group in *.
  cbn [m_proto m_user m_host m_port m_path m_archive option_map] in *.
  cbn [port _host path archive set_archive set_path set_port set_host set_user
         set_proto set_extra_args set_orig new_Location] in Hport, Hhost, Hend.
  inversion Hhost; subst h1; clear Hhost.
  destruct (@normpath_special_abs r Hr Hco) as [Hp1 [Hp2 _]].
  set (p := normpath_special r) in *.
  assert (Hb : bracketed h).
  { destruct Hshape as [Hf|Hb]; [|exact Hb].
    rewrite (forallb_contains ":" host_char h eq_refl Hf) in Hcol. discriminate Hcol. }
  assert (Hao : archive_ok p ao).
  { destruct ao as [a|]; [|exact I]. destruct Ha as [Ha1 Ha2].
    repeat split; try assumption. apply Hend; [reflexivity|discriminate]. }
  destruct (@bracketed_apart_cut h p ao Hb Hcol Hapart Hp1 Hp2 Hao)
    as [w [c [q [E [[t Et] [Hw [Hfw [F0 [F1 [F2 [Hq Haq]]]]]]]]]]].
  assert (Er : rendered uo h p ao = rendered uo w (c :: q) ao).
  { unfold rendered. f_equal.
    replace (h ++ py ":" ++ p ++ archive_suffix ao)
      with ((h ++ py ":" ++ p) ++ archive_suffix ao)
      by (rewrite <- !app_assoc; reflexivity).
    rewrite E, <- !app_assoc. reflexivity. }
  assert (Hfu : match uo with Some u => forallb user_char u = true | None => True end)
    by (destruct uo; [exact (proj2 Hu)|exact I]).
  assert (Hscheme : forall x, contains ":" x = false ->
                      startswith (rendered uo w (c :: q) ao) (x ++ py "://") = false).
  { intros x Hx. unfold rendered. rewrite app_assoc. apply no_scheme; [exact Hx| |].
    - rewrite contains_app. apply orb_false_iff. split.
      + destruct uo as [u|]; [|reflexivity]. rewrite contains_app.
        apply orb_false_iff. split; [|reflexivity].
        apply (forallb_contains ":" user_char); [reflexivity|assumption].
      + apply (forallb_contains ":" user_char); [reflexivity|assumption].
    - cbn [app py list_ascii_of_string]. rewrite startswith_cons, F1. reflexivity. }
  exists (rendered uo h p ao).
  exists (from_scp {| m_proto := None; m_user := uo; m_host := Some w;
                      m_port := None; m_path := Some (c :: q); m_archive := ao |}
            (set_extra_args [] (set_orig (rendered uo h p ao) new_Location))).
  exists w, t.
  split; [|split; [|split]].
  - unfold __str__.
    cbn [proto user _host port path archive set_archive set_path set_port set_host
           set_user set_proto set_extra_args set_orig new_Location].
    rewrite Hport. replace (eqb_str (py "ssh") (py "file")) with false by reflexivity.
    replace (eqb_str (py "ssh") (py "ssh")) with true by reflexivity.
    unfold rendered, archive_suffix, format_opt.
    destruct ao as [a|]; rewrite <- ?app_assoc, ?app_nil_r; reflexivity.
  - apply __init___parsed. apply _parse_scp.
    + rewrite re_match_ssh_re, Er.
      replace (startswith (rendered uo w (c :: q) ao) (py "ssh://")) with false;
        [reflexivity|].
      symmetry. apply (Hscheme (py "ssh")). reflexivity.
    + apply re_match_file_re_none. rewrite Er.
      apply (Hscheme (py "file")). reflexivity.
    + rewrite Er. apply scp_reads_parts.
      * destruct uo as [u|]; [exact Hu|].
        intros Hat. rewrite (user_chars_no_at _ Hfw) in Hat. discriminate Hat.
      * exact Hw.
      * apply forallb_user_host; exact Hfw.
      * intros m. apply scp_tail_parts; assumption.
  - exact Et.
  - reflexivity.
Qed.

(** *** The URI form of a location with a port *)

(** With a port [__str__] takes the URI form ["ssh://{}{}:{}/{}"], which
    writes a slash of its own before the path.  The form without a port,
    ["{}{}:{}"], writes none. *)
Lemma str_with_port (l : Location) (n : Z) (p : str) :
  proto l = Some (py "ssh") -> port l = Some n -> path l = Some p ->
  os_path.isabs p = true ->
  __str__ l
  = Ok (py "ssh://" ++ match user l with Some u => u ++ py "@" | None => [] end
          ++ format_opt (_host l) ++ py ":" ++ str_of_int n
          ++ py "/" ++ p ++ archive_suffix (archive l)).
Proof.
  intros E1 E2 E3 E4. unfold __str__. rewrite E1, E2, E3, E4.
  replace (eqb_str (py "ssh") (py "file")) with false by reflexivity.
  replace (eqb_str (py "ssh") (py "ssh")) with true by reflexivity.
  unfold archive_suffix. destruct (archive l) as [a|].
  - rewrite <- !app_assoc. reflexivity.
  - rewrite !app_nil_r. reflexivity.
Qed.

Lemma str_without_port (l : Location) (p : str) :
  proto l = Some (py "ssh") -> port l = None -> path l = Some p ->
  __str__ l
  = Ok (match user l with Some u => u ++ py "@" | None => [] end
          ++ format_opt (_host l) ++ py ":" ++ p ++ archive_suffix (archive l)).
Proof.
  intros E1 E2 E3. unfold __str__. rewrite E1, E2, E3.
  replace (eqb_str (py "ssh") (py "file")) with false by reflexivity.
  replace (eqb_str (py "ssh") (py "ssh")) with true by reflexivity.
  unfold archive_suffix, format_opt at 2. destruct (archive l) as [a|].
  - rewrite <- !app_assoc. reflexivity.
  - rewrite !app_nil_r. reflexivity.
Qed.

(** On ["ssh://user@host:22/path::arc"] the path of the location is
    ["/path"], an absolute path; the URI form renders it behind its own
    slash, ["ssh://user@host:22//path::arc"], and the second location has
    the path ["//path"].  The user, host, port and archive come back as
    they were. *)
Lemma port_rendering_doubles_the_slash :
  accepts ssh_re (py "ssh://user@host:22/path::arc") = true
  /\ exists l1 l2,
      round_trip None (py "ssh://user@host:22/path::arc")
      = Some (l1, py "ssh://user@host:22//path::arc", l2)
      /\ path l1 = Some (py "/path") /\ path l2 = Some (py "//path")
      /\ proto l2 = proto l1 /\ user l2 = user l1 /\ _host l2 = _host l1
      /\ port l2 = port l1 /\ archive l2 = archive l1.
Proof.
  split; [vm_compute; reflexivity|].
  eexists; eexists. split; [vm_compute; reflexivity|].
  repeat split; reflexivity.
Qed.

(** * Further properties *)

(** ** Which groups a pattern can set *)

Lemma group_set_same (g : gname) (v : str) (m : groups) :
  group (set_group g v m) g = Some v.
Proof. destruct g; reflexivity. Qed.

Lemma group_set_other (g g' : gname) (v : str) (m : groups) :
  gname_eqb g g' = false -> group (set_group g v m) g' = group m g'.
Proof. destruct g, g'; try reflexivity; discriminate. Qed.

Lemma star_loop_frame (body : str -> groups -> cont -> option groups)
    (F : groups -> groups -> Prop) (k : cont) :
  (forall m, F m m) -> (forall a b c, F a b -> F b c -> F a c) ->
  (forall s m k' x, body s m k' = Some x ->
                    exists s1 m1, k' s1 m1 = Some x /\ F m m1) ->
  forall n s m x,
    star_loop body k n s m = Some x ->
    exists s1 m1, k s1 m1 = Some x /\ F m m1.
Proof.
  intros Hr Ht Hb n; induction n as [|n IH]; intros s m x H; cbn [star_loop] in H.
  - exists s, m. auto.
  - destruct (body s m _) as [y|] eqn:E.
    + inversion H; subst y; clear H.
      apply Hb in E. destruct E as [s' [m' [Hk HF]]].
      destruct (length s' <? length s); [|discriminate].
      apply IH in Hk. destruct Hk as [s1 [m1 [Hk HF1]]].
      exists s1, m1. split; [assumption|eapply Ht; eassumption].
    + exists s, m. auto.
Qed.

(** A successful run of [r] hands on groups that differ from the ones it
    got only in the groups [r] holds, and what follows succeeded on them. *)
Lemma exec_frame (r : regex) :
  forall s m k x,
    exec r s m k = Some x ->
    exists s1 m1,
      k s1 m1 = Some x /\ forall g, sets r g = false -> group m1 g = group m g.
Proof.
  induction r as [p| |r1 IH1 r2 IH2|r1 IH1 r2 IH2|r1 IH1|g0 r1 IH1|r1 IH1|];
    intros s m k x H; cbn [exec] in H.
  - destruct s as [|c s']; [discriminate|]. destruct (p c); [|discriminate].
    exists s', m. auto.
  - exists s, m. auto.
  - apply IH1 in H. destruct H as [s' [m' [H F1]]].
    apply IH2 in H. destruct H as [s1 [m1 [H F2]]].
    exists s1, m1. split; [assumption|]. intros g Hg. cbn [sets] in Hg.
    apply orb_false_iff in Hg. destruct Hg as [G1 G2].
    rewrite (F2 g G2). apply F1; assumption.
  - destruct (exec r1 s m k) as [y|] eqn:E.
    + inversion H; subst y. apply IH1 in E. destruct E as [s1 [m1 [E F1]]].
      exists s1, m1. split; [assumption|]. intros g Hg. cbn [sets] in Hg.
      apply orb_false_iff in Hg. apply F1; tauto.
    + apply IH2 in H. destruct H as [s1 [m1 [H F2]]].
      exists s1, m1. split; [assumption|]. intros g Hg. cbn [sets] in Hg.
      apply orb_false_iff in Hg. apply F2; tauto.
  - apply (star_loop_frame (exec r1)
             (fun a b => forall g, sets r1 g = false -> group b g = group a g)) in H.
    + exact H.
    + reflexivity.
    + intros a b c Hab Hbc g Hg. rewrite (Hbc g Hg). apply Hab; assumption.
    + exact IH1.
  - apply IH1 in H. destruct H as [s1 [m1 [H F1]]].
    exists s1, (set_group g0 (consumed s s1) m1). split; [assumption|].
    intros g Hg. cbn [sets] in Hg. apply orb_false_iff in Hg. destruct Hg as [G1 G2].
    rewrite (@group_set_other g0 g _ _ G1). apply F1; assumption.
  - destruct (exec r1 s m (fun _ m2 => Some m2)); [discriminate|].
    exists s, m. auto.
  - exists s, m. split; [|auto].
    destruct s as [|c [|d s']]; [assumption| |discriminate].
    destruct (Ascii.eqb c newline); [assumption|discriminate].
Qed.

(** ** The shape of a match of the file and scp grammars *)

Lemma groups_ext (a b : groups) : (forall g, group a g = group b g) -> a = b.
Proof.
  intros H. destruct a, b.
  pose proof (H g_proto) as H1. pose proof (H g_user) as H2.
  pose proof (H g_host) as H3. pose proof (H g_port) as H4.
  pose proof (H g_path) as H5. pose proof (H g_archive) as H6.
  cbn in *. congruence.
Qed.

Lemma archive_char_name (a : str) :
  a <> [] -> forallb archive_char a = true -> archive_name a.
Proof.
  intros H1 H2. split; [assumption|].
  apply (forallb_contains "/" archive_char); [reflexivity|assumption].
Qed.

Lemma after_scp_prefix_inv (s : str) (m x : groups) :
  after_scp_prefix s m = Some x ->
  exists p ao,
    p <> [] /\ colons_ok p /\ when_some archive_name ao
    /\ x = add_group g_archive ao (set_group g_path p m).
Proof.
  unfold after_scp_prefix, scp_path_re. rewrite exec_Seq, exec_NegLook.
  destruct (exec (Alt _ _) s m _); [discriminate|].
  rewrite exec_Group. intros H. apply exec_Plus_path_inv in H.
  destruct H as [a [s1 [E [Ha [Hc H]]]]]. subst s. rewrite consumed_app in H.
  apply after_archive_inv in H. exists a.
  destruct H as [Hx|[n [Hn [Hf Hx]]]].
  - exists None. repeat split; assumption.
  - exists (Some n). repeat split; try assumption.
    apply (forallb_contains "/" archive_char); [reflexivity|assumption].
Qed.

Lemma scp_host_shape (s : str) (m x : groups) :
  exec host_re s m after_scp_host = Some x ->
  exists h p ao,
    h <> [] /\ (p <> [] /\ colons_ok p) /\ when_some archive_name ao
    /\ x = add_group g_archive ao (set_group g_path p (set_group g_host h m)).
Proof.
  intros H. apply host_re_inv in H. destruct H as [h [s' [_ [Hh [_ H]]]]].
  unfold after_scp_host in H. rewrite exec_lit in H.
  destruct (startswith s' (py ":")); [|discriminate].
  apply after_scp_prefix_inv in H. destruct H as [p [ao [Hp [Hc [Ha Hx]]]]].
  exists h, p, ao. auto.
Qed.

Lemma user_at_firstn (s : str) :
  user_at s = true -> firstn (run (cls user_char) s) s <> [].
Proof.
  unfold user_at. intros H. apply andb_true_iff in H. destruct H as [H _].
  apply Nat.ltb_lt in H. pose proof (run_le_length (cls user_char) s).
  destruct s as [|c s]; [simpl in *; lia|].
  destruct (run (cls user_char) (c :: s)); [lia|discriminate].
Qed.

(** A match of [scp_re]: no protocol and no port; a path; a host and a user
    that are not empty when present, the user only beside a host. *)
Lemma scp_match_shape (text : str) (x : groups) :
  re_match scp_re text = Some x ->
  exists uo ho p ao,
    x = {| m_proto := None; m_user := uo; m_host := ho; m_port := None;
           m_path := Some p; m_archive := ao |}
    /\ (p <> [] /\ colons_ok p)
    /\ when_some (fun u => u <> []) uo
    /\ when_some (fun h => h <> []) ho
    /\ (ho = None -> uo = None)
    /\ when_some archive_name ao.
Proof.
  rewrite re_match_scp_re, exec_optional_user.
  assert (Tail : match exec host_re text no_groups after_scp_host with
                 | Some y => Some y
                 | None => after_scp_prefix text no_groups
                 end = Some x ->
                 exists uo ho p ao,
                   x = {| m_proto := None; m_user := uo; m_host := ho; m_port := None;
                          m_path := Some p; m_archive := ao |}
                   /\ (p <> [] /\ colons_ok p)
                   /\ when_some (fun u => u <> []) uo
                   /\ when_some (fun h => h <> []) ho
                   /\ (ho = None -> uo = None)
                   /\ when_some archive_name ao).
  { destruct (exec host_re text no_groups after_scp_host) as [y|] eqn:E.
    - intros H; inversion H; subst y; clear H.
      apply scp_host_shape in E. destruct E as [h [p [ao [Hh [[Hp Hc] [Ha Hx]]]]]].
      exists None, (Some h), p, ao.
      split; [subst x; destruct ao; reflexivity|]. repeat split; auto.
    - intros H. apply after_scp_prefix_inv in H.
      destruct H as [p [ao [Hp [Hc [Ha Hx]]]]].
      exists None, None, p, ao.
      split; [subst x; destruct ao; reflexivity|]. repeat split; auto. }
  destruct (user_at text) eqn:U; [|exact Tail].
  destruct (exec host_re (skipn (S (run (cls user_char) text)) text) _ after_scp_host)
    as [y|] eqn:E; [|exact Tail].
  intros H; inversion H; subst y; clear H.
  apply scp_host_shape in E. destruct E as [h [p [ao [Hh [Hp [Ha Hx]]]]]].
  exists (Some (firstn (run (cls user_char) text) text)), (Some h), p, ao.
  split; [subst x; destruct ao; reflexivity|].
  split; [assumption|]. split; [apply user_at_firstn; assumption|].
  split; [assumption|]. split; [intros Hn; discriminate Hn|assumption].
Qed.

Lemma re_match_file_re (text : str) :
  re_match file_re text =
  if startswith text (py "file://")
  then exec file_path_re (skipn 7 text) (set_group g_proto (py "file") no_groups)
         after_archive
  else None.
Proof.
  unfold re_match, file_re. rewrite exec_Seq, exec_Group, exec_lit.
  change (py "file://") with (py "file" ++ py "://"). rewrite startswith_concat.
  destruct (startswith text (py "file")) eqn:E1; [|reflexivity].
  rewrite exec_Seq, exec_lit, andb_true_l.
  destruct (startswith (skipn (length (py "file")) text) (py "://")); [|reflexivity].
  rewrite consumed_startswith by assumption. rewrite skipn_skipn. reflexivity.
Qed.

(** A match of [file_re]: the protocol, a path and the archive; a path that
    starts with a slash holds no double colon. *)
Lemma file_match_shape (text : str) (x : groups) :
  re_match file_re text = Some x ->
  exists p ao,
    x = {| m_proto := Some (py "file"); m_user := None; m_host := None;
           m_port := None; m_path := Some p; m_archive := ao |}
    /\ (startswith p (py "/") = true -> colons_ok p)
    /\ when_some archive_name ao.
Proof.
  rewrite re_match_file_re. destruct (startswith text (py "file://")); [|discriminate].
  generalize (skipn 7 text) as s. intros s.
  unfold file_path_re. rewrite exec_Group, exec_Seq.
  rewrite (exec_Star_single (single_Chr (none_of "/"))).
  intros H. apply greedy_sound in H. destruct H as [j [Hj H]].
  rewrite exec_Seq, exec_lit in H.
  destruct (startswith (skipn j s) (py "/")) eqn:Sl; [|discriminate].
  apply exec_Plus_path_inv in H. destruct H as [a [s1 [E [Ha [Hc H]]]]].
  assert (Es : s = (firstn j s ++ "/"%char :: a) ++ s1).
  { rewrite <- (firstn_skipn j s) at 1. rewrite <- app_assoc. f_equal.
    rewrite (startswith_split _ _ Sl), E. reflexivity. }
  rewrite Es, consumed_app in H.
  assert (Hp : startswith (firstn j s ++ "/"%char :: a) (py "/") = true ->
               colons_ok (firstn j s ++ "/"%char :: a)).
  { pose proof (@run_cls_firstn (none_of "/") s j Hj) as Hf.
    destruct (firstn j s) as [|c pre].
    - intros _. apply colons_ok_app_char; [reflexivity|assumption].
    - cbn [forallb] in Hf. apply andb_true_iff in Hf. destruct Hf as [Hf _].
      cbn [app py list_ascii_of_string startswith]. intros Hs.
      rewrite andb_true_r in Hs. apply Ascii.eqb_eq in Hs. subst c. discriminate Hf. }
  clear Es. apply after_archive_inv in H.
  destruct H as [Hx|[n [Hn [Hf Hx]]]].
  - eexists; exists None. split; [subst x; reflexivity|]. split; [exact Hp|exact I].
  - eexists; exists (Some n). split; [subst x; reflexivity|]. split; [exact Hp|].
    apply archive_char_name; assumption.
Qed.

(** A match of [env_re]: at most an archive name, on a text that is empty,
    a newline, or starts with ["::"]. *)
Lemma env_match_shape (text : str) (x : groups) :
  re_match env_re text = Some x ->
  when_some archive_name (m_archive x)
  /\ (text = [] \/ text = [newline] \/ startswith text (py "::") = true).
Proof.
  unfold re_match, env_re. rewrite exec_Alt, exec_Seq, exec_lit.
  destruct (startswith text (py "::")) eqn:S.
  - destruct (exec Eos _ _ _) as [y|] eqn:E.
    + intros H; inversion H; subst y; clear H. split; [|auto].
      cbn [exec] in E.
      destruct (skipn (length (py "::")) text) as [|c [|d t]]; try discriminate.
      * inversion E; exact I.
      * destruct (Ascii.eqb c newline); inversion E; exact I.
    + intros H. split; [|auto].
      change (after_archive text no_groups = Some x) in H.
      apply after_archive_inv in H. destruct H as [->|[n [Hn [Hf ->]]]]; [exact I|].
      apply archive_char_name; assumption.
  - intros H. change (after_archive text no_groups = Some x) in H.
    pose proof H as H0. apply after_archive_inv in H. split.
    + destruct H as [->|[n [Hn [Hf ->]]]]; [exact I|].
      apply archive_char_name; assumption.
    + unfold after_archive, optional_archive_re in H0.
      rewrite exec_Seq, exec_Opt, exec_Seq, exec_lit, S in H0.
      cbn [exec] in H0. destruct text as [|c [|d t]]; try discriminate; auto.
      destruct (Ascii.eqb c newline) eqn:E; [|discriminate].
      apply Ascii.eqb_eq in E; subst c. auto.
Qed.

(** The port of a match of [ssh_re] is a non-empty string of digits. *)
Lemma ssh_port_digits (text : str) (x : groups) :
  re_match ssh_re text = Some x ->
  when_some (fun d => d <> [] /\ forallb digit d = true) (m_port x).
Proof.
  rewrite re_match_ssh_re. destruct (startswith text (py "ssh://")); [|discriminate].
  intros H. apply exec_frame in H. destruct H as [s1 [m1 [H F]]].
  assert (P1 : m_port m1 = None) by (apply (F g_port); reflexivity).
  apply host_re_inv in H. destruct H as [h [s2 [_ [_ [_ H]]]]].
  unfold after_ssh_host in H. rewrite exec_Opt in H.
  assert (Tail : forall s m, after_abs_path s m = Some x -> m_port x = m_port m).
  { intros s m T. apply after_abs_path_inv in T.
    destruct T as [r [s' [_ [_ [_ T]]]]]. apply after_archive_inv in T.
    destruct T as [->|[n [_ [_ ->]]]]; reflexivity. }
  destruct (exec (Seq (lit ":") _) s2 _ _) as [y|] eqn:E.
  - inversion H; subst y; clear H.
    rewrite exec_Seq, exec_lit in E. destruct (startswith s2 (py ":")); [|discriminate].
    rewrite exec_Group in E. apply exec_Plus_cls_inv in E.
    destruct E as [a [s3 [E1 [Ha [Hf E]]]]].
    rewrite E1, consumed_app in E. rewrite (Tail _ _ E). cbn. auto.
  - rewrite (Tail _ _ H). cbn. rewrite P1. exact I.
Qed.

(** ** [normpath] and [normpath_special] are idempotent *)

(** Normalising an absolute path with two leading slashes that [normpath]
    produced gives it back. *)
Lemma normpath_clean2 (comps : list str) :
  Forall clean comps ->
  os_path.normpath ("/"%char :: "/"%char :: str_join ["/"%char] comps)
  = "/"%char :: "/"%char :: str_join ["/"%char] comps.
Proof.
  intros H. unfold os_path.normpath.
  assert (Hk : os_path.initial_slashes
                 ("/"%char :: "/"%char :: str_join ["/"%char] comps) = 2).
  { unfold os_path.initial_slashes.
    pose proof (join_clean_no_slash_head H) as Hh.
    cbn [py list_ascii_of_string startswith] in *.
    rewrite !Ascii.eqb_refl. cbn [andb].
    destruct (str_join ["/"%char] comps) as [|d t]; [reflexivity|].
    rewrite andb_true_r in Hh. rewrite Hh. reflexivity. }
  rewrite Hk. cbn [split os_path.sep].
  rewrite Ascii.eqb_refl.
  destruct comps as [|c rest]; [reflexivity|].
  rewrite split_join; [|apply clean_noslash_all; assumption|discriminate].
  change (fold_left (os_path.step 2) ([] :: [] :: c :: rest) [])
    with (fold_left (os_path.step 2) (c :: rest) []).
  rewrite fold_step_push by assumption.
  rewrite app_nil_r, rev_involutive. reflexivity.
Qed.

(** Without a leading slash the kept components are clean ones on top of
    the [".."] that could not be resolved. *)
Lemma step_relative (st : list str) (c : str) :
  noslash c ->
  (exists cs n, st = cs ++ repeat os_path.dotdot n /\ Forall clean cs) ->
  exists cs n, os_path.step 0 st c = cs ++ repeat os_path.dotdot n /\ Forall clean cs.
Proof.
  intros Hc [cs [n [-> Hcs]]]. unfold os_path.step.
  destruct (eqb_str c []) eqn:E1; [exists cs, n; auto|].
  destruct (eqb_str c os_path.dot) eqn:E2; [exists cs, n; auto|]. cbn [orb].
  destruct (eqb_str c os_path.dotdot) eqn:E3; cbn [negb orb].
  - apply eqb_str_spec in E3. subst c. destruct cs as [|t cs'].
    + destruct n as [|n'].
      * exists [], 1. split; [reflexivity|constructor].
      * exists [], (S (S n')). split; [reflexivity|constructor].
    + inversion Hcs as [|? ? Ht Hcs']; subst.
      assert (Et : eqb_str t os_path.dotdot = false).
      { apply eqb_str_neq. apply Ht. }
      cbn [app Nat.eqb andb orb]. rewrite Et. exists cs', n. auto.
  - exists (c :: cs), n. split; [reflexivity|].
    constructor; [|assumption].
    repeat split; try assumption.
    + intros ->. discriminate E1.
    + intros ->. discriminate E2.
    + intros ->. discriminate E3.
Qed.

Lemma fold_step_relative (comps st : list str) :
  Forall noslash comps ->
  (exists cs n, st = cs ++ repeat os_path.dotdot n /\ Forall clean cs) ->
  exists cs n,
    fold_left (os_path.step 0) comps st = cs ++ repeat os_path.dotdot n
    /\ Forall clean cs.
Proof.
  revert st; induction comps as [|c comps IH]; intros st Hc Hst; [assumption|].
  inversion Hc; subst. cbn [fold_left]. apply IH; [assumption|].
  apply step_relative; assumption.
Qed.

Lemma fold_step_dotdots (n m : nat) :
  fold_left (os_path.step 0) (repeat os_path.dotdot n) (repeat os_path.dotdot m)
  = repeat os_path.dotdot (n + m).
Proof.
  revert m; induction n as [|n IH]; intros m; [reflexivity|].
  cbn [repeat fold_left].
  replace (os_path.step 0 (repeat os_path.dotdot m) os_path.dotdot)
    with (repeat os_path.dotdot (S m)) by (destruct m; reflexivity).
  rewrite IH. f_equal. lia.
Qed.

Lemma fold_step_relative_fixed (cs : list str) (n : nat) :
  Forall clean cs ->
  fold_left (os_path.step 0) (rev (cs ++ repeat os_path.dotdot n)) []
  = cs ++ repeat os_path.dotdot n.
Proof.
  intros H. rewrite rev_app_distr, rev_repeat, fold_left_app.
  change (@nil str) with (repeat os_path.dotdot 0) at 1.
  rewrite (fold_step_dotdots n 0), Nat.add_0_r.
  rewrite fold_step_push by (apply Forall_rev; assumption).
  rewrite rev_involutive. reflexivity.
Qed.

Lemma dotdot_head (c : str) :
  (clean c \/ c = os_path.dotdot) ->
  exists d c', c = d :: c' /\ Ascii.eqb d "/" = false /\ noslash c.
Proof.
  intros [H| ->].
  - destruct (clean_head H) as [d [c' [E [Hd _]]]]. exists d, c'.
    destruct H as [_ [H _]]. auto.
  - exists "."%char, ["."%char]. repeat split.
Qed.

(** A relative path that [normpath] produced is given back. *)
Lemma normpath_relative_fixed (cs : list str) (n : nat) :
  Forall clean cs -> cs ++ repeat os_path.dotdot n <> [] ->
  os_path.normpath (str_join ["/"%char] (rev (cs ++ repeat os_path.dotdot n)))
  = str_join ["/"%char] (rev (cs ++ repeat os_path.dotdot n))
  /\ startswith (str_join ["/"%char] (rev (cs ++ repeat os_path.dotdot n))) (py "/")
     = false.
Proof.
  intros H Hn.
  assert (Hall : Forall (fun c => clean c \/ c = os_path.dotdot)
                   (rev (cs ++ repeat os_path.dotdot n))).
  { apply Forall_rev. apply Forall_app. split.
    - eapply Forall_impl; [|exact H]. auto.
    - apply Forall_forall. intros x Hx. right. eapply repeat_spec; exact Hx. }
  assert (Hns : Forall noslash (rev (cs ++ repeat os_path.dotdot n))).
  { eapply Forall_impl; [|exact Hall]. intros c Hc.
    destruct (dotdot_head Hc) as [_ [_ [_ [_ Hc']]]]. exact Hc'. }
  pose proof (fold_step_relative_fixed n H) as Hf.
  assert (Hne : rev (cs ++ repeat os_path.dotdot n) <> []).
  { intros E. apply Hn. rewrite <- (rev_involutive (cs ++ _)), E. reflexivity. }
  remember (rev (cs ++ repeat os_path.dotdot n)) as comps eqn:Ec.
  destruct comps as [|x rest]; [congruence|].
  inversion Hall as [|? ? Hx _]; subst.
  destruct (dotdot_head Hx) as [d [x' [Ex [Hd _]]]].
  destruct (join_cons_head x rest) as [tail [Ej _]].
  pose proof (split_join Hns Hne) as Hsp.
  rewrite Ej in *. rewrite Ex in *. cbn [app] in *.
  assert (Hs : startswith (d :: x' ++ tail) (py "/") = false).
  { cbn [py list_ascii_of_string startswith]. rewrite Hd. reflexivity. }
  split; [|exact Hs].
  unfold os_path.normpath, os_path.initial_slashes. rewrite Hs.
  change os_path.sep with "/"%char. rewrite Hsp, Hf, <- Ec.
  cbn [repeat app]. rewrite Ej. reflexivity.
Qed.

(** The shape of [normpath] on a path with a leading slash. *)
Lemma normpath_abs_shape (r : str) :
  startswith r (py "/") = true ->
  exists comps,
    Forall clean comps
    /\ ((os_path.initial_slashes r = 1
         /\ os_path.normpath r = "/"%char :: str_join ["/"%char] comps)
        \/ (os_path.initial_slashes r = 2
            /\ os_path.normpath r = "/"%char :: "/"%char :: str_join ["/"%char] comps)).
Proof.
  intros Hs.
  assert (Hk : os_path.initial_slashes r = 1 \/ os_path.initial_slashes r = 2).
  { unfold os_path.initial_slashes. rewrite Hs.
    destruct (startswith r (py "//") && negb (startswith r (py "///"))); auto. }
  exists (rev (fold_left (os_path.step (os_path.initial_slashes r)) (split "/" r) [])).
  split.
  - apply Forall_rev. apply fold_step_clean; [lia|apply split_noslash_all|constructor].
  - unfold os_path.normpath. destruct r as [|c r']; [discriminate|].
    cbv zeta. fold os_path.sep.
    destruct Hk as [E|E]; [left|right]; (split; [exact E|]); rewrite E; reflexivity.
Qed.

(** The shape of [normpath] on a path without one. *)
Lemma normpath_relative_shape (r : str) :
  startswith r (py "/") = false ->
  os_path.normpath r = os_path.dot
  \/ exists cs n,
      Forall clean cs /\ cs ++ repeat os_path.dotdot n <> []
      /\ os_path.normpath r
         = str_join ["/"%char] (rev (cs ++ repeat os_path.dotdot n)).
Proof.
  intros Hs. unfold os_path.normpath. destruct r as [|c r']; [left; reflexivity|].
  cbv zeta. unfold os_path.initial_slashes. rewrite Hs. cbn [repeat app].
  destruct (@fold_step_relative (split os_path.sep (c :: r')) [])
    as [cs [n [E Hcs]]].
  - apply split_noslash_all.
  - exists [], 0. split; [reflexivity|constructor].
  - rewrite E.
    destruct (str_join [os_path.sep] (rev (cs ++ repeat os_path.dotdot n)))
      as [|d t] eqn:J; [left; reflexivity|].
    right. exists cs, n. split; [assumption|]. split; [|symmetry; exact J].
    intros E0. rewrite E0 in J. discriminate J.
Qed.

(** [normpath] is idempotent. *)
Lemma normpath_idempotent (p : str) :
  os_path.normpath (os_path.normpath p) = os_path.normpath p.
Proof.
  destruct (startswith p (py "/")) eqn:Hs.
  - destruct (normpath_abs_shape _ Hs) as [comps [Hc [[_ ->]|[_ ->]]]].
    + apply normpath_clean; assumption.
    + apply normpath_clean2; assumption.
  - destruct (normpath_relative_shape _ Hs) as [->|[cs [n [Hc [Hn ->]]]]].
    + reflexivity.
    + apply normpath_relative_fixed; assumption.
Qed.

(** So is [normpath_special], with or without the ["/./"] marker. *)
Lemma normpath_special_fixed (p : str) :
  normpath_special (normpath_special p) = normpath_special p.
Proof.
  destruct (startswith p (py "/./")) eqn:M.
  - assert (Hs : startswith p (py "/") = true).
    { apply startswith_split in M. rewrite M. reflexivity. }
    assert (K1 : os_path.initial_slashes p = 1).
    { apply startswith_split in M. rewrite M. reflexivity. }
    destruct (normpath_abs_shape _ Hs) as [comps [Hc [[_ E]|[K2 _]]]]; [|congruence].
    assert (Es : normpath_special p = py "/./" ++ str_join ["/"%char] comps).
    { unfold normpath_special. rewrite M, E. reflexivity. }
    rewrite Es. unfold normpath_special.
    rewrite startswith_app, normpath_marked by assumption. reflexivity.
  - assert (Es : normpath_special p = os_path.normpath p).
    { unfold normpath_special. rewrite M. reflexivity. }
    rewrite Es. unfold normpath_special.
    assert (F : startswith (os_path.normpath p) (py "/./") = false).
    { destruct (startswith p (py "/")) eqn:Hs.
      - destruct (normpath_abs_shape _ Hs) as [comps [Hc [[_ ->]|[_ ->]]]].
        + pose proof (join_clean_no_dot_slash Hc) as Hd.
          cbn [py list_ascii_of_string startswith] in *.
          rewrite Ascii.eqb_refl. exact Hd.
        + reflexivity.
      - destruct (normpath_relative_shape _ Hs) as [->|[cs [n [Hc [Hn ->]]]]].
        + reflexivity.
        + destruct (normpath_relative_fixed n Hc Hn) as [_ Hh].
          destruct (str_join _ _) as [|d t]; [reflexivity|].
          cbn [py list_ascii_of_string startswith] in *.
          rewrite andb_true_r in Hh. rewrite Hh. reflexivity. }
    rewrite F. apply normpath_idempotent.
Qed.

(** A relative path stays relative. *)
Lemma normpath_special_relative (g : str) :
  startswith g (py "/") = false -> startswith (normpath_special g) (py "/") = false.
Proof.
  intros Hs. unfold normpath_special.
  assert (M : startswith g (py "/./") = false).
  { destruct g as [|c g']; [reflexivity|].
    cbn [py list_ascii_of_string startswith] in *. rewrite andb_true_r in Hs.
    rewrite Hs. reflexivity. }
  rewrite M.
  destruct (normpath_relative_shape _ Hs) as [->|[cs [n [Hc [Hn ->]]]]].
  - reflexivity.
  - apply normpath_relative_fixed; assumption.
Qed.

(** ** Locations the constructor returns *)

Lemma normpath_nonempty (p : str) : os_path.normpath p <> [].
Proof.
  unfold os_path.normpath. destruct p as [|c p]; [discriminate|]. cbv zeta.
  destruct (repeat os_path.sep _ ++ _); discriminate.
Qed.

Lemma normpath_special_nonempty (p : str) : normpath_special p <> [].
Proof.
  unfold normpath_special. destruct (startswith p (py "/./")); [discriminate|].
  apply normpath_nonempty.
Qed.

Lemma digit_val_range (c : ascii) : digit c = true -> (0 <= digit_val c <= 9)%Z.
Proof.
  unfold digit, between, digit_val. intros H.
  apply andb_true_iff in H. destruct H as [H1 H2].
  apply Nat.leb_le in H1, H2.
  change (nat_of_ascii "0") with 48 in H1. change (nat_of_ascii "9") with 57 in H2.
  lia.
Qed.

Lemma int_nonneg (d : str) : forallb digit d = true -> (0 <= int d)%Z.
Proof.
  intros H. unfold int.
  assert (G : forall acc, (0 <= acc)%Z ->
                          (0 <= fold_left (fun a c => 10 * a + digit_val c) d acc)%Z).
  { induction d as [|c d IH]; intros a Ha; [assumption|].
    cbn [forallb] in H. apply andb_true_iff in H. destruct H as [Hc Hd].
    cbn [fold_left]. apply (IH Hd).
    pose proof (digit_val_range _ Hc). lia. }
  apply G. lia.
Qed.

Lemma port_of_positive (po : option str) :
  when_some (fun d => d <> [] /\ forallb digit d = true) po ->
  match port_of po with Some n => (0 < n)%Z | None => True end.
Proof.
  destruct po as [d|]; [|exact (fun _ => I)]. intros [Hd Hf].
  unfold port_of. destruct d as [|c d]; [exact I|].
  pose proof (int_nonneg _ Hf) as Hn.
  destruct (int (c :: d) =? 0)%Z eqn:E; [exact I|].
  apply Z.eqb_neq in E. lia.
Qed.

(** What [_parse] stores in an object that had no user, host or port. *)
Lemma _parse_well_formed (text : str) (self l : Location) :
  user self = None -> _host self = None -> port self = None ->
  _parse text self = (true, l) -> well_formed l.
Proof.
  intros Hu Hh Hp. unfold _parse.
  destruct (re_match ssh_re text) as [x|] eqn:E1.
  { intros H; inversion H; subst l; clear H.
    pose proof (ssh_port_digits _ E1) as Hd.
    destruct (ssh_match_shape _ E1)
      as [uo [h [po [r [ao [Hx [Hu' [Hh' [_ [_ [_ Ha]]]]]]]]]]].
    subst x. cbn [m_port] in Hd. apply port_of_positive in Hd.
    unfold well_formed, norm_path_group. cbn.
    split; [eexists; split; [reflexivity|split;
      [apply normpath_special_nonempty|apply normpath_special_fixed]]|].
    split; [left; split; [reflexivity|exists h; auto]|].
    split; [destruct uo; [exact (proj1 Hu')|exact I]|].
    split; [|exact Hd].
    destruct ao as [a|]; [|exact I]. destruct Ha. apply archive_char_name; assumption. }
  destruct (re_match file_re text) as [x|] eqn:E2.
  { intros H; inversion H; subst l; clear H.
    destruct (file_match_shape _ E2) as [p [ao [Hx [_ Ha]]]]. subst x.
    unfold well_formed, norm_path_group. cbn. rewrite Hu, Hh, Hp.
    split; [eexists; split; [reflexivity|split;
      [apply normpath_special_nonempty|apply normpath_special_fixed]]|].
    split; [right; auto|]. split; [exact I|]. split; [exact Ha|exact I]. }
  destruct (re_match scp_re text) as [x|] eqn:E3; [|discriminate].
  intros H; inversion H; subst l; clear H.
  destruct (scp_match_shape _ E3) as [uo [ho [p [ao [Hx [Hp' [Hu' [Hh' [Hn Ha]]]]]]]]].
  subst x. unfold well_formed, norm_path_group. cbn. rewrite Hp.
  split; [eexists; split; [reflexivity|split;
      [apply normpath_special_nonempty|apply normpath_special_fixed]]|].
  split.
  - destruct ho as [h|].
    + left. cbn in Hh'. destruct h as [|c h]; [congruence|].
      split; [reflexivity|eexists; split; [reflexivity|discriminate]].
    + right. rewrite (Hn eq_refl). auto.
  - split; [exact Hu'|]. split; [exact Ha|exact I].
Qed.

Lemma _parse_keeps (text : str) (self : Location) :
  orig (snd (_parse text self)) = orig self
  /\ extra_args (snd (_parse text self)) = extra_args self.
Proof.
  unfold _parse.
  destruct (re_match ssh_re text); [split; reflexivity|].
  destruct (re_match file_re text); [split; reflexivity|].
  destruct (re_match scp_re text); split; reflexivity.
Qed.

(** The two ways the constructor succeeds. *)
Lemma __init___cases (repo : option str) (text : str) (l : Location) :
  __init__ repo text = Ok l ->
  _parse text (set_extra_args [] (set_orig text new_Location)) = (true, l)
  \/ (fst (_parse text (set_extra_args [] (set_orig text new_Location))) = false
      /\ exists m r l0,
          re_match env_re text = Some m /\ repo = Some r
          /\ _parse r (set_extra_args [] (set_orig text new_Location)) = (true, l0)
          /\ l = set_archive (m_archive m) l0).
Proof.
  unfold __init__, parse. cbn [orig set_extra_args set_orig].
  remember (set_extra_args [] (set_orig text new_Location)) as self eqn:Es.
  clear Es. intros H.
  pose proof (_parse_false_unchanged text self) as Hs.
  destruct (_parse text self) as [v s1] eqn:E. destruct v.
  - left. cbn in H. inversion H; reflexivity.
  - right. split; [reflexivity|]. cbn in Hs. rewrite (Hs eq_refl) in H.
    destruct (re_match env_re text) as [m|]; [|discriminate H].
    destruct repo as [r|]; [|discriminate H].
    destruct (_parse r self) as [v2 s2] eqn:E2. destruct v2; [|discriminate H].
    cbn in H. inversion H. exists m, r, s2. auto.
Qed.

Lemma __init___well_formed (repo : option str) (text : str) (l : Location) :
  __init__ repo text = Ok l -> well_formed l /\ orig l = text /\ extra_args l = [].
Proof.
  intros H. apply __init___cases in H.
  destruct H as [H|[Hf [m [r [l0 [Em [_ [H ->]]]]]]]].
  - split; [eapply _parse_well_formed; [| | |exact H]; reflexivity|].
    pose proof (_parse_keeps text (set_extra_args [] (set_orig text new_Location))) as K.
    rewrite H in K. exact K.
  - assert (W : well_formed l0)
      by (eapply _parse_well_formed; [| | |exact H]; reflexivity).
    pose proof (_parse_keeps r (set_extra_args [] (set_orig text new_Location))) as K.
    rewrite H in K. split; [|exact K].
    destruct W as [W1 [W2 [W3 [_ W5]]]].
    unfold well_formed.
    destruct l0; cbn in *. repeat split; auto.
    apply (env_match_shape _ Em).
Qed.

(** X1.  A location the constructor returns has a path that is not empty
    and that [normpath_special] maps to itself, and either the protocol
    [ssh] and a non-empty host, or the protocol [file] and no host, user or
    port; a user, when present, is not empty.  It keeps the input text in
    [orig] and starts with no extra arguments. *)
Theorem constructed_location_shape (repo : option str) (text : str) (l : Location) :
  __init__ repo text = Ok l ->
  (exists p, path l = Some p /\ p <> [] /\ normpath_special p = p)
  /\ ((proto l = Some (py "ssh") /\ exists h, _host l = Some h /\ h <> [])
      \/ (proto l = Some (py "file") /\ _host l = None /\ user l = None
          /\ port l = None))
  /\ when_some (fun u => u <> []) (user l)
  /\ orig l = text /\ extra_args l = [].
Proof.
  intros H. apply __init___well_formed in H.
  destruct H as [[W1 [W2 [W3 _]]] [Ho He]]. auto.
Qed.

Lemma constructed_location_shape_witness :
  (exists p, path {| orig := py "u@h:rel::a"; extra_args := [];
                     proto := Some (py "ssh"); user := Some (py "u");
                     _host := Some (py "h"); port := None;
                     path := Some (py "rel"); archive := Some (py "a") |} = Some p
             /\ p <> [] /\ normpath_special p = p)
  /\ ((Some (py "ssh") = Some (py "ssh") /\ exists h, Some (py "h") = Some h /\ h <> [])
      \/ (Some (py "ssh") = Some (py "file") /\ Some (py "h") = None
          /\ Some (py "u") = None /\ @None Z = None))
  /\ when_some (fun u => u <> []) (Some (py "u"))
  /\ py "u@h:rel::a" = py "u@h:rel::a" /\ @nil str = [].
Proof.
  apply (@constructed_location_shape None (py "u@h:rel::a")).
  vm_compute; reflexivity.
Defined.

(** X2.  [__str__] raises on no location the constructor returns. *)
Theorem constructed_location_renders (repo : option str) (text : str) (l : Location) :
  __init__ repo text = Ok l -> exists s, __str__ l = Ok s.
Proof.
  intros H. apply __init___well_formed in H.
  destruct H as [[[p [Hp _]] [[[Hs _]|[Hf _]] _]] _];
    unfold __str__; rewrite ?Hs, ?Hf, Hp.
  - replace (eqb_str (py "ssh") (py "file")) with false by reflexivity.
    replace (eqb_str (py "ssh") (py "ssh")) with true by reflexivity.
    destruct (port l); eexists; reflexivity.
  - replace (eqb_str (py "file") (py "file")) with true by reflexivity.
    eexists; reflexivity.
Qed.

Lemma constructed_location_renders_witness :
  exists s,
    __str__ {| orig := py "file:///srv/repo::a"; extra_args := [];
               proto := Some (py "file"); user := None; _host := None; port := None;
               path := Some (py "/srv/repo"); archive := Some (py "a") |} = Ok s.
Proof.
  apply (@constructed_location_renders None (py "file:///srv/repo::a")).
  vm_compute; reflexivity.
Defined.

(** X3.  The archive of a location the constructor returns, whether it
    comes from the input or overrides the default repository's, is not
    empty and holds no slash. *)
Theorem constructed_archive_name (repo : option str) (text : str) (l : Location) (a : str) :
  __init__ repo text = Ok l -> archive l = Some a ->
  a <> [] /\ contains "/" a = false.
Proof.
  intros H Ha. apply __init___well_formed in H.
  destruct H as [[_ [_ [_ [W _]]]] _]. rewrite Ha in W. exact W.
Qed.

Lemma constructed_archive_name_witness :
  py "nightly" <> [] /\ contains "/" (py "nightly") = false.
Proof.
  apply (@constructed_archive_name (Some (py "/srv/repo::old")) (py "::nightly")
           {| orig := py "::nightly"; extra_args := []; proto := Some (py "file");
              user := None; _host := None; port := None;
              path := Some (py "/srv/repo"); archive := Some (py "nightly") |}).
  - vm_compute; reflexivity.
  - reflexivity.
Defined.

(** X4.  A port, when present, is a positive integer: the port ["0"] (or
    ["000"]) is dropped. *)
Theorem constructed_port_positive (repo : option str) (text : str) (l : Location) (n : Z) :
  __init__ repo text = Ok l -> port l = Some n -> (0 < n)%Z.
Proof.
  intros H Hn. apply __init___well_formed in H.
  destruct H as [[_ [_ [_ [_ W]]]] _]. rewrite Hn in W. exact W.
Qed.

Lemma constructed_port_positive_witness : (0 < 2222)%Z.
Proof.
  apply (@constructed_port_positive None (py "ssh://h:2222/p")
           {| orig := py "ssh://h:2222/p"; extra_args := []; proto := Some (py "ssh");
              user := None; _host := Some (py "h"); port := Some 2222%Z;
              path := Some (py "/p"); archive := None |}).
  - vm_compute; reflexivity.
  - reflexivity.
Defined.

(** X5.  The tests [l.path is not None] and [l.proto == "file" or l._host is
    not None] of [parse_arg] hold of every location [try_location] returns:
    a token is usable as a location exactly when it resolves. *)
Theorem resolved_token_is_usable (repo : option str) (arg : str) :
  ArgumentParser.usable (try_location repo arg)
  = match try_location repo arg with Some _ => true | None => false end.
Proof.
  unfold try_location. destruct (__init__ repo arg) as [l|e] eqn:E; [|reflexivity].
  apply __init___well_formed in E.
  destruct E as [[[p [Hp _]] [[[Hs [h [Hh _]]]|[Hf _]] _]] _];
    unfold ArgumentParser.usable; rewrite Hp, ?Hs, ?Hh, ?Hf.
  - apply orb_true_r.
  - reflexivity.
Qed.

(** ** The environment is read for archive-only input alone *)

(** X6.  The default repository of the environment plays no part unless the
    input is empty or starts with ["::"]: for every other input the
    constructor gives the same result, or the same error, whatever the
    variable holds. *)
Theorem environment_read_for_archive_only_input (repo : option str) (text : str) :
  text <> [] -> startswith text (py "::") = false ->
  __init__ repo text = __init__ None text.
Proof.
  intros Hn Hs. unfold __init__, parse. cbn [orig set_extra_args set_orig].
  destruct (_parse text (set_extra_args [] (set_orig text new_Location)))
    as [v s1] eqn:E.
  destruct v; [reflexivity|].
  destruct (re_match env_re text) as [m|] eqn:Em; [|reflexivity].
  destruct (env_match_shape _ Em) as [_ [H|[H|H]]].
  - congruence.
  - subst text. vm_compute in E. discriminate E.
  - congruence.
Qed.

Lemma environment_read_for_archive_only_input_witness :
  __init__ (Some (py "/srv/repo")) (py "host:backups::a")
  = __init__ None (py "host:backups::a").
Proof.
  apply environment_read_for_archive_only_input; [discriminate|reflexivity].
Defined.

(** X7.  [normpath_special] is idempotent: applied to its own result it
    changes nothing, for a path with the ["/./"] marker as for one without
    it. *)
Theorem normpath_special_idempotent (p : str) :
  normpath_special (normpath_special p) = normpath_special p.
Proof. apply normpath_special_fixed. Qed.

(** ** [canonicalize_path] *)

Lemma join_abs (c p : str) :
  os_path.isabs c = true -> os_path.isabs p = false ->
  os_path.isabs (os_path.join c p) = true.
Proof.
  unfold os_path.join, os_path.isabs. intros Hc Hp. rewrite Hp.
  destruct c as [|x c']; [discriminate Hc|].
  destruct (rev (x :: c')) as [|y r] eqn:R.
  - apply (f_equal (@rev ascii)) in R. rewrite rev_involutive in R. discriminate R.
  - destruct (Ascii.eqb y os_path.sep); exact Hc.
Qed.

Lemma normpath_abs (r : str) :
  os_path.isabs r = true -> os_path.isabs (os_path.normpath r) = true.
Proof.
  intros H. destruct (normpath_abs_shape _ H) as [comps [_ [[_ ->]|[_ ->]]]];
    reflexivity.
Qed.

Lemma canonicalize_path_spec (getcwd : str) (cwd : option str) (l : Location) (p : str) :
  os_path.isabs (match cwd with None => getcwd | Some c => c end) = true ->
  path l = Some p ->
  exists l' q,
    canonicalize_path getcwd cwd l = Ok l'
    /\ l' = set_path (Some q) l
    /\ (proto l = Some (py "file") -> os_path.isabs q = true)
    /\ canonicalize_path getcwd cwd l' = Ok l'.
Proof.
  intros Hc Hp. unfold canonicalize_path. rewrite Hp.
  assert (Eta : l = set_path (Some p) l).
  { destruct l; cbn in *; subst; reflexivity. }
  destruct (proto l) as [q0|] eqn:Pr.
  - destruct (eqb_str q0 (py "file")) eqn:F.
    + destruct (os_path.isabs p) eqn:A; cbn [negb].
      * exists l, p. rewrite Pr, F, Hp, A. auto.
      * eexists _, _. split; [reflexivity|]. split; [reflexivity|].
        assert (A' : os_path.isabs
                       (os_path.normpath
                          (os_path.join (match cwd with None => getcwd | Some c => c end) p))
                     = true).
        { apply normpath_abs. apply join_abs; assumption. }
        split; [intros _; exact A'|].
        cbn [proto path set_path]. rewrite Pr, F, A'. reflexivity.
    + exists l, p. rewrite Pr, F. split; [reflexivity|]. split; [exact Eta|].
      split; [|reflexivity].
      intros E. inversion E; subst q0. rewrite eqb_str_refl in F. discriminate F.
  - exists l, p. rewrite Pr. split; [reflexivity|]. split; [exact Eta|].
    split; [|reflexivity]. intros E; discriminate E.
Qed.

(** X8.  With an absolute working directory, [canonicalize_path] changes
    at most the path, leaves a [file] location with an absolute path, and
    changes nothing when it is applied a second time. *)
Theorem canonicalize_path_absolute_and_idempotent
    (getcwd : str) (cwd : option str) (l : Location) (p : str) :
  os_path.isabs (match cwd with None => getcwd | Some c => c end) = true ->
  path l = Some p ->
  exists l' q,
    canonicalize_path getcwd cwd l = Ok l'
    /\ l' = set_path (Some q) l
    /\ (proto l = Some (py "file") -> os_path.isabs q = true)
    /\ canonicalize_path getcwd cwd l' = Ok l'.
Proof. apply canonicalize_path_spec. Qed.

Lemma canonicalize_path_absolute_and_idempotent_witness :
  exists l' q,
    canonicalize_path (py "/home/x") None
      {| orig := py "sub/../dir"; extra_args := []; proto := Some (py "file");
         user := None; _host := None; port := None;
         path := Some (py "dir"); archive := None |} = Ok l'
    /\ l' = set_path (Some q)
              {| orig := py "sub/../dir"; extra_args := []; proto := Some (py "file");
                 user := None; _host := None; port := None;
                 path := Some (py "dir"); archive := None |}
    /\ (Some (py "file") = Some (py "file") -> os_path.isabs q = true)
    /\ canonicalize_path (py "/home/x") None l' = Ok l'.
Proof.
  apply (@canonicalize_path_absolute_and_idempotent (py "/home/x") None
           {| orig := py "sub/../dir"; extra_args := []; proto := Some (py "file");
              user := None; _host := None; port := None;
              path := Some (py "dir"); archive := None |} (py "dir"));
    reflexivity.
Defined.

(** ** The round trip of a [file] location *)

(** The path group behind the path of a parsed [file] location. *)
Lemma _parse_file_path (text : str) (self l : Location) :
  _parse text self = (true, l) -> proto l = Some (py "file") ->
  exists g, path l = Some (normpath_special g)
            /\ (startswith g (py "/") = true -> colons_ok g).
Proof.
  unfold _parse.
  destruct (re_match ssh_re text) as [x|] eqn:E1.
  { intros H; inversion H; subst l; clear H.
    destruct (ssh_match_shape _ E1) as [uo [h [po [r [ao [Hx _]]]]]]. subst x.
    cbn. intros Hp. discriminate Hp. }
  destruct (re_match file_re text) as [x|] eqn:E2.
  { intros H; inversion H; subst l; clear H.
    destruct (file_match_shape _ E2) as [p [ao [Hx [Hc _]]]]. subst x.
    intros _. exists p. split; [reflexivity|exact Hc]. }
  destruct (re_match scp_re text) as [x|] eqn:E3; [|discriminate].
  intros H; inversion H; subst l; clear H.
  destruct (scp_match_shape _ E3) as [uo [ho [p [ao [Hx [[_ Hc] _]]]]]]. subst x.
  intros _. exists p. split; [reflexivity|intros _; exact Hc].
Qed.

Lemma contains_forallb_archive_char (a : str) :
  contains "/" a = false -> forallb archive_char a = true.
Proof.
  induction a as [|c a IH]; intros H; [reflexivity|].
  rewrite contains_cons_eq in H. apply orb_false_iff in H. destruct H as [Hc Ha].
  cbn [forallb]. rewrite (IH Ha), andb_true_r.
  unfold archive_char, none_of, contains. cbn [py list_ascii_of_string existsb].
  rewrite (Ascii.eqb_sym c "/"), Hc. reflexivity.
Qed.

(** The scp shorthand reads a rendered [file] location back. *)
Lemma scp_reads_file_rendered (p : str) (ao : option str) :
  startswith p (py "/") = true -> startswith p (py "//") = false ->
  colons_ok p -> archive_ok p ao ->
  re_match scp_re (p ++ archive_suffix ao)
  = Some {| m_proto := None; m_user := None; m_host := None;
            m_port := None; m_path := Some p; m_archive := ao |}.
Proof.
  intros H1 H2 Hc Ha.
  rewrite re_match_scp_re, exec_optional_user.
  destruct p as [|c p']; [discriminate H1|].
  cbn [py list_ascii_of_string startswith] in H1. rewrite andb_true_r in H1.
  apply Ascii.eqb_eq in H1. subst c.
  assert (U : user_at (("/"%char :: p') ++ archive_suffix ao) = false) by reflexivity.
  rewrite U.
  assert (Hh : exec host_re (("/"%char :: p') ++ archive_suffix ao) no_groups
                 after_scp_host = None).
  { rewrite exec_host_re by (intros; apply after_scp_host_rejects; assumption).
    cbn [app run cls].
    replace (host_char "/") with false by reflexivity. cbn [Nat.ltb Nat.leb].
    apply bracket_host_needs_bracket. reflexivity. }
  rewrite Hh.
  rewrite (@scp_tail_rendered ("/"%char :: p') ao no_groups eq_refl H2 Hc Ha).
  destruct ao; reflexivity.
Qed.

(** X9.  Every location with the protocol [file] that the constructor
    returns and whose path is absolute, does not start with two slashes
    and, when an archive is named, does not end with a colon, renders to a
    string that resolves again to a location with the same protocol, user,
    host, port, path and archive. *)
Theorem file_round_trip (repo : option str) (text : str) (l1 : Location) :
  __init__ repo text = Ok l1 ->
  proto l1 = Some (py "file") ->
  file_reads_back l1 = true ->
  exists s l2,
    __str__ l1 = Ok s /\ __init__ repo s = Ok l2 /\ same_location l2 l1.
Proof.
  intros Hi Hf Hb.
  destruct (__init___well_formed _ _ Hi) as [[[p [Hp [_ Hfix]]] [W2 [_ [Wa _]]]] _].
  destruct W2 as [[W2 _]|[_ [Wh [Wu Wp]]]]; [rewrite Hf in W2; discriminate W2|].
  assert (G : exists g, path l1 = Some (normpath_special g)
                        /\ (startswith g (py "/") = true -> colons_ok g)).
  { apply __init___cases in Hi.
    destruct Hi as [H|[_ [m [r [l0 [_ [_ [H ->]]]]]]]].
    - eapply _parse_file_path; eassumption.
    - exact (@_parse_file_path _ _ l0 H Hf). }
  destruct G as [g [Hg Hcg]].
  unfold file_reads_back in Hb. rewrite Hp in Hb.
  apply andb_true_iff in Hb. destruct Hb as [Hb Hb3].
  apply andb_true_iff in Hb. destruct Hb as [Hb1 Hb2].
  apply negb_true_iff in Hb2. unfold os_path.isabs in Hb1.
  assert (Eg : p = normpath_special g) by congruence.
  assert (Hga : startswith g (py "/") = true).
  { destruct (startswith g (py "/")) eqn:S; [reflexivity|].
    apply normpath_special_relative in S. rewrite <- Eg in S. congruence. }
  assert (Hco : colons_ok p).
  { rewrite Eg. apply (normpath_special_abs Hga (Hcg Hga)). }
  assert (Hao : archive_ok p (archive l1)).
  { destruct (archive l1) as [a|]; [|exact I]. destruct Wa as [Wa1 Wa2].
    apply negb_true_iff in Hb3.
    split; [assumption|]. split; [apply contains_forallb_archive_char; assumption|].
    assumption. }
  exists (p ++ archive_suffix (archive l1)).
  exists {| orig := p ++ archive_suffix (archive l1); extra_args := [];
            proto := Some (py "file"); user := None; _host := None; port := None;
            path := Some p; archive := archive l1 |}.
  split; [|split].
  - unfold __str__. rewrite Hf, Hp.
    replace (eqb_str (py "file") (py "file")) with true by reflexivity.
    destruct (archive l1); [reflexivity|]. cbn [archive_suffix]. rewrite app_nil_r.
    reflexivity.
  - apply __init___parsed. unfold _parse.
    assert (N1 : re_match ssh_re (p ++ archive_suffix (archive l1)) = None).
    { rewrite re_match_ssh_re.
      destruct p as [|c p']; [discriminate Hb1|].
      cbn [py list_ascii_of_string startswith] in Hb1. rewrite andb_true_r in Hb1.
      apply Ascii.eqb_eq in Hb1. subst c. reflexivity. }
    assert (N2 : re_match file_re (p ++ archive_suffix (archive l1)) = None).
    { apply re_match_file_re_none.
      destruct p as [|c p']; [discriminate Hb1|].
      cbn [py list_ascii_of_string startswith] in Hb1. rewrite andb_true_r in Hb1.
      apply Ascii.eqb_eq in Hb1. subst c. reflexivity. }
    rewrite N1, N2, (scp_reads_file_rendered _ Hb1 Hb2 Hco Hao).
    unfold norm_path_group. cbn. rewrite Hfix. reflexivity.
  - unfold same_location. cbn. rewrite Hf, Wu, Wh, Wp, Hp. repeat split; reflexivity.
Qed.

Lemma file_round_trip_witness :
  exists s l2,
    __str__ {| orig := py "file:///srv/./repo::a"; extra_args := [];
               proto := Some (py "file"); user := None; _host := None; port := None;
               path := Some (py "/srv/repo"); archive := Some (py "a") |} = Ok s
    /\ __init__ None s = Ok l2
    /\ same_location l2
         {| orig := py "file:///srv/./repo::a"; extra_args := [];
            proto := Some (py "file"); user := None; _host := None; port := None;
            path := Some (py "/srv/repo"); archive := Some (py "a") |}.
Proof.
  apply (@file_round_trip None (py "file:///srv/./repo::a")).
  - vm_compute; reflexivity.
  - reflexivity.
  - reflexivity.
Defined.

(** ** The parsers: what a call does to [archives] *)

Lemma bind_holds {A B} (I : A -> Prop) (J : B -> Prop) (c : outcome A)
    (f : A -> outcome B) :
  holds I c -> (forall a, I a -> holds J (f a)) -> holds J (bind c f).
Proof. destruct c; cbn; auto. Qed.

Lemma accept_step X (os : OS) (l : option Location) (self : ArgumentParser.obj X) :
  ArgumentParser.usable l = true ->
  exists l0 l',
    l = Some l0 /\ canonicalize_path (getcwd os) None l0 = Ok l'
    /\ ArgumentParser.accept os l self
       = Return (true,
                 ArgumentParser.set_archives (ArgumentParser.archives self ++ [l'])
                   (ArgumentParser.set_parsing_borg_args false self)).
Proof.
  unfold ArgumentParser.usable, ArgumentParser.accept.
  destruct l as [l0|]; [|discriminate]. intros H.
  destruct (path l0) as [p|] eqn:Hp; [|discriminate H].
  exists l0. unfold canonicalize_path. rewrite Hp.
  destruct (proto l0) as [q|]; [destruct (eqb_str q (py "file"))|];
    try destruct (negb (os_path.isabs p));
    eexists; (split; [reflexivity|split; reflexivity]).
Qed.

Lemma base_parse_arg_step X (os : OS) (self : ArgumentParser.obj X) (arg : str)
    (needs_archive : bool) (la : option str) :
  collecting_has_location self ->
  holds (fun r =>
           archives_step os arg needs_archive la
             (ArgumentParser.archives self) (ArgumentParser.archives (snd r))
           /\ collecting_has_location (snd r)
           /\ ArgumentParser.sub (snd r) = ArgumentParser.sub self
           /\ ArgumentParser.disks (snd r) = ArgumentParser.disks self)
    (ArgumentParser.parse_arg os self arg needs_archive la).
Proof.
  intros Hinv. unfold ArgumentParser.parse_arg.
  destruct (ArgumentParser.one_of arg ["-h"; "--help"]%string); [exact I|].
  destruct (ArgumentParser.one_of arg ["-v"; "--version"]%string && _); [exact I|].
  destruct (ArgumentParser.one_of arg ["--exclude-source-dev"]%string && _).
  { cbn. split; [left; reflexivity|]. split; [exact Hinv|split; reflexivity]. }
  destruct (ArgumentParser.one_of arg ["--exclude-target-dev"]%string && _).
  { cbn. split; [left; reflexivity|]. split; [exact Hinv|split; reflexivity]. }
  destruct (needs_archive && ArgumentParser.usable (try_location (BORG_REPO os) arg)
            && ArgumentParser.has_archive (try_location (BORG_REPO os) arg)) eqn:A1.
  { apply andb_true_iff in A1. destruct A1 as [A1 A3].
    apply andb_true_iff in A1. destruct A1 as [A1 A2]. subst needs_archive.
    destruct (@accept_step X os _ self A2) as [l0 [l' [El [Ec ->]]]].
    cbn. split; [|split; [intros H; discriminate H|split; reflexivity]].
    right; left. exists l0, l'. split; [exact El|]. split; [exact Ec|].
    split; [reflexivity|]. rewrite El in A3. cbn in A3.
    destruct (archive l0); [discriminate|discriminate A3]. }
  destruct (eqb_str arg (py "--borg-args")).
  { unfold collecting_has_location in *.
    destruct (ArgumentParser.archives self) as [|a ls] eqn:Ea; [exact I|].
    cbn. rewrite Ea. split; [left; reflexivity|].
    split; [intros _; discriminate|split; reflexivity]. }
  destruct (negb needs_archive
            && match la with Some x => eqb_str x (py "--borg-args") | None => false end
            && ArgumentParser.usable (try_location (BORG_REPO os) arg)) eqn:A2.
  { apply andb_true_iff in A2. destruct A2 as [A2 A4].
    apply andb_true_iff in A2. destruct A2 as [A2 A3].
    destruct needs_archive; [discriminate A2|].
    destruct (@accept_step X os _ self A4) as [l0 [l' [El [Ec ->]]]].
    cbn. split; [|split; [intros H; discriminate H|split; reflexivity]].
    right; left. exists l0, l'. split; [exact El|]. split; [exact Ec|].
    split; [reflexivity|].
    destruct la as [x|]; [|discriminate A3].
    apply eqb_str_spec in A3. subst x. reflexivity. }
  destruct (ArgumentParser.parsing_borg_args self) eqn:Pb.
  { pose proof (Hinv Pb) as Hne.
    destruct (exists_last Hne) as [init [l El]].
    rewrite El, append_extra_arg_last. cbn.
    split; [right; right; exists init, l; split; reflexivity|].
    split; [|split; reflexivity].
    intros _ E. apply app_eq_nil in E. destruct E as [_ E]. discriminate E. }
  destruct (ArgumentParser.one_of arg ["-p"; "--progress"]%string); cbn;
    (split; [left; reflexivity|]);
    (split; [|split; reflexivity]);
    unfold collecting_has_location; cbn; rewrite Pb; discriminate.
Qed.

Lemma bvm_parse_arg_step (os : OS) (self : BVMArgumentParser.obj) (arg : str)
    (la : option str) :
  collecting_has_location self ->
  holds (fun r =>
           archives_step os arg true la
             (ArgumentParser.archives self) (ArgumentParser.archives (snd r))
           /\ collecting_has_location (snd r))
    (BVMArgumentParser.parse_arg os self arg la).
Proof.
  intros Hinv. unfold BVMArgumentParser.parse_arg.
  eapply bind_holds; [apply base_parse_arg_step; exact Hinv|].
  intros [b s] [Hs [Hi _]]. cbn [fst snd] in *.
  destruct b; cbn [negb]; [cbn; auto|].
  destruct (BVMArgumentParser.domain (ArgumentParser.sub s)); cbn; auto.
Qed.

Lemma multi_parse_arg_step (os : OS) (self : MultiArgumentParser.obj) (arg : str)
    (la : option str) :
  collecting_has_location self ->
  holds (fun r =>
           archives_step os arg false la
             (ArgumentParser.archives self) (ArgumentParser.archives (snd r))
           /\ collecting_has_location (snd r))
    (MultiArgumentParser.parse_arg os self arg la).
Proof.
  intros Hinv. unfold MultiArgumentParser.parse_arg.
  assert (K : forall s : MultiArgumentParser.obj,
             ArgumentParser.archives s = ArgumentParser.archives self ->
             ArgumentParser.parsing_borg_args s = ArgumentParser.parsing_borg_args self ->
             holds (fun r =>
                      archives_step os arg false la
                        (ArgumentParser.archives self) (ArgumentParser.archives (snd r))
                      /\ collecting_has_location (snd r))
               (Return (true, s))).
  { intros s Ha Hp. cbn. split; [left; exact Ha|].
    unfold collecting_has_location in *. rewrite Ha, Hp. exact Hinv. }
  destruct (MultiArgumentParser.command (ArgumentParser.sub self));
    [|apply K; reflexivity].
  destruct (MultiArgumentParser.dir (ArgumentParser.sub self));
    [|apply K; reflexivity].
  repeat match goal with
         | |- holds _ (if ?b then Return _ else _) =>
             destruct b; [apply K; reflexivity|]
         end.
  eapply bind_holds; [apply base_parse_arg_step; exact Hinv|].
  intros [b st] [Hs [Hi _]]. cbn [fst snd] in *.
  destruct b; cbn; auto.
Qed.

Section Invariant.
Import ArgumentParser.
Variable X : Type.
Variable os : OS.
Variable needs_archive : bool.
Variable self_parse_arg : obj X -> str -> option str -> outcome (bool * obj X).

Hypothesis self_parse_arg_step : forall self arg la,
  collecting_has_location self ->
  holds (fun r =>
           archives_step os arg needs_archive la (archives self) (archives (snd r))
           /\ collecting_has_location (snd r))
    (self_parse_arg self arg la).

(** A property of [archives] that every step keeps, given what is known of
    the lookahead token. *)
Variable J : list Location -> Prop.
Variable P : str -> Prop.

Hypothesis J_step : forall arg la before after,
  when_some P la -> J before ->
  archives_step os arg needs_archive la before after -> J after.

Lemma dispatch_keeps (self : obj X) (arg : str) (la : option str) :
  when_some P la -> collecting_has_location self -> J (archives self) ->
  holds (fun s => collecting_has_location s /\ J (archives s))
    (dispatch self_parse_arg self arg la).
Proof.
  intros Hla Hi Hj. unfold dispatch.
  eapply bind_holds; [apply self_parse_arg_step; exact Hi|].
  intros [b s] [Hs Hi']. cbn [fst snd] in *.
  destruct b; [|exact I]. cbn. split; [exact Hi'|].
  eapply J_step; eassumption.
Qed.

Lemma short_flags_keeps (cs : str) (self : obj X) (la : option str) :
  when_some P la -> collecting_has_location self -> J (archives self) ->
  holds (fun s => collecting_has_location s /\ J (archives s))
    (short_flags self_parse_arg self cs la).
Proof.
  intros Hla. revert self; induction cs as [|c cs IH]; intros self Hi Hj.
  - cbn. auto.
  - cbn [short_flags]. eapply bind_holds; [apply dispatch_keeps; assumption|].
    intros s [Hi' Hj']. apply IH; assumption.
Qed.

Lemma loop_keeps (args : list str) (self : obj X) (skip : bool) :
  Forall P args -> collecting_has_location self -> J (archives self) ->
  holds (fun s => collecting_has_location s /\ J (archives s))
    (loop self_parse_arg self skip args).
Proof.
  revert self skip; induction args as [|arg rest IH]; intros self skip Hp Hi Hj.
  - cbn. auto.
  - inversion Hp as [|? ? _ Hrest]; subst.
    assert (Hla : when_some P (hd_error rest)).
    { destruct rest as [|x rest']; [exact I|]. inversion Hrest; assumption. }
    cbn [loop]. destruct skip; [apply IH; assumption|].
    repeat match goal with
           | |- holds _ (if ?b then _ else _) => destruct b
           end;
      (eapply bind_holds;
       [first [apply short_flags_keeps | apply dispatch_keeps]; assumption|]);
      intros s [Hi' Hj']; apply IH; assumption.
Qed.

Lemma parse_args_keeps (args : list str) (self : obj X) :
  Forall P args -> J (archives self) ->
  holds (fun s => J (archives s) /\ archives s <> [])
    (parse_args self_parse_arg self args).
Proof.
  intros Hp Hj. unfold parse_args. destruct args as [|a args']; [exact I|].
  eapply bind_holds.
  - apply loop_keeps; [exact Hp| |exact Hj].
    unfold collecting_has_location. cbn. discriminate.
  - intros s [_ Hj']. cbn beta. destruct (archives s) eqn:E; [exact I|].
    cbn. rewrite E. split; [exact Hj'|discriminate].
Qed.

End Invariant.



(** X11.  [borg-multi] accepts a location only from a token that the token
    ["--borg-args"] follows, so a command line it returns on holds that
    token. *)
Theorem borg_multi_needs_the_marker (os : OS) (args : list str)
    (self : MultiArgumentParser.obj) :
  MultiArgumentParser.__init__ os args = Return self ->
  In (py "--borg-args") (tl args).
Proof.
  intros H.
  assert (G : holds (fun s : MultiArgumentParser.obj => In (py "--borg-args") (tl args))
                (MultiArgumentParser.__init__ os args)).
  { unfold MultiArgumentParser.__init__, MultiArgumentParser.parse_args.
    eapply bind_holds.
    - apply (@parse_args_keeps _ os false (MultiArgumentParser.parse_arg os)
               (@multi_parse_arg_step os)
               (fun ls => ls <> [] -> In (py "--borg-args") (tl args))
               (fun x => In x (tl args))).
      + intros arg la before after Hla Hb [->|[[l [l' [_ [_ [_ E]]]]]|[init [l [-> _]]]]].
        * exact Hb.
        * intros _. rewrite E in Hla. exact Hla.
        * intros _. apply Hb. intros E. apply app_eq_nil in E.
          destruct E as [_ E]; discriminate E.
      + apply Forall_forall. auto.
      + intros E. exfalso; apply E; reflexivity.
    - intros s [Hj Hne]. cbn beta.
      destruct (MultiArgumentParser.command _); [|exact I].
      destruct (ArgumentParser.archives s); [exact I|]. cbn. apply Hj. discriminate. }
  rewrite H in G. exact G.
Qed.

Lemma borg_multi_needs_the_marker_witness :
  In (py "--borg-args") (tl [py "borg-multi"; py "/r::a"; py "--borg-args"; py "-v"]).
Proof.
  eapply (@borg_multi_needs_the_marker os_plain).
  vm_compute. reflexivity.
Defined.

(** ** What the parsers accept *)

(** X12.  When the working directory is absolute, every location
    [backup-vm] has accepted names an archive and has a path, an absolute
    one if its protocol is [file]; a returned parser holds at least one
    such location and a domain. *)
Theorem backup_vm_archives_are_named_and_absolute (os : OS) (args : list str)
    (self : BVMArgumentParser.obj) :
  os_path.isabs (getcwd os) = true ->
  BVMArgumentParser.__init__ os args = Return self ->
  Forall (fun l => archive l <> None
                   /\ exists p, path l = Some p
                                /\ (proto l = Some (py "file") -> os_path.isabs p = true))
    (ArgumentParser.archives self)
  /\ ArgumentParser.archives self <> []
  /\ BVMArgumentParser.domain (ArgumentParser.sub self) <> None.
Proof.
  intros Hcwd H.
  set (Q := fun l => archive l <> None
                     /\ exists p, path l = Some p
                                  /\ (proto l = Some (py "file")
                                      -> os_path.isabs p = true)).
  assert (G : holds (fun s : BVMArgumentParser.obj =>
                       Forall Q (ArgumentParser.archives s)
                       /\ ArgumentParser.archives s <> []
                       /\ BVMArgumentParser.domain (ArgumentParser.sub s) <> None)
                (BVMArgumentParser.__init__ os args)).
  { unfold BVMArgumentParser.__init__, BVMArgumentParser.parse_args.
    eapply bind_holds.
    - apply (@parse_args_keeps _ os true (BVMArgumentParser.parse_arg os)
               (@bvm_parse_arg_step os) (Forall Q) (fun _ => True)).
      + intros arg la before after _ Hb
          [->|[[l [l' [Hl [Hc [-> Ha]]]]]|[init [l [-> ->]]]]].
        * exact Hb.
        * apply Forall_app. split; [exact Hb|]. constructor; [|constructor].
          unfold try_location in Hl.
          destruct (__init__ (BORG_REPO os) arg) as [l1|] eqn:E; [|discriminate Hl].
          inversion Hl; subst l1.
          destruct (__init___well_formed _ _ E) as [[[p [Hp _]] _] _].
          destruct (@canonicalize_path_spec (getcwd os) None l p Hcwd Hp)
            as [l2 [q [Hc2 [El [Hq _]]]]].
          assert (E2 : l' = l2) by congruence. rewrite E2, El.
          split; [exact Ha|]. exists q. split; [reflexivity|exact Hq].
        * apply Forall_app in Hb. destruct Hb as [Hi Hl].
          apply Forall_app. split; [exact Hi|].
          inversion Hl; subst. constructor; [|constructor]. assumption.
      + apply Forall_forall. auto.
      + constructor.
    - intros s [Hj Hne]. cbn beta.
      destruct (BVMArgumentParser.domain (ArgumentParser.sub s)) eqn:D; [|exact I].
      destruct (ArgumentParser.archives s) eqn:Ea; [exact I|]. cbn.
      rewrite Ea, D. split; [exact Hj|]. split; discriminate. }
  rewrite H in G. exact G.
Qed.

Lemma backup_vm_archives_are_named_and_absolute_witness :
  exists self,
    BVMArgumentParser.__init__ os_plain [py "backup-vm"; py "vm1"; py "repo::a"]
    = Return self
    /\ Forall (fun l => archive l <> None
                        /\ exists p, path l = Some p
                                     /\ (proto l = Some (py "file")
                                         -> os_path.isabs p = true))
         (ArgumentParser.archives self).
Proof.
  eexists. split; [vm_compute; reflexivity|].
  eapply (@backup_vm_archives_are_named_and_absolute os_plain
            [py "backup-vm"; py "vm1"; py "repo::a"]);
    [reflexivity|vm_compute; reflexivity].
Defined.

(** ** Short flags, and options with a value *)

Lemma bind_assoc {A B C} (c : outcome A) (f : A -> outcome B) (g : B -> outcome C) :
  bind (bind c f) g = bind c (fun a => bind (f a) g).
Proof. destruct c; reflexivity. Qed.

Lemma bind_ext {A B} (c : outcome A) (f g : A -> outcome B) :
  (forall a, f a = g a) -> bind c f = bind c g.
Proof. intros H. destruct c; cbn; auto. Qed.

(** With [needs_archive=True] the base [parse_arg] reads the lookahead for
    the two exclusion options only. *)
Lemma base_parse_arg_lookahead X (os : OS) (self : ArgumentParser.obj X) (arg : str)
    (la la' : option str) :
  ArgumentParser.one_of arg ["--exclude-source-dev"; "--exclude-target-dev"]%string
  = false ->
  ArgumentParser.parse_arg os self arg true la
  = ArgumentParser.parse_arg os self arg true la'.
Proof.
  unfold ArgumentParser.one_of. cbn [existsb]. rewrite orb_false_r. intros H.
  apply orb_false_iff in H. destruct H as [H1 H2].
  unfold ArgumentParser.parse_arg, ArgumentParser.one_of. cbn [existsb negb andb].
  rewrite H1, H2. reflexivity.
Qed.

Lemma short_flag_not_exclude (c : ascii) :
  ArgumentParser.one_of (py "-" ++ [c])
    ["--exclude-source-dev"; "--exclude-target-dev"]%string = false.
Proof.
  unfold ArgumentParser.one_of. cbn. destruct (Ascii.eqb c "-"); reflexivity.
Qed.

Lemma bvm_dispatch_short_flag (os : OS) (self : BVMArgumentParser.obj) (c : ascii)
    (la la' : option str) :
  ArgumentParser.dispatch (BVMArgumentParser.parse_arg os) self (py "-" ++ [c]) la
  = ArgumentParser.dispatch (BVMArgumentParser.parse_arg os) self (py "-" ++ [c]) la'.
Proof.
  unfold ArgumentParser.dispatch, BVMArgumentParser.parse_arg.
  rewrite (@base_parse_arg_lookahead _ os self (py "-" ++ [c]) la la'
             (short_flag_not_exclude c)).
  reflexivity.
Qed.

Lemma bvm_short_flags_lookahead (os : OS) (cs : str) (self : BVMArgumentParser.obj)
    (la la' : option str) :
  ArgumentParser.short_flags (BVMArgumentParser.parse_arg os) self cs la
  = ArgumentParser.short_flags (BVMArgumentParser.parse_arg os) self cs la'.
Proof.
  revert self; induction cs as [|c cs IH]; intros self; [reflexivity|].
  cbn [ArgumentParser.short_flags].
  rewrite (bvm_dispatch_short_flag os self c la la').
  apply bind_ext. intros a. apply IH.
Qed.

Lemma loop_short_flags X (pa : ArgumentParser.obj X -> str -> option str
                              -> outcome (bool * ArgumentParser.obj X))
    (self : ArgumentParser.obj X) (cs : str) (rest : list str) :
  startswith cs (py "-") = false -> contains "=" cs = false ->
  ArgumentParser.loop pa self false (("-"%char :: cs) :: rest)
  = (self' <- ArgumentParser.short_flags pa self cs (hd_error rest) ;;
     ArgumentParser.loop pa self' false rest).
Proof.
  intros H1 H2.
  change (ArgumentParser.loop pa self false (("-"%char :: cs) :: rest))
    with (if startswith ("-"%char :: cs) (py "-")
             && negb (startswith ("-"%char :: cs) (py "--"))
             && negb (contains "=" ("-"%char :: cs))
          then self' <- ArgumentParser.short_flags pa self cs (hd_error rest) ;;
               ArgumentParser.loop pa self' false rest
          else if startswith ("-"%char :: cs) (py "--")
                  && negb (contains "=" ("-"%char :: cs))
                  && negb (eqb_str ("-"%char :: cs) (py "--borg-args"))
                  && negb (ArgumentParser.parsing_borg_args self)
          then self' <- ArgumentParser.dispatch pa self ("-"%char :: cs) (hd_error rest) ;;
               ArgumentParser.loop pa self' true rest
          else self' <- ArgumentParser.dispatch pa self ("-"%char :: cs) (hd_error rest) ;;
               ArgumentParser.loop pa self' false rest).
  assert (E1 : startswith ("-"%char :: cs) (py "--") = false).
  { cbn [py list_ascii_of_string startswith] in *. rewrite H1. reflexivity. }
  assert (E2 : contains "=" ("-"%char :: cs) = false).
  { rewrite contains_cons_eq, H2. reflexivity. }
  rewrite E1, E2. reflexivity.
Qed.

(** X13.  In [backup-vm] a bundle of short flags is handled as the flags
    given one by one: ["-abc"] and ["-a" "-b" "-c"] lead to the same
    result. *)
Theorem short_flag_bundle_is_the_separate_flags (os : OS) (cs : str)
    (self : BVMArgumentParser.obj) (rest : list str) :
  contains "-" cs = false -> contains "=" cs = false ->
  ArgumentParser.loop (BVMArgumentParser.parse_arg os) self false
    (("-"%char :: cs) :: rest)
  = ArgumentParser.loop (BVMArgumentParser.parse_arg os) self false
      (map (fun c => ["-"%char; c]) cs ++ rest).
Proof.
  intros H1 H2.
  assert (Hs : startswith cs (py "-") = false).
  { destruct cs as [|c cs']; [reflexivity|].
    rewrite contains_cons_eq in H1. apply orb_false_iff in H1. destruct H1 as [H1 _].
    cbn [py list_ascii_of_string startswith]. rewrite (Ascii.eqb_sym c "-"), H1.
    reflexivity. }
  rewrite (loop_short_flags _ self cs rest Hs H2). clear Hs.
  revert self; induction cs as [|c cs IH]; intros self.
  - cbn [ArgumentParser.short_flags map app bind]. reflexivity.
  - rewrite contains_cons_eq in H1, H2.
    apply orb_false_iff in H1. destruct H1 as [H1 H1'].
    apply orb_false_iff in H2. destruct H2 as [H2 H2'].
    cbn [map app].
    rewrite (@loop_short_flags _ (BVMArgumentParser.parse_arg os) self [c]
               (map (fun c => ["-"%char; c]) cs ++ rest)).
    + cbn [ArgumentParser.short_flags]. rewrite !bind_assoc.
      match goal with
      | |- _ = bind (ArgumentParser.dispatch _ _ _ ?la) _ =>
          rewrite (bvm_dispatch_short_flag os self c la (hd_error rest))
      end.
      apply bind_ext. intros a. cbn [bind].
      rewrite <- (IH H1' H2'). reflexivity.
    + cbn [py list_ascii_of_string startswith]. rewrite (Ascii.eqb_sym c "-"), H1.
      reflexivity.
    + rewrite contains_cons_eq, H2. reflexivity.
Qed.

Lemma short_flag_bundle_is_the_separate_flags_witness :
  ArgumentParser.loop (BVMArgumentParser.parse_arg os_plain)
    (init_obj os_plain (py "backup-vm") [] {| BVMArgumentParser.domain := None |})
    false [py "-pq"; py "vm1"; py "repo::a"]
  = ArgumentParser.loop (BVMArgumentParser.parse_arg os_plain)
      (init_obj os_plain (py "backup-vm") [] {| BVMArgumentParser.domain := None |})
      false [py "-p"; py "-q"; py "vm1"; py "repo::a"].
Proof.
  apply (@short_flag_bundle_is_the_separate_flags os_plain (py "pq")); reflexivity.
Defined.

Lemma split_prefix (sep : ascii) (a b : str) :
  contains sep a = false -> split sep (a ++ sep :: b) = a :: split sep b.
Proof.
  induction a as [|c a IH]; intros H.
  - cbn [app split]. rewrite Ascii.eqb_refl. reflexivity.
  - rewrite contains_cons_eq in H. apply orb_false_iff in H. destruct H as [Hc Ha].
    cbn [app split]. rewrite (Ascii.eqb_sym c sep), Hc, (IH Ha). reflexivity.
Qed.

Lemma split_no_sep (sep : ascii) (a : str) :
  contains sep a = false -> split sep a = [a].
Proof.
  induction a as [|c a IH]; intros H; [reflexivity|].
  rewrite contains_cons_eq in H. apply orb_false_iff in H. destruct H as [Hc Ha].
  cbn [split]. rewrite (Ascii.eqb_sym c sep), Hc, (IH Ha). reflexivity.
Qed.

(** The text of [v] before its first ["="], all of [v] when it has none. *)
Lemma after_equals_value (name v : str) :
  contains "=" name = false ->
  MultiArgumentParser.after_equals (name ++ "="%char :: v)
  = Some (hd [] (split "=" v)).
Proof.
  intros H. unfold MultiArgumentParser.after_equals.
  rewrite (@split_prefix "="%char name v H). cbn [nth_error].
  pose proof (@split_nonempty "=" v) as Hn.
  destruct (split "=" v); [congruence|reflexivity].
Qed.

(** X14.  [borg-multi], with a subcommand and a path set: the token
    ["--borg-cmd=VALUE"] sets the subcommand, and ["--path=VALUE"] the
    path, to the text of [VALUE] before its first ["="] (all of [VALUE]
    when it holds none); the [IndexError] handlers are never entered, so
    neither field becomes [None] this way. *)
Theorem option_with_equals_sets_the_value (os : OS) (self : MultiArgumentParser.obj)
    (v : str) (la : option str) :
  MultiArgumentParser.command (ArgumentParser.sub self) <> None ->
  MultiArgumentParser.dir (ArgumentParser.sub self) <> None ->
  MultiArgumentParser.parse_arg os self (py "--borg-cmd=" ++ v) la
  = Return (true, MultiArgumentParser.set_command (Some (hd [] (split "=" v))) self)
  /\ MultiArgumentParser.parse_arg os self (py "--path=" ++ v) la
     = Return (true, MultiArgumentParser.set_dir (Some (hd [] (split "=" v))) self)
  /\ (contains "=" v = false -> hd [] (split "=" v) = v).
Proof.
  intros Hc Hd. unfold MultiArgumentParser.parse_arg.
  destruct (MultiArgumentParser.command (ArgumentParser.sub self)); [|congruence].
  destruct (MultiArgumentParser.dir (ArgumentParser.sub self)); [|congruence].
  split; [|split].
  - change (py "--borg-cmd=" ++ v) with (py "--borg-cmd" ++ "="%char :: v).
    rewrite (@after_equals_value (py "--borg-cmd") v eq_refl). reflexivity.
  - change (py "--path=" ++ v) with (py "--path" ++ "="%char :: v).
    rewrite (@after_equals_value (py "--path") v eq_refl). reflexivity.
  - intros H. rewrite (@split_no_sep "="%char v H). reflexivity.
Qed.

Lemma option_with_equals_sets_the_value_witness :
  MultiArgumentParser.parse_arg os_plain
    (init_obj os_plain (py "borg-multi") []
       {| MultiArgumentParser.command := Some (py "create");
          MultiArgumentParser.dir := Some (py ".") |})
    (py "--borg-cmd=" ++ py "extract") None
  = Return (true,
            MultiArgumentParser.set_command (Some (hd [] (split "=" (py "extract"))))
              (init_obj os_plain (py "borg-multi") []
                 {| MultiArgumentParser.command := Some (py "create");
                    MultiArgumentParser.dir := Some (py ".") |})).
Proof.
  apply (@option_with_equals_sets_the_value os_plain
           (init_obj os_plain (py "borg-multi") []
              {| MultiArgumentParser.command := Some (py "create");
                 MultiArgumentParser.dir := Some (py ".") |})
           (py "extract") None); discriminate.
Defined.

(** X15.  [borg-multi], with a subcommand and a path set and outside the
    borg arguments: after the token ["--borg-cmd"] (or ["--path"]) the
    next token is skipped, not stored: the loop goes on behind it with the
    subcommand (the path) unset, so that the token after it is taken for
    the value.  After ["-c"] the next token, when it does not start with a
    dash, is stored as the subcommand. *)
Theorem separate_option_value_is_skipped (os : OS) (self : MultiArgumentParser.obj)
    (v : str) (rest : list str) :
  MultiArgumentParser.command (ArgumentParser.sub self) <> None ->
  MultiArgumentParser.dir (ArgumentParser.sub self) <> None ->
  ArgumentParser.parsing_borg_args self = false ->
  ArgumentParser.loop (MultiArgumentParser.parse_arg os) self false
    (py "--borg-cmd" :: v :: rest)
  = ArgumentParser.loop (MultiArgumentParser.parse_arg os)
      (MultiArgumentParser.set_command None self) false rest
  /\ ArgumentParser.loop (MultiArgumentParser.parse_arg os) self false
       (py "--path" :: v :: rest)
     = ArgumentParser.loop (MultiArgumentParser.parse_arg os)
         (MultiArgumentParser.set_dir None self) false rest
  /\ (startswith v (py "-") = false ->
      ArgumentParser.loop (MultiArgumentParser.parse_arg os) self false
        (py "-c" :: v :: rest)
      = ArgumentParser.loop (MultiArgumentParser.parse_arg os)
          (MultiArgumentParser.set_command (Some v) self) false rest).
Proof.
  intros Hc Hd Hp.
  destruct (MultiArgumentParser.command (ArgumentParser.sub self)) as [c0|] eqn:Ec;
    [|congruence].
  destruct (MultiArgumentParser.dir (ArgumentParser.sub self)) as [d0|] eqn:Ed;
    [|congruence].
  split; [|split].
  - cbn [ArgumentParser.loop]. rewrite Hp.
    cbn [py list_ascii_of_string startswith contains eqb_str Ascii.eqb Bool.eqb
           andb orb negb].
    unfold ArgumentParser.dispatch, MultiArgumentParser.parse_arg.
    rewrite Ec, Ed. reflexivity.
  - cbn [ArgumentParser.loop]. rewrite Hp.
    cbn [py list_ascii_of_string startswith contains eqb_str Ascii.eqb Bool.eqb
           andb orb negb].
    unfold ArgumentParser.dispatch, MultiArgumentParser.parse_arg.
    rewrite Ec, Ed. reflexivity.
  - intros Hv. change (py "-c") with ("-"%char :: py "c").
    rewrite loop_short_flags by reflexivity.
    change (py "c") with ["c"%char]. cbn [ArgumentParser.short_flags].
    assert (D : forall la,
               ArgumentParser.dispatch (MultiArgumentParser.parse_arg os) self
                 (py "-" ++ ["c"%char]) la
               = Return (MultiArgumentParser.set_command None self)).
    { intros la. unfold ArgumentParser.dispatch, MultiArgumentParser.parse_arg.
      rewrite Ec, Ed. reflexivity. }
    rewrite D. cbn [bind].
    destruct v as [|x v'].
    + cbn [ArgumentParser.loop]. cbn [startswith py list_ascii_of_string andb].
      unfold ArgumentParser.dispatch, MultiArgumentParser.parse_arg. reflexivity.
    + cbn [py list_ascii_of_string startswith] in Hv.
      rewrite andb_true_r in Hv.
      cbn [ArgumentParser.loop]. cbn [startswith py list_ascii_of_string].
      rewrite Hv. cbn [andb].
      unfold ArgumentParser.dispatch, MultiArgumentParser.parse_arg. reflexivity.
Qed.

Lemma separate_option_value_is_skipped_witness :
  ArgumentParser.loop (MultiArgumentParser.parse_arg os_plain)
    (init_obj os_plain (py "borg-multi") []
       {| MultiArgumentParser.command := Some (py "create");
          MultiArgumentParser.dir := Some (py ".") |})
    false [py "--borg-cmd"; py "extract"; py "/r::a"; py "--borg-args"]
  = ArgumentParser.loop (MultiArgumentParser.parse_arg os_plain)
      (MultiArgumentParser.set_command None
         (init_obj os_plain (py "borg-multi") []
            {| MultiArgumentParser.command := Some (py "create");
               MultiArgumentParser.dir := Some (py ".") |}))
      false [py "/r::a"; py "--borg-args"].
Proof.
  apply (@separate_option_value_is_skipped os_plain
           (init_obj os_plain (py "borg-multi") []
              {| MultiArgumentParser.command := Some (py "create");
                 MultiArgumentParser.dir := Some (py ".") |})
           (py "extract") [py "/r::a"; py "--borg-args"]);
    [discriminate|discriminate|reflexivity].
Defined.

(** X16.  In [backup-vm], outside the borg arguments, the option
    ["--exclude-source-dev"] (["--exclude-target-dev"]) records the token
    that follows it in [exclude_source_devs] ([exclude_target_devs]) and the
    loop goes on behind that token; as the last token it records [None]. *)
Theorem exclusion_option_takes_the_next_token (os : OS)
    (self : BVMArgumentParser.obj) (v : str) (rest : list str) :
  ArgumentParser.parsing_borg_args self = false ->
  ArgumentParser.loop (BVMArgumentParser.parse_arg os) self false
    (py "--exclude-source-dev" :: v :: rest)
  = ArgumentParser.loop (BVMArgumentParser.parse_arg os)
      (ArgumentParser.set_exclude_source_devs
         (set_add opt_str_dec (Some v) (ArgumentParser.exclude_source_devs self)) self)
      false rest
  /\ ArgumentParser.loop (BVMArgumentParser.parse_arg os) self false
       (py "--exclude-target-dev" :: v :: rest)
     = ArgumentParser.loop (BVMArgumentParser.parse_arg os)
         (ArgumentParser.set_exclude_target_devs
            (set_add opt_str_dec (Some v) (ArgumentParser.exclude_target_devs self)) self)
         false rest
  /\ ArgumentParser.loop (BVMArgumentParser.parse_arg os) self false
       [py "--exclude-source-dev"]
     = Return (ArgumentParser.set_exclude_source_devs
                 (set_add opt_str_dec None (ArgumentParser.exclude_source_devs self)) self)
  /\ ArgumentParser.loop (BVMArgumentParser.parse_arg os) self false
       [py "--exclude-target-dev"]
     = Return (ArgumentParser.set_exclude_target_devs
                 (set_add opt_str_dec None (ArgumentParser.exclude_target_devs self)) self).
Proof.
  intros Hp.
  repeat split;
    cbn [ArgumentParser.loop]; rewrite Hp;
    cbn [py list_ascii_of_string startswith contains existsb eqb_str Ascii.eqb Bool.eqb
           andb orb negb];
    unfold ArgumentParser.dispatch, BVMArgumentParser.parse_arg,
      ArgumentParser.parse_arg;
    rewrite Hp; reflexivity.
Qed.

Lemma exclusion_option_takes_the_next_token_witness :
  ArgumentParser.loop (BVMArgumentParser.parse_arg os_plain)
    (init_obj os_plain (py "backup-vm") [] {| BVMArgumentParser.domain := None |})
    false [py "--exclude-source-dev"]
  = Return (ArgumentParser.set_exclude_source_devs
              (set_add opt_str_dec None
                 (ArgumentParser.exclude_source_devs
                    (init_obj os_plain (py "backup-vm") []
                       {| BVMArgumentParser.domain := None |})))
              (init_obj os_plain (py "backup-vm") []
                 {| BVMArgumentParser.domain := None |})).
Proof.
  apply (@exclusion_option_takes_the_next_token os_plain
           (init_obj os_plain (py "backup-vm") [] {| BVMArgumentParser.domain := None |})
           [] []).
  reflexivity.
Defined.

(** ** What the loop of [backup-vm] keeps *)

Section Kept.
Import ArgumentParser.
Variable X : Type.
Variable self_parse_arg : obj X -> str -> option str -> outcome (bool * obj X).
Variable I : obj X -> Prop.

Hypothesis self_parse_arg_keeps : forall self arg la r,
  I self -> self_parse_arg self arg la = Return r -> I (snd r).

Lemma dispatch_kept (self self' : obj X) (arg : str) (la : option str) :
  I self -> dispatch self_parse_arg self arg la = Return self' -> I self'.
Proof.
  intros Hi. unfold dispatch.
  destruct (self_parse_arg self arg la) as [[b s]| | |] eqn:E; try discriminate.
  cbn [bind fst snd]. destruct b; [|discriminate].
  intros H; inversion H; subst s.
  exact (@self_parse_arg_keeps self arg la (true, self') Hi E).
Qed.

Lemma short_flags_kept (cs : str) (self self' : obj X) (la : option str) :
  I self -> short_flags self_parse_arg self cs la = Return self' -> I self'.
Proof.
  revert self; induction cs as [|c cs IH]; intros self Hi; cbn [short_flags].
  - intros H; inversion H; subst; exact Hi.
  - destruct (dispatch self_parse_arg self (py "-" ++ [c]) la) as [s| | |] eqn:E;
      try discriminate.
    cbn [bind]. apply IH. eapply dispatch_kept; eassumption.
Qed.

Lemma loop_kept (args : list str) (self self' : obj X) (skip : bool) :
  I self -> loop self_parse_arg self skip args = Return self' -> I self'.
Proof.
  revert self skip; induction args as [|arg rest IH]; intros self skip Hi.
  - cbn. intros H; inversion H; subst; exact Hi.
  - cbn [loop]. destruct skip; [apply IH; exact Hi|].
    repeat match goal with
           | |- (if ?b then _ else _) = _ -> _ => destruct b
           end.
    + destruct (short_flags self_parse_arg self (tl arg) (hd_error rest))
        as [s| | |] eqn:E; try discriminate.
      cbn [bind]. apply IH. eapply short_flags_kept; eassumption.
    + destruct (dispatch self_parse_arg self arg (hd_error rest))
        as [s| | |] eqn:E; try discriminate.
      cbn [bind]. apply IH. eapply dispatch_kept; eassumption.
    + destruct (dispatch self_parse_arg self arg (hd_error rest))
        as [s| | |] eqn:E; try discriminate.
      cbn [bind]. apply IH. eapply dispatch_kept; eassumption.
Qed.

End Kept.

(** The base [parse_arg] touches neither the fields of a subclass nor
    [disks]. *)
Lemma base_parse_arg_sub X (os : OS) (self : ArgumentParser.obj X) (arg : str)
    (needs_archive : bool) (la : option str) (r : bool * ArgumentParser.obj X) :
  ArgumentParser.parse_arg os self arg needs_archive la = Return r ->
  ArgumentParser.sub (snd r) = ArgumentParser.sub self
  /\ ArgumentParser.disks (snd r) = ArgumentParser.disks self.
Proof.
  unfold ArgumentParser.parse_arg, ArgumentParser.accept.
  repeat match goal with
         | |- (if ?b then _ else _) = _ -> _ => destruct b
         | |- match ?x with _ => _ end = _ -> _ => destruct x
         end;
    intros H; inversion H; subst r; split; reflexivity.
Qed.

(** X17.  In the loop of [backup-vm] the domain is set once: when it is
    set, no later token changes it, and no token is ever taken out of
    [disks]. *)
Theorem domain_is_set_once (os : OS) (args : list str)
    (self self' : BVMArgumentParser.obj) (skip : bool) (d : str) :
  BVMArgumentParser.domain (ArgumentParser.sub self) = Some d ->
  ArgumentParser.loop (BVMArgumentParser.parse_arg os) self skip args = Return self' ->
  BVMArgumentParser.domain (ArgumentParser.sub self') = Some d
  /\ forall x, set_In x (ArgumentParser.disks self) ->
               set_In x (ArgumentParser.disks self').
Proof.
  intros Hd H.
  apply (@loop_kept _ (BVMArgumentParser.parse_arg os)
           (fun s : BVMArgumentParser.obj =>
              BVMArgumentParser.domain (ArgumentParser.sub s) = Some d
              /\ forall x, set_In x (ArgumentParser.disks self) ->
                           set_In x (ArgumentParser.disks s))) in H.
  - exact H.
  - clear. intros s arg la r [Hs Hx]. unfold BVMArgumentParser.parse_arg.
    destruct (ArgumentParser.parse_arg os s arg true la) as [[b s1]| | |] eqn:E;
      try discriminate.
    apply base_parse_arg_sub in E. destruct E as [E1 E2]. cbn [fst snd bind] in *.
    destruct b; cbn [negb].
    + intros H; inversion H; subst r. cbn [snd]. rewrite E1, E2. auto.
    + rewrite E1, Hs. intros H; inversion H; subst r. cbn.
      rewrite E1. split; [exact Hs|].
      intros x Hin. apply set_add_intro1. rewrite E2. apply Hx; exact Hin.
  - split; [exact Hd|auto].
Qed.

Lemma domain_is_set_once_witness :
  BVMArgumentParser.domain
    (ArgumentParser.sub
       (ArgumentParser.set_archives
          [{| orig := py "/r::a"; extra_args := []; proto := Some (py "file");
              user := None; _host := None; port := None; path := Some (py "/r");
              archive := Some (py "a") |}]
          (ArgumentParser.set_disks [py "sda"]
             (init_obj os_plain (py "backup-vm") []
                {| BVMArgumentParser.domain := Some (py "vm1") |}))))
  = Some (py "vm1").
Proof.
  apply (@domain_is_set_once os_plain [py "sda"; py "/r::a"]
           (init_obj os_plain (py "backup-vm") []
              {| BVMArgumentParser.domain := Some (py "vm1") |})
           _ false (py "vm1")).
  - reflexivity.
  - vm_compute. reflexivity.
Defined.

(** ** Disks *)

(** The three ways [Disk.__init__] ends. *)
Lemma disk_init_cases (e : ElementTree.Element) :
  match Disk.__init__ e with
  | Disk.Ok d =>
      Disk.xml d = e
      /\ (match Disk.type d with Some _ => true | None => false end) = has_source e
      /\ (has_source e = true -> Disk.path d <> None)
      /\ has_target e = true /\ ends_iteration e = false
  | Disk.Raise Disk.StopIteration => ends_iteration e = true
  | Disk.Raise Disk.AttributeError => has_target e = false /\ ends_iteration e = false
  end.
Proof.
  unfold Disk.__init__, has_source, has_target, ends_iteration, has_target.
  destruct (ElementTree.find (py "target") e) as [tgt|]; [|split; reflexivity].
  destruct (ElementTree.find (py "source") e) as [src|].
  - destruct (ElementTree.attrib src) as [|[k v] rest]; [reflexivity|].
    cbn. repeat split; discriminate.
  - cbn. repeat split; discriminate.
Qed.

(** What the comprehension has built when it ends. *)
Lemma construct_reached (es : list ElementTree.Element) :
  match Disk.construct es with
  | Disk.Ok ds =>
      Forall2 (fun e d => Disk.__init__ e = Disk.Ok d) (reached es) ds
      /\ Forall (fun e => has_target e = true) (reached es)
  | Disk.Raise x =>
      x = Disk.AttributeError
      /\ ~ Forall (fun e => has_target e = true) (reached es)
  end.
Proof.
  induction es as [|e es IH]; cbn [Disk.construct reached].
  - split; constructor.
  - pose proof (disk_init_cases e) as C.
    destruct (Disk.__init__ e) as [d|[|]] eqn:E.
    + destruct C as [_ [_ [_ [Ht He]]]]. rewrite He.
      destruct (Disk.construct es) as [ds|x].
      * destruct IH as [IH1 IH2]. split; constructor; assumption.
      * destruct IH as [IH1 IH2]. split; [exact IH1|].
        intros F. inversion F; subst. apply IH2; assumption.
    + destruct C as [Ht He]. rewrite He. split; [reflexivity|].
      intros F. inversion F; subst. congruence.
    + rewrite C. split; constructor.
Qed.

(** X18.  When [get_disks] returns, the disks it yields are those of the
    [devices/disk] elements that have a [<source>] child and come before
    the first element whose [<source>] has no attribute: one disk for each
    of them, none from an element without a [<source>] (an empty CD
    drive), and none from that element or from any behind it, which are
    left out without an error.  Every disk it yields has a type and a
    path. *)
Theorem get_disks_yields_the_reached_disks_with_a_source
    (tree : ElementTree.Element) (ds : list Disk.t) :
  Disk.get_disks tree = Disk.Ok ds ->
  (forall e, In e (map Disk.xml ds)
             <-> In e (reached (ElementTree.findall (py "devices/disk") tree))
                 /\ has_source e = true)
  /\ length ds
     = length (filter has_source
                 (reached (ElementTree.findall (py "devices/disk") tree)))
  /\ Forall (fun d => Disk.type d <> None /\ Disk.path d <> None) ds.
Proof.
  unfold Disk.get_disks.
  pose proof (construct_reached (ElementTree.findall (py "devices/disk") tree)) as C.
  destruct (Disk.construct (ElementTree.findall (py "devices/disk") tree))
    as [all|]; [|discriminate].
  intros H; inversion H; subst ds; clear H. destruct C as [E _].
  assert (G : map Disk.xml
                (filter (fun d => match Disk.type d with Some _ => true | None => false end)
                   all)
              = filter has_source
                  (reached (ElementTree.findall (py "devices/disk") tree))
              /\ Forall (fun d => Disk.type d <> None /\ Disk.path d <> None)
                   (filter (fun d => match Disk.type d with
                                     | Some _ => true
                                     | None => false
                                     end) all)).
  { induction E as [|e d es all' Hd _ IH]; [split; [reflexivity|constructor]|].
    pose proof (disk_init_cases e) as C. rewrite Hd in C.
    destruct C as [Hx [Ht [Hp _]]].
    destruct IH as [IH1 IH2]. cbn [filter]. rewrite <- Ht.
    destruct (Disk.type d) eqn:T.
    - cbn [map]. rewrite Hx, IH1. split; [reflexivity|].
      constructor; [|exact IH2]. split; [rewrite T; discriminate|].
      apply Hp. rewrite <- Ht. reflexivity.
    - split; assumption. }
  destruct G as [G1 G2]. split; [|split; [|exact G2]].
  - intros e. rewrite G1. apply filter_In.
  - rewrite <- G1. symmetry. apply length_map.
Qed.

Lemma get_disks_yields_the_reached_disks_with_a_source_witness :
  exists ds,
    Disk.get_disks
      (ElementTree.mkElement (py "domain") []
         [ElementTree.mkElement (py "devices") []
            [ElementTree.mkElement (py "disk") [(py "type", py "file")]
               [ElementTree.mkElement (py "source") [(py "file", py "/img")] [];
                ElementTree.mkElement (py "target") [(py "dev", py "vda")] []];
             ElementTree.mkElement (py "disk") [(py "device", py "cdrom")]
               [ElementTree.mkElement (py "target") [(py "dev", py "hda")] []];
             ElementTree.mkElement (py "disk") [(py "type", py "file")]
               [ElementTree.mkElement (py "source") [] [];
                ElementTree.mkElement (py "target") [(py "dev", py "vdb")] []];
             ElementTree.mkElement (py "disk") [(py "type", py "block")]
               [ElementTree.mkElement (py "source") [(py "dev", py "/dev/sdb")] [];
                ElementTree.mkElement (py "target") [(py "dev", py "vdc")] []]]])
    = Disk.Ok ds
    /\ length ds = 1
    /\ Forall (fun d => Disk.type d <> None /\ Disk.path d <> None) ds.
Proof.
  eexists. split; [vm_compute; reflexivity|].
  split; [reflexivity|].
  eapply (@get_disks_yields_the_reached_disks_with_a_source
            (ElementTree.mkElement (py "domain") []
               [ElementTree.mkElement (py "devices") []
                  [ElementTree.mkElement (py "disk") [(py "type", py "file")]
                     [ElementTree.mkElement (py "source") [(py "file", py "/img")] [];
                      ElementTree.mkElement (py "target") [(py "dev", py "vda")] []];
                   ElementTree.mkElement (py "disk") [(py "device", py "cdrom")]
                     [ElementTree.mkElement (py "target") [(py "dev", py "hda")] []];
                   ElementTree.mkElement (py "disk") [(py "type", py "file")]
                     [ElementTree.mkElement (py "source") [] [];
                      ElementTree.mkElement (py "target") [(py "dev", py "vdb")] []];
                   ElementTree.mkElement (py "disk") [(py "type", py "block")]
                     [ElementTree.mkElement (py "source") [(py "dev", py "/dev/sdb")] [];
                      ElementTree.mkElement (py "target") [(py "dev", py "vdc")] []]]])).
  vm_compute. reflexivity.
Defined.

(** X19.  [get_disks] raises exactly when one of the [devices/disk]
    elements before the first element whose [<source>] has no attribute
    lacks a [<target>] child, also when that element has no [<source>] and
    would have been left out; what it raises is then the
    [AttributeError].  A [<source>] without an attribute raises nothing:
    the call returns, with the disks built before it. *)
Theorem get_disks_returns_iff_every_reached_disk_has_a_target
    (tree : ElementTree.Element) :
  ((exists ds, Disk.get_disks tree = Disk.Ok ds)
   <-> Forall (fun e => has_target e = true)
         (reached (ElementTree.findall (py "devices/disk") tree)))
  /\ (forall x, Disk.get_disks tree = Disk.Raise x -> x = Disk.AttributeError).
Proof.
  unfold Disk.get_disks.
  pose proof (construct_reached (ElementTree.findall (py "devices/disk") tree)) as C.
  destruct (Disk.construct (ElementTree.findall (py "devices/disk") tree)) as [all|x].
  - destruct C as [_ C]. split; [|intros x H; discriminate H].
    split; [intros _; exact C|intros _; eexists; reflexivity].
  - destruct C as [Cx C]. split.
    + split; [intros [ds H]; discriminate H|intros F; contradiction].
    + intros y H. inversion H; subst y. exact Cx.
Qed.
